(** * cue-parser: a shallow embedding of the CUE sheet parser and serializer

    The development follows the TypeScript sources:
    - [utils.ts]      time parsing and formatting ([parseMSFTime], [parseHMSTime],
                      [formatHMSTime], [formatMSFTime], [formatCueTime]) and
                      time arithmetic ([hmsToSeconds], [secondsToHMS],
                      [msfToFrames], [framesToMSF], addition, subtraction
                      and comparison);
    - the parser class [CueParser] ([parse], [parseLine], [parseCommand],
                      [parseQuotedString] and the per-command handlers);
    - [serializer.ts] [serializeCueSheet], [formatCueSheet],
                      [createMinimalCueSheet];
    - the web library the [parseQuotedString] that un-escapes doubled quotes.

    Conventions of the embedding.
    - A JavaScript string is a list of characters.  The characters are the
      8-bit code units (Latin-1); white space is the part of the ECMAScript
      WhiteSpace and LineTerminator classes that lies in that range.
    - A JavaScript number holding an integer is a [Z]; [parseInt] returns
      [None] for NaN.  The embedding is exact for the safe integers.
    - [undefined] fields of objects are [None].
    - A time is one of two objects: [{minutes, seconds, frames}], which the
      parser builds, and [{hour, minute, second}], which the serializer
      reads.  A document is parametrized by the type of its times, so that a
      document of the parser is no input of the serializer; what is read
      back of a written document is stated through [rereadSheet].
    - The parser instance is a record of its five fields; the track objects
      it allocates during one call live in a store [objs] and are referred to
      by their allocation index, so that the aliasing between [currentTrack]
      and the entries of [tracks] is the one of the source.
    - An exception thrown by a handler is the [Throw] outcome; it carries the
      state reached when it was thrown. *)

From Stdlib Require Import String Ascii ZArith Lia Bool Arith PeanoNat List Permutation Sorted.
Import ListNotations.

(** A comparison with a character that is not known stays folded. *)
Arguments Ascii.eqb : simpl nomatch.

(** ** JavaScript strings *)

Module Js.

Definition jstring := list ascii.

Definition str (s : string) : jstring := list_ascii_of_string s.

Definition TAB : ascii := "009"%char.
Definition LF : ascii := "010"%char.
Definition SP : ascii := "032"%char.
Definition DQ : ascii := "034"%char.
Definition COLON : ascii := "058"%char.
Definition SLASH : ascii := "047"%char.

(** [a === b] on strings *)
Fixpoint jeqb (a b : jstring) : bool :=
  match a, b with
  | [], [] => true
  | x :: a', y :: b' => Ascii.eqb x y && jeqb a' b'
  | _, _ => false
  end.

(** White space and line terminators below U+0100:
    TAB, LF, VT, FF, CR, SP and NBSP. *)
Definition isWhiteSpace (c : ascii) : bool :=
  let n := nat_of_ascii c in
  (n =? 9) || (n =? 10) || (n =? 11) || (n =? 12) || (n =? 13)
  || (n =? 32) || (n =? 160).

Fixpoint dropWhile (p : ascii -> bool) (s : jstring) : jstring :=
  match s with
  | [] => []
  | c :: s' => if p c then dropWhile p s' else s
  end.

Definition trimStart (s : jstring) : jstring := dropWhile isWhiteSpace s.

(** The text without its trailing white space: a character is kept when it
    is no white space or when something is kept after it. *)
Fixpoint trimEnd (s : jstring) : jstring :=
  match s with
  | [] => []
  | c :: s' =>
      match trimEnd s' with
      | [] => if isWhiteSpace c then [] else [c]
      | r => c :: r
      end
  end.

(** [String.prototype.trim] *)
Definition trim (s : jstring) : jstring := trimEnd (trimStart s).

(** [s.indexOf(c, from)] for a one-character pattern; [None] is [-1]. *)
Fixpoint indexFrom (c : ascii) (s : jstring) (pos : nat) : option nat :=
  match s with
  | [] => None
  | x :: s' => if Ascii.eqb x c then Some pos else indexFrom c s' (S pos)
  end.

Definition indexOf (c : ascii) (from : nat) (s : jstring) : option nat :=
  indexFrom c (skipn from s) from.

(** [s.substring(a, b)] and [s.slice(a, b)] for [0 <= a <= b]. *)
Definition substring (a b : nat) (s : jstring) : jstring :=
  firstn (b - a) (skipn a s).

(** [s.substring(a)] *)
Definition substringFrom (a : nat) (s : jstring) : jstring := skipn a s.

(** [s.slice(1, -1)] *)
Definition slice1m1 (s : jstring) : jstring := removelast (tl s).

Definition startsWith (p s : jstring) : bool :=
  jeqb (firstn (length p) s) p.

Definition endsWith (p s : jstring) : bool :=
  jeqb (skipn (length s - length p) s) p.

Definition consHead (c : ascii) (l : list jstring) : list jstring :=
  match l with
  | [] => [[c]]
  | h :: t => (c :: h) :: t
  end.

(** [s.split(c)] for a one-character separator. *)
Fixpoint split (c : ascii) (s : jstring) : list jstring :=
  match s with
  | [] => [[]]
  | x :: s' => if Ascii.eqb x c then [] :: split c s' else consHead x (split c s')
  end.

(** [s.split(/\s+/)]: [inws] tells that the previous character was white
    space, so that a run of white space separates once. *)
Fixpoint splitWsFrom (inws : bool) (s : jstring) : list jstring :=
  match s with
  | [] => [[]]
  | x :: s' =>
      if isWhiteSpace x
      then (if inws then splitWsFrom true s' else [] :: splitWsFrom true s')
      else consHead x (splitWsFrom false s')
  end.

Definition splitWs (s : jstring) : list jstring := splitWsFrom false s.

(** [lines.join(sep)] *)
Fixpoint join (sep : jstring) (l : list jstring) : jstring :=
  match l with
  | [] => []
  | [x] => x
  | x :: rest => x ++ sep ++ join sep rest
  end.

(** [s.includes(p)] *)
Fixpoint isPrefix (p s : jstring) : bool :=
  match p, s with
  | [], _ => true
  | _ :: _, [] => false
  | a :: p', b :: s' => Ascii.eqb a b && isPrefix p' s'
  end.

Fixpoint includes (p s : jstring) : bool :=
  match s with
  | [] => isPrefix p []
  | _ :: s' => isPrefix p s || includes p s'
  end.

Definition isDigit (c : ascii) : bool :=
  let n := nat_of_ascii c in (48 <=? n) && (n <=? 57).

Definition digitVal (c : ascii) : Z := (Z.of_nat (nat_of_ascii c) - 48)%Z.

Definition isUpperAlnum (c : ascii) : bool :=
  let n := nat_of_ascii c in
  isDigit c || ((65 <=? n) && (n <=? 90)).

(** [/^\d{13}$/.test(s)] and [/^[A-Z0-9]{12}$/.test(s)] *)
Definition allDigits (k : nat) (s : jstring) : bool :=
  (length s =? k) && forallb isDigit s.

Definition allUpperAlnum (k : nat) (s : jstring) : bool :=
  (length s =? k) && forallb isUpperAlnum s.

(** [s.toUpperCase()] on the 8-bit code units: a-z and the accented
    lower-case letters move down by 32, sharp s becomes SS.  The two letters
    whose capital lies above U+00FF (micro sign and y with diaeresis) are
    left as they are: the source only compares upper-cased text with ASCII
    keywords, and no capital of them is ASCII. *)
Definition upperChar (c : ascii) : jstring :=
  let n := nat_of_ascii c in
  if (97 <=? n) && (n <=? 122) then [ascii_of_nat (n - 32)]
  else if n =? 223 then ["S"%char; "S"%char]
  else if (224 <=? n) && (n <=? 254) && negb (n =? 247) then [ascii_of_nat (n - 32)]
  else [c].

Definition toUpperCase (s : jstring) : jstring := flat_map upperChar s.

(** Leading digits of [s] read in base ten, continuing [acc]. *)
Fixpoint digitsVal (acc : Z) (s : jstring) : Z :=
  match s with
  | [] => acc
  | c :: s' => if isDigit c then digitsVal (10 * acc + digitVal c)%Z s' else acc
  end.

Definition startsWithDigit (s : jstring) : bool :=
  match s with
  | c :: _ => isDigit c
  | [] => false
  end.

(** [parseInt(s, 10)]: leading white space is skipped, one sign is read, then
    the longest run of digits; what follows is ignored.  No digit: NaN. *)
Definition parseInt (s : jstring) : option Z :=
  match trimStart s with
  | c :: r =>
      if Ascii.eqb c "-" then
        (if startsWithDigit r then Some (- digitsVal 0 r)%Z else None)
      else if Ascii.eqb c "+" then
        (if startsWithDigit r then Some (digitsVal 0 r) else None)
      else
        (if isDigit c then Some (digitsVal 0 (c :: r)) else None)
  | [] => None
  end.

Definition digitChar (d : Z) : ascii := ascii_of_nat (Z.to_nat d + 48).

(** Decimal digits of a non-negative integer, most significant first.
    [fuel] bounds the number of digits; [toString] gives the number of
    binary digits, which is enough. *)
Fixpoint digitsOf (fuel : nat) (n : Z) (acc : jstring) : jstring :=
  match fuel with
  | O => acc
  | S f =>
      if (n <? 10)%Z then digitChar n :: acc
      else digitsOf f (n / 10)%Z (digitChar (n mod 10)%Z :: acc)
  end.

(** [n.toString()] for an integer [n] *)
Definition toString (n : Z) : jstring :=
  if (n <? 0)%Z then "-"%char :: digitsOf (S (Z.to_nat (Z.log2 (- n)))) (- n)%Z []
  else digitsOf (S (Z.to_nat (Z.log2 n))) n [].

(** [s.padStart(2, '0')] *)
Definition padStart2 (s : jstring) : jstring :=
  repeat "0"%char (2 - length s) ++ s.

End Js.
Import Js.

(** ** Data model ([types.ts]) *)

Inductive TrackFlag := PRE | DCP | FOUR_CH | SCMS.

Inductive TrackMode :=
  | AUDIO | CDG | MODE1_2048 | MODE1_2352
  | MODE2_2336 | MODE2_2352 | CDI_2336 | CDI_2352.

Inductive FileFormat := BINARY | MOTOROLA | AIFF | WAVE | MP3.

Definition flagName (f : TrackFlag) : jstring :=
  match f with
  | PRE => str "PRE" | DCP => str "DCP" | FOUR_CH => str "4CH" | SCMS => str "SCMS"
  end.

Definition modeName (m : TrackMode) : jstring :=
  match m with
  | AUDIO => str "AUDIO" | CDG => str "CDG"
  | MODE1_2048 => str "MODE1/2048" | MODE1_2352 => str "MODE1/2352"
  | MODE2_2336 => str "MODE2/2336" | MODE2_2352 => str "MODE2/2352"
  | CDI_2336 => str "CDI/2336" | CDI_2352 => str "CDI/2352"
  end.

Definition formatName (f : FileFormat) : jstring :=
  match f with
  | BINARY => str "BINARY" | MOTOROLA => str "MOTOROLA" | AIFF => str "AIFF"
  | WAVE => str "WAVE" | MP3 => str "MP3"
  end.

Definition validFlags : list TrackFlag := [PRE; DCP; FOUR_CH; SCMS].
Definition validModes : list TrackMode :=
  [AUDIO; CDG; MODE1_2048; MODE1_2352; MODE2_2336; MODE2_2352; CDI_2336; CDI_2352].
Definition validFormats : list FileFormat := [BINARY; MOTOROLA; AIFF; WAVE; MP3].

(** [valid.includes(s)] for a string [s], giving the member found. *)
Definition lookupName {A} (name : A -> jstring) (valid : list A) (s : jstring) : option A :=
  find (fun a => jeqb (name a) s) valid.

(** The time objects.  [parseMSFTime] builds an object with the fields
    [minutes], [seconds] and [frames] ([MSFTime]); [types.ts] declares the
    times of a document as [HMSTime], with the fields [hour], [minute] and
    [second], which [parseHMSTime] builds and [formatHMSTime], and through
    it the serializer, read.  The two are different objects: a field of the
    one is [undefined] on the other. *)
Record MSFTime := mkTime { minutes : Z; seconds : Z; frames : Z }.

Record HMSTime := mkHMS { hour : Z; minute : Z; second : Z }.

(** The records of a document are declared with [HMSTime] times; the parser
    stores in them the [MSFTime] objects of [parseMSFTime] (the declared
    types are erased at run time).  They are therefore parametrized by the
    type [T] of their time objects: the serializer takes documents of
    [HMSTime], the parser gives documents of [MSFTime]. *)
Record TrackIndex (T : Type) := mkIndex { idx_number : Z; idx_time : T }.
Arguments mkIndex {T} idx_number idx_time.
Arguments idx_number {T} t.
Arguments idx_time {T} t.

Record FileInfo := mkFile { filename : jstring; format : option FileFormat }.

Record Track (T : Type) := mkTrack {
  number : Z;
  mode : TrackMode;
  file : option FileInfo;
  title : option jstring;
  performer : option jstring;
  songwriter : option jstring;
  composer : option jstring;
  arranger : option jstring;
  message : option jstring;
  isrc : option jstring;
  flags : option (list TrackFlag);
  indexes : option (list (TrackIndex T));
  pregap : option T;
  postgap : option T;
  remarks : option (list jstring)
}.
Arguments mkTrack {T}.
Arguments number {T} t.
Arguments mode {T} t.
Arguments file {T} t.
Arguments title {T} t.
Arguments performer {T} t.
Arguments songwriter {T} t.
Arguments composer {T} t.
Arguments arranger {T} t.
Arguments message {T} t.
Arguments isrc {T} t.
Arguments flags {T} t.
Arguments indexes {T} t.
Arguments pregap {T} t.
Arguments postgap {T} t.
Arguments remarks {T} t.

Record CueGlobal := mkGlobal {
  g_catalog : option jstring;
  g_cdTextFile : option jstring;
  g_title : option jstring;
  g_performer : option jstring;
  g_songwriter : option jstring;
  g_composer : option jstring;
  g_arranger : option jstring;
  g_message : option jstring;
  g_discId : option jstring;
  g_genre : option jstring;
  g_upcEan : option jstring;
  g_remarks : option (list jstring)
}.

Record CueSheet (T : Type) := mkSheet { cs_global : CueGlobal; cs_tracks : list (Track T) }.
Arguments mkSheet {T}.
Arguments cs_global {T} c.
Arguments cs_tracks {T} c.

Record ParseError := mkError { e_line : nat; e_message : jstring; e_rawLine : jstring }.

Record ParseResult := mkResult {
  cueSheet : option (CueSheet MSFTime);
  r_errors : list ParseError;
  r_warnings : list ParseError
}.

(** The object literal [{ number, mode }] and the empty object [{}]. *)
Definition newTrack {T} (n : Z) (m : TrackMode) : Track T :=
  mkTrack n m None None None None None None None None None None None None None.

Definition emptyGlobal : CueGlobal :=
  mkGlobal None None None None None None None None None None None None.

(** Field assignments [track.f = v]. *)
Definition set_file {T} v (t : Track T) : Track T :=
  mkTrack (number t) (mode t) v (title t) (performer t) (songwriter t) (composer t)
    (arranger t) (message t) (isrc t) (flags t) (indexes t) (pregap t) (postgap t) (remarks t).
Definition set_title {T} v (t : Track T) : Track T :=
  mkTrack (number t) (mode t) (file t) v (performer t) (songwriter t) (composer t)
    (arranger t) (message t) (isrc t) (flags t) (indexes t) (pregap t) (postgap t) (remarks t).
Definition set_performer {T} v (t : Track T) : Track T :=
  mkTrack (number t) (mode t) (file t) (title t) v (songwriter t) (composer t)
    (arranger t) (message t) (isrc t) (flags t) (indexes t) (pregap t) (postgap t) (remarks t).
Definition set_songwriter {T} v (t : Track T) : Track T :=
  mkTrack (number t) (mode t) (file t) (title t) (performer t) v (composer t)
    (arranger t) (message t) (isrc t) (flags t) (indexes t) (pregap t) (postgap t) (remarks t).
Definition set_composer {T} v (t : Track T) : Track T :=
  mkTrack (number t) (mode t) (file t) (title t) (performer t) (songwriter t) v
    (arranger t) (message t) (isrc t) (flags t) (indexes t) (pregap t) (postgap t) (remarks t).
Definition set_arranger {T} v (t : Track T) : Track T :=
  mkTrack (number t) (mode t) (file t) (title t) (performer t) (songwriter t) (composer t)
    v (message t) (isrc t) (flags t) (indexes t) (pregap t) (postgap t) (remarks t).
Definition set_message {T} v (t : Track T) : Track T :=
  mkTrack (number t) (mode t) (file t) (title t) (performer t) (songwriter t) (composer t)
    (arranger t) v (isrc t) (flags t) (indexes t) (pregap t) (postgap t) (remarks t).
Definition set_isrc {T} v (t : Track T) : Track T :=
  mkTrack (number t) (mode t) (file t) (title t) (performer t) (songwriter t) (composer t)
    (arranger t) (message t) v (flags t) (indexes t) (pregap t) (postgap t) (remarks t).
Definition set_flags {T} v (t : Track T) : Track T :=
  mkTrack (number t) (mode t) (file t) (title t) (performer t) (songwriter t) (composer t)
    (arranger t) (message t) (isrc t) v (indexes t) (pregap t) (postgap t) (remarks t).
Definition set_indexes {T} v (t : Track T) : Track T :=
  mkTrack (number t) (mode t) (file t) (title t) (performer t) (songwriter t) (composer t)
    (arranger t) (message t) (isrc t) (flags t) v (pregap t) (postgap t) (remarks t).
Definition set_pregap {T} v (t : Track T) : Track T :=
  mkTrack (number t) (mode t) (file t) (title t) (performer t) (songwriter t) (composer t)
    (arranger t) (message t) (isrc t) (flags t) (indexes t) v (postgap t) (remarks t).
Definition set_postgap {T} v (t : Track T) : Track T :=
  mkTrack (number t) (mode t) (file t) (title t) (performer t) (songwriter t) (composer t)
    (arranger t) (message t) (isrc t) (flags t) (indexes t) (pregap t) v (remarks t).
Definition set_remarks {T} v (t : Track T) : Track T :=
  mkTrack (number t) (mode t) (file t) (title t) (performer t) (songwriter t) (composer t)
    (arranger t) (message t) (isrc t) (flags t) (indexes t) (pregap t) (postgap t) v.

(** Field assignments [global.f = v]. *)
Definition gset_catalog v (g : CueGlobal) : CueGlobal :=
  mkGlobal v (g_cdTextFile g) (g_title g) (g_performer g) (g_songwriter g) (g_composer g)
    (g_arranger g) (g_message g) (g_discId g) (g_genre g) (g_upcEan g) (g_remarks g).
Definition gset_cdTextFile v (g : CueGlobal) : CueGlobal :=
  mkGlobal (g_catalog g) v (g_title g) (g_performer g) (g_songwriter g) (g_composer g)
    (g_arranger g) (g_message g) (g_discId g) (g_genre g) (g_upcEan g) (g_remarks g).
Definition gset_title v (g : CueGlobal) : CueGlobal :=
  mkGlobal (g_catalog g) (g_cdTextFile g) v (g_performer g) (g_songwriter g) (g_composer g)
    (g_arranger g) (g_message g) (g_discId g) (g_genre g) (g_upcEan g) (g_remarks g).
Definition gset_performer v (g : CueGlobal) : CueGlobal :=
  mkGlobal (g_catalog g) (g_cdTextFile g) (g_title g) v (g_songwriter g) (g_composer g)
    (g_arranger g) (g_message g) (g_discId g) (g_genre g) (g_upcEan g) (g_remarks g).
Definition gset_songwriter v (g : CueGlobal) : CueGlobal :=
  mkGlobal (g_catalog g) (g_cdTextFile g) (g_title g) (g_performer g) v (g_composer g)
    (g_arranger g) (g_message g) (g_discId g) (g_genre g) (g_upcEan g) (g_remarks g).
Definition gset_composer v (g : CueGlobal) : CueGlobal :=
  mkGlobal (g_catalog g) (g_cdTextFile g) (g_title g) (g_performer g) (g_songwriter g) v
    (g_arranger g) (g_message g) (g_discId g) (g_genre g) (g_upcEan g) (g_remarks g).
Definition gset_arranger v (g : CueGlobal) : CueGlobal :=
  mkGlobal (g_catalog g) (g_cdTextFile g) (g_title g) (g_performer g) (g_songwriter g)
    (g_composer g) v (g_message g) (g_discId g) (g_genre g) (g_upcEan g) (g_remarks g).
Definition gset_message v (g : CueGlobal) : CueGlobal :=
  mkGlobal (g_catalog g) (g_cdTextFile g) (g_title g) (g_performer g) (g_songwriter g)
    (g_composer g) (g_arranger g) v (g_discId g) (g_genre g) (g_upcEan g) (g_remarks g).
Definition gset_discId v (g : CueGlobal) : CueGlobal :=
  mkGlobal (g_catalog g) (g_cdTextFile g) (g_title g) (g_performer g) (g_songwriter g)
    (g_composer g) (g_arranger g) (g_message g) v (g_genre g) (g_upcEan g) (g_remarks g).
Definition gset_genre v (g : CueGlobal) : CueGlobal :=
  mkGlobal (g_catalog g) (g_cdTextFile g) (g_title g) (g_performer g) (g_songwriter g)
    (g_composer g) (g_arranger g) (g_message g) (g_discId g) v (g_upcEan g) (g_remarks g).
Definition gset_upcEan v (g : CueGlobal) : CueGlobal :=
  mkGlobal (g_catalog g) (g_cdTextFile g) (g_title g) (g_performer g) (g_songwriter g)
    (g_composer g) (g_arranger g) (g_message g) (g_discId g) (g_genre g) v (g_remarks g).
Definition gset_remarks v (g : CueGlobal) : CueGlobal :=
  mkGlobal (g_catalog g) (g_cdTextFile g) (g_title g) (g_performer g) (g_songwriter g)
    (g_composer g) (g_arranger g) (g_message g) (g_discId g) (g_genre g) (g_upcEan g) v.

(** [a = a || []; a.push(x)] *)
Definition pushOpt {A} (l : option (list A)) (x : A) : option (list A) :=
  match l with
  | Some l' => Some (l' ++ [x])
  | None => Some [x]
  end.

(** ** Functions that may throw *)

Inductive result (A : Type) :=
  | Ret (a : A)
  | Err (m : jstring).
Arguments Ret {A} a.
Arguments Err {A} m.

Definition bind {A B} (r : result A) (k : A -> result B) : result B :=
  match r with
  | Ret a => k a
  | Err m => Err m
  end.

Notation "x <- r ;; k" := (bind r (fun x => k))
  (at level 61, r at next level, right associativity).

(** ** Time utilities ([utils.ts]) *)

Definition quoted (s : jstring) : jstring := DQ :: s ++ [DQ].

Definition isEmpty (s : jstring) : bool :=
  match s with [] => true | _ => false end.

Definition msfError (timeString tail : jstring) : jstring :=
  str "Invalid MSF time format: " ++ quoted timeString ++ tail.

Definition hmsError (timeString tail : jstring) : jstring :=
  str "Invalid time format: " ++ quoted timeString ++ tail.

Definition parseMSFTime (timeString : jstring) : result MSFTime :=
  let trimmed := trim timeString in
  match split COLON trimmed with
  | [minutesStr; secondsStr; framesStr] =>
      if isEmpty minutesStr || isEmpty secondsStr || isEmpty framesStr then
        Err (msfError timeString (str ". Missing time components."))
      else
        match parseInt minutesStr, parseInt secondsStr, parseInt framesStr with
        | Some m, Some s, Some f =>
            if ((m <? 0) || (s <? 0) || (f <? 0))%Z then
              Err (msfError timeString (str ". All parts must be non-negative."))
            else if (60 <=? s)%Z then
              Err (msfError timeString (str ". Seconds must be less than 60."))
            else if (75 <=? f)%Z then
              Err (msfError timeString (str ". Frames must be less than 75."))
            else Ret (mkTime m s f)
        | _, _, _ =>
            Err (msfError timeString (str ". All parts must be numbers."))
        end
  | _ => Err (msfError timeString (str ". Expected format: " ++ quoted (str "m:s:f")))
  end.

Definition parseHMSTime (timeString : jstring) : result HMSTime :=
  let trimmed := trim timeString in
  match split COLON trimmed with
  | [hoursStr; minutesStr; secondsStr] =>
      if isEmpty hoursStr || isEmpty minutesStr || isEmpty secondsStr then
        Err (hmsError timeString (str ". Missing time components."))
      else
        match parseInt hoursStr, parseInt minutesStr, parseInt secondsStr with
        | Some h, Some m, Some s =>
            if ((h <? 0) || (m <? 0) || (s <? 0))%Z then
              Err (hmsError timeString (str ". All parts must be non-negative."))
            else if (60 <=? m)%Z then
              Err (hmsError timeString (str ". Minutes must be less than 60."))
            else if (60 <=? s)%Z then
              Err (hmsError timeString (str ". Seconds must be less than 60."))
            else Ret (mkHMS h m s)
        | _, _, _ =>
            Err (hmsError timeString (str ". All parts must be numbers."))
        end
  | _ => Err (hmsError timeString (str ". Expected format: " ++ quoted (str "h:m:s")))
  end.

(** [formatHMSTime(time)] with the default [zeroPad = true]. *)
Definition formatHMSTime (time : HMSTime) : jstring :=
  padStart2 (toString (hour time)) ++ [COLON]
  ++ padStart2 (toString (minute time)) ++ [COLON]
  ++ padStart2 (toString (second time)).

(** ** The parser ([CueParser]) *)

(** The instance fields, and the store of the track objects allocated by the
    running call.  [currentTrack] and the entries of [tracks] are references
    into [objs]. *)
Record CueParser := mkParser {
  currentTrack : option nat;
  global : CueGlobal;
  tracks : list nat;
  errors : list ParseError;
  warnings : list ParseError;
  objs : list (Track MSFTime)
}.

Inductive outcome :=
  | Ok (st : CueParser)
  | Throw (st : CueParser) (m : jstring).

Fixpoint updateAt (r : nat) (f : Track MSFTime -> Track MSFTime) (l : list (Track MSFTime))
  : list (Track MSFTime) :=
  match l, r with
  | [], _ => []
  | x :: l', O => f x :: l'
  | x :: l', S r' => x :: updateAt r' f l'
  end.

(** [this.currentTrack.f = v] where [this.currentTrack] is the object [r]. *)
Definition updTrack (r : nat) (f : Track MSFTime -> Track MSFTime) (st : CueParser)
  : CueParser :=
  mkParser (currentTrack st) (global st) (tracks st) (errors st) (warnings st)
    (updateAt r f (objs st)).

Definition updGlobal (f : CueGlobal -> CueGlobal) (st : CueParser) : CueParser :=
  mkParser (currentTrack st) (f (global st)) (tracks st) (errors st) (warnings st) (objs st).

Definition pushTrack (r : nat) (st : CueParser) : CueParser :=
  mkParser (currentTrack st) (global st) (tracks st ++ [r]) (errors st) (warnings st) (objs st).

Definition pushError (e : ParseError) (st : CueParser) : CueParser :=
  mkParser (currentTrack st) (global st) (tracks st) (errors st ++ [e]) (warnings st) (objs st).

Definition pushWarning (e : ParseError) (st : CueParser) : CueParser :=
  mkParser (currentTrack st) (global st) (tracks st) (errors st) (warnings st ++ [e]) (objs st).

(** [this.currentTrack = { number, mode }]: a new object is allocated. *)
Definition openTrack (t : Track MSFTime) (st : CueParser) : CueParser :=
  mkParser (Some (length (objs st))) (global st) (tracks st) (errors st) (warnings st)
    (objs st ++ [t]).

Definition reset (this : CueParser) : CueParser :=
  mkParser None emptyGlobal [] [] [] [].

Definition parseCommand (line : jstring) : jstring * jstring :=
  let trimmed := trim line in
  match indexOf SP 0 trimmed with
  | None => (trimmed, [])
  | Some spaceIndex =>
      (substring 0 spaceIndex trimmed, trim (substringFrom (spaceIndex + 1) trimmed))
  end.

Definition parseQuotedString (input : jstring) : jstring :=
  let trimmed := trim input in
  if startsWith [DQ] trimmed && endsWith [DQ] trimmed && (2 <=? length trimmed)
  then slice1m1 trimmed
  else trimmed.

(** A handler that writes a text field of the open track, or of the global
    record when no track is open. *)
Definition setText (tset : option jstring -> Track MSFTime -> Track MSFTime)
    (gset : option jstring -> CueGlobal -> CueGlobal) (v : jstring) (st : CueParser)
  : outcome :=
  match currentTrack st with
  | Some r => Ok (updTrack r (tset (Some v)) st)
  | None => Ok (updGlobal (gset (Some v)) st)
  end.

Definition handleRemark (args : jstring) (lineNumber : nat) (st : CueParser) : outcome :=
  let remark := args in
  match currentTrack st with
  | Some r => Ok (updTrack r (fun t => set_remarks (pushOpt (remarks t) remark) t) st)
  | None => Ok (updGlobal (fun g => gset_remarks (pushOpt (g_remarks g) remark) g) st)
  end.

Definition handleCatalog (args : jstring) (lineNumber : nat) (st : CueParser) : outcome :=
  let catalog := trim args in
  if negb (allDigits 13 catalog) then
    Throw st (str "CATALOG must be exactly 13 digits, got: " ++ catalog)
  else Ok (updGlobal (gset_catalog (Some catalog)) st).

Definition handleCdTextFile (args : jstring) (lineNumber : nat) (st : CueParser) : outcome :=
  Ok (updGlobal (gset_cdTextFile (Some (parseQuotedString args))) st).

Definition parseFileFormat (formatStr : jstring) : result FileFormat :=
  match lookupName formatName validFormats (toUpperCase formatStr) with
  | Some f => Ret f
  | None => Err (str "Invalid file format: " ++ formatStr)
  end.

Definition parseFileArgs (args : jstring) : result (jstring * option FileFormat) :=
  let trimmed := trim args in
  if startsWith [DQ] trimmed then
    match indexOf DQ 1 trimmed with
    | None => Err (str "Unterminated quoted filename")
    | Some endQuoteIndex =>
        let filename := substring 1 endQuoteIndex trimmed in
        let remaining := trim (substringFrom (endQuoteIndex + 1) trimmed) in
        if isEmpty remaining then Ret (filename, None)
        else (f <- parseFileFormat remaining ;; Ret (filename, Some f))
    end
  else
    match splitWs trimmed with
    | filename :: p1 :: _ =>
        if isEmpty p1 then Ret (filename, None)
        else (f <- parseFileFormat p1 ;; Ret (filename, Some f))
    | [filename] => Ret (filename, None)
    | [] => Ret ([], None)
    end.

Definition handleFile (args : jstring) (lineNumber : nat) (st : CueParser) : outcome :=
  match parseFileArgs args with
  | Err m => Throw st m
  | Ret (fname, fmt) =>
      let splited := split SLASH fname in
      let name := last splited (str "[EMPTY FILE NAME]") in
      let fileInfo := mkFile name fmt in
      match currentTrack st with
      | Some r => Ok (updTrack r (set_file (Some fileInfo)) st)
      | None =>
          Ok (pushWarning
                (mkError lineNumber
                   (str "Global FILE commands are not recommended. Each TRACK should have its own FILE.")
                   (str "FILE " ++ args)) st)
      end
  end.

Definition handleTrack (args : jstring) (lineNumber : nat) (st : CueParser) : outcome :=
  let st1 := match currentTrack st with
             | Some r => pushTrack r st
             | None => st
             end in
  match splitWs (trim args) with
  | p0 :: p1 :: _ =>
      let trackMode := toUpperCase p1 in
      match parseInt p0 with
      | Some trackNumber =>
          if ((trackNumber <? 1) || (99 <? trackNumber))%Z then
            Throw st1 (str "Invalid track number: " ++ p0 ++ str ". Must be between 1 and 99.")
          else
            match lookupName modeName validModes trackMode with
            | Some m => Ok (openTrack (newTrack trackNumber m) st1)
            | None => Throw st1 (str "Invalid track mode: " ++ p1)
            end
      | None =>
          Throw st1 (str "Invalid track number: " ++ p0 ++ str ". Must be between 1 and 99.")
      end
  | _ => Throw st1 (str "TRACK command requires track number and mode")
  end.

Definition handleIndex (args : jstring) (lineNumber : nat) (st : CueParser) : outcome :=
  match currentTrack st with
  | None => Throw st (str "INDEX command must be inside a TRACK")
  | Some r =>
      match splitWs (trim args) with
      | p0 :: p1 :: _ =>
          match parseInt p0 with
          | Some indexNumber =>
              if ((indexNumber <? 0) || (99 <? indexNumber))%Z then
                Throw st (str "Invalid index number: " ++ p0 ++ str ". Must be between 0 and 99.")
              else
                match parseMSFTime p1 with
                | Err m => Throw st m
                | Ret time =>
                    Ok (updTrack r
                          (fun t => set_indexes (pushOpt (indexes t) (mkIndex indexNumber time)) t)
                          st)
                end
          | None =>
              Throw st (str "Invalid index number: " ++ p0 ++ str ". Must be between 0 and 99.")
          end
      | _ => Throw st (str "INDEX command requires index number and time")
      end
  end.

Definition handlePregap (args : jstring) (lineNumber : nat) (st : CueParser) : outcome :=
  match currentTrack st with
  | None => Throw st (str "PREGAP command must be inside a TRACK")
  | Some r =>
      match parseMSFTime (trim args) with
      | Err m => Throw st m
      | Ret time => Ok (updTrack r (set_pregap (Some time)) st)
      end
  end.

Definition handlePostgap (args : jstring) (lineNumber : nat) (st : CueParser) : outcome :=
  match currentTrack st with
  | None => Throw st (str "POSTGAP command must be inside a TRACK")
  | Some r =>
      match parseMSFTime (trim args) with
      | Err m => Throw st m
      | Ret time => Ok (updTrack r (set_postgap (Some time)) st)
      end
  end.

(** The loop of [handleFlags]: the first token that is no flag throws. *)
Fixpoint parseFlags (flagStrings : list jstring) (acc : list TrackFlag)
  : result (list TrackFlag) :=
  match flagStrings with
  | [] => Ret acc
  | flagStr :: rest =>
      match lookupName flagName validFlags (toUpperCase flagStr) with
      | Some f => parseFlags rest (acc ++ [f])
      | None => Err (str "Invalid flag: " ++ flagStr)
      end
  end.

Definition handleFlags (args : jstring) (lineNumber : nat) (st : CueParser) : outcome :=
  match currentTrack st with
  | None => Throw st (str "FLAGS command must be inside a TRACK")
  | Some r =>
      match parseFlags (splitWs (trim args)) [] with
      | Err m => Throw st m
      | Ret fl => Ok (updTrack r (set_flags (Some fl)) st)
      end
  end.

Definition handleIsrc (args : jstring) (lineNumber : nat) (st : CueParser) : outcome :=
  match currentTrack st with
  | None => Throw st (str "ISRC command must be inside a TRACK")
  | Some r =>
      let isrc := trim args in
      let st1 :=
        if negb (allUpperAlnum 12 isrc) then
          pushWarning
            (mkError lineNumber
               (str "ISRC format may be invalid: " ++ isrc ++ str ". Expected format: CCOOOOYYSSSSS")
               (str "ISRC " ++ args)) st
        else st in
      Ok (updTrack r (set_isrc (Some isrc)) st1)
  end.

Definition handleTitle (args : jstring) (lineNumber : nat) :=
  setText set_title gset_title (parseQuotedString args).
Definition handlePerformer (args : jstring) (lineNumber : nat) :=
  setText set_performer gset_performer (parseQuotedString args).
Definition handleSongwriter (args : jstring) (lineNumber : nat) :=
  setText set_songwriter gset_songwriter (parseQuotedString args).
Definition handleComposer (args : jstring) (lineNumber : nat) :=
  setText set_composer gset_composer (parseQuotedString args).
Definition handleArranger (args : jstring) (lineNumber : nat) :=
  setText set_arranger gset_arranger (parseQuotedString args).
Definition handleMessage (args : jstring) (lineNumber : nat) :=
  setText set_message gset_message (parseQuotedString args).

Definition handleDiscId (args : jstring) (lineNumber : nat) (st : CueParser) : outcome :=
  Ok (updGlobal (gset_discId (Some (parseQuotedString args))) st).
Definition handleGenre (args : jstring) (lineNumber : nat) (st : CueParser) : outcome :=
  Ok (updGlobal (gset_genre (Some (parseQuotedString args))) st).
Definition handleUpcEan (args : jstring) (lineNumber : nat) (st : CueParser) : outcome :=
  Ok (updGlobal (gset_upcEan (Some (parseQuotedString args))) st).

(** The cases of the [switch] of [parseLine]. *)
Inductive Command :=
  | REM | CATALOG | CDTEXTFILE | FILE | TRACK | INDEX | PREGAP | POSTGAP | FLAGS
  | ISRC | TITLE | PERFORMER | SONGWRITER | COMPOSER | ARRANGER | MESSAGE
  | DISC_ID | GENRE | UPC_EAN.

Definition keyword (c : Command) : jstring :=
  match c with
  | REM => str "REM" | CATALOG => str "CATALOG" | CDTEXTFILE => str "CDTEXTFILE"
  | FILE => str "FILE" | TRACK => str "TRACK" | INDEX => str "INDEX"
  | PREGAP => str "PREGAP" | POSTGAP => str "POSTGAP" | FLAGS => str "FLAGS"
  | ISRC => str "ISRC" | TITLE => str "TITLE" | PERFORMER => str "PERFORMER"
  | SONGWRITER => str "SONGWRITER" | COMPOSER => str "COMPOSER"
  | ARRANGER => str "ARRANGER" | MESSAGE => str "MESSAGE" | DISC_ID => str "DISC_ID"
  | GENRE => str "GENRE" | UPC_EAN => str "UPC_EAN"
  end.

Definition commands : list Command :=
  [REM; CATALOG; CDTEXTFILE; FILE; TRACK; INDEX; PREGAP; POSTGAP; FLAGS; ISRC; TITLE;
   PERFORMER; SONGWRITER; COMPOSER; ARRANGER; MESSAGE; DISC_ID; GENRE; UPC_EAN].

Definition handler (c : Command) : jstring -> nat -> CueParser -> outcome :=
  match c with
  | REM => handleRemark | CATALOG => handleCatalog | CDTEXTFILE => handleCdTextFile
  | FILE => handleFile | TRACK => handleTrack | INDEX => handleIndex
  | PREGAP => handlePregap | POSTGAP => handlePostgap | FLAGS => handleFlags
  | ISRC => handleIsrc | TITLE => handleTitle | PERFORMER => handlePerformer
  | SONGWRITER => handleSongwriter | COMPOSER => handleComposer
  | ARRANGER => handleArranger | MESSAGE => handleMessage | DISC_ID => handleDiscId
  | GENRE => handleGenre | UPC_EAN => handleUpcEan
  end.

Definition parseLine (line : jstring) (lineNumber : nat) (st : CueParser) : outcome :=
  let trimmed := trim line in
  if isEmpty trimmed then Ok st
  else
    let (command, args) := parseCommand trimmed in
    if isEmpty command then Ok st
    else
      match lookupName keyword commands (toUpperCase command) with
      | Some c => handler c args lineNumber st
      | None =>
          Ok (pushWarning (mkError lineNumber (str "Unknown command: " ++ command) line) st)
      end.

(** One turn of the [for] loop of [parse]: the [try]/[catch] around
    [parseLine]. *)
Definition step (line : jstring) (lineNumber : nat) (st : CueParser) : CueParser :=
  match parseLine line lineNumber st with
  | Ok st' => st'
  | Throw st' m => pushError (mkError lineNumber m line) st'
  end.

Fixpoint parseLines (lines : list jstring) (i : nat) (st : CueParser) : CueParser :=
  match lines with
  | [] => st
  | line :: rest => parseLines rest (S i) (step line (i + 1) st)
  end.

(** Finalize the last track if it exists. *)
Definition finalize (st : CueParser) : CueParser :=
  match currentTrack st with
  | Some r => pushTrack r st
  | None => st
  end.

(** The objects that the references of [refs] denote. *)
Definition deref (store : list (Track MSFTime)) (refs : list nat) : list (Track MSFTime) :=
  flat_map (fun r => match nth_error store r with Some t => [t] | None => [] end) refs.

Definition makeResult (st : CueParser) : ParseResult :=
  mkResult
    (match errors st with
     | [] => Some (mkSheet (global st) (deref (objs st) (tracks st)))
     | _ :: _ => None
     end)
    (errors st) (warnings st).

(** The state in which [parse] leaves the instance. *)
Definition run (content : jstring) (this : CueParser) : CueParser :=
  finalize (parseLines (split LF content) 0 (reset this)).

(** [CueParser.parse], a method: it takes the instance and gives the instance
    back with the result. *)
Definition parse (this : CueParser) (content : jstring) : CueParser * ParseResult :=
  let st := run content this in (st, makeResult st).

(** [new CueParser()] *)
Definition newCueParser : CueParser := mkParser None emptyGlobal [] [] [] [].

Definition parseCueSheet (content : jstring) : ParseResult :=
  snd (parse newCueParser content).

(** ** The serializer ([serializer.ts]) *)

Definition escapeChar (c : ascii) : jstring :=
  if Ascii.eqb c DQ then [DQ; DQ] else [c].

(** [escapeString]: every double quote is doubled. *)
Definition escapeString (s : jstring) : jstring := flat_map escapeChar s.

(** [if (field) lines.push(f(field))]: an absent or empty string pushes
    nothing. *)
Definition whenText (field : option jstring) (f : jstring -> jstring) : list jstring :=
  match field with
  | Some (c :: s) => [f (c :: s)]
  | _ => []
  end.

Definition whenSome {A} (field : option A) (f : A -> list jstring) : list jstring :=
  match field with
  | Some a => f a
  | None => []
  end.

Definition remarkLines (prefix : jstring) (rs : option (list jstring)) : list jstring :=
  whenSome rs (map (fun remark => prefix ++ str "REM " ++ remark)).

Definition textLine (prefix : jstring) (kw : string) (v : jstring) : jstring :=
  prefix ++ str kw ++ [SP] ++ quoted (escapeString v).

(** The lines that [serializeGlobal] pushes. *)
Definition serializeGlobal (g : CueGlobal) : list jstring :=
  remarkLines [] (g_remarks g)
  ++ whenText (g_catalog g) (fun v => str "CATALOG " ++ v)
  ++ whenText (g_cdTextFile g) (fun v => str "CDTEXTFILE " ++ quoted v)
  ++ whenText (g_title g) (textLine [] "TITLE")
  ++ whenText (g_performer g) (textLine [] "PERFORMER")
  ++ whenText (g_songwriter g) (textLine [] "SONGWRITER")
  ++ whenText (g_composer g) (textLine [] "COMPOSER")
  ++ whenText (g_arranger g) (textLine [] "ARRANGER")
  ++ whenText (g_message g) (textLine [] "MESSAGE")
  ++ whenText (g_discId g) (textLine [] "DISC_ID")
  ++ whenText (g_genre g) (textLine [] "GENRE")
  ++ whenText (g_upcEan g) (textLine [] "UPC_EAN").

Definition formatStr (f : FileInfo) : jstring :=
  match format f with
  | Some fmt => SP :: formatName fmt
  | None => []
  end.

(** The FILE line of [serializeTracksOptimized] and [serializeTrackContent]:
    the name is quoted when it holds a space or a double quote. *)
Definition fileLine (prefix : jstring) (f : FileInfo) : jstring :=
  if includes [SP] (filename f) || includes [DQ] (filename f)
  then prefix ++ str "FILE " ++ quoted (escapeString (filename f)) ++ formatStr f
  else prefix ++ str "FILE " ++ filename f ++ formatStr f.

Definition tabs2 : jstring := [TAB; TAB].
Definition tabs3 : jstring := [TAB; TAB; TAB].

Definition trackLine (t : Track HMSTime) : jstring :=
  tabs2 ++ str "TRACK " ++ padStart2 (toString (number t)) ++ [SP] ++ modeName (mode t).

(** [[...indexes].sort((a, b) => a.number - b.number)]: a stable sort. *)
Fixpoint insertIndex {T} (x : TrackIndex T) (l : list (TrackIndex T)) : list (TrackIndex T) :=
  match l with
  | [] => [x]
  | y :: l' => if (idx_number y <? idx_number x)%Z then y :: insertIndex x l' else x :: l
  end.

Fixpoint sortIndexes {T} (l : list (TrackIndex T)) : list (TrackIndex T) :=
  match l with
  | [] => []
  | x :: l' => insertIndex x (sortIndexes l')
  end.

Definition indexLine (i : TrackIndex HMSTime) : jstring :=
  tabs3 ++ str "INDEX " ++ padStart2 (toString (idx_number i)) ++ [SP]
  ++ formatHMSTime (idx_time i).

Definition flagsLine (fl : list TrackFlag) : list jstring :=
  match fl with
  | [] => []
  | _ :: _ => [tabs3 ++ str "FLAGS " ++ join [SP] (map flagName fl)]
  end.

(** The lines that [serializeTrackContent] pushes. *)
Definition serializeTrackContent (t : Track HMSTime) : list jstring :=
  [trackLine t]
  ++ whenText (title t) (textLine tabs3 "TITLE")
  ++ whenText (performer t) (textLine tabs3 "PERFORMER")
  ++ whenText (songwriter t) (textLine tabs3 "SONGWRITER")
  ++ whenText (composer t) (textLine tabs3 "COMPOSER")
  ++ whenText (arranger t) (textLine tabs3 "ARRANGER")
  ++ whenText (message t) (textLine tabs3 "MESSAGE")
  ++ whenText (isrc t) (fun v => tabs3 ++ str "ISRC " ++ v)
  ++ whenSome (file t) (fun f => [fileLine tabs3 f])
  ++ whenSome (flags t) flagsLine
  ++ whenSome (pregap t) (fun p => [tabs3 ++ str "PREGAP " ++ formatHMSTime p])
  ++ whenSome (indexes t) (fun l => map indexLine (sortIndexes l))
  ++ whenSome (postgap t) (fun p => [tabs3 ++ str "POSTGAP " ++ formatHMSTime p])
  ++ remarkLines tabs3 (remarks t).

(** [track.file && track.file.filename !== lastFile] *)
Definition fileChanged (t : Track HMSTime) (lastFile : option jstring) : option FileInfo :=
  match file t with
  | Some f =>
      match lastFile with
      | Some l => if jeqb (filename f) l then None else Some f
      | None => Some f
      end
  | None => None
  end.

(** The lines that [serializeTracksOptimized] pushes; [lastFile] is its local
    variable. *)
Fixpoint serializeTracksOptimized (ts : list (Track HMSTime)) (lastFile : option jstring)
  : list jstring :=
  match ts with
  | [] => []
  | t :: rest =>
      match fileChanged t lastFile with
      | Some f =>
          fileLine [] f :: serializeTrackContent t
          ++ serializeTracksOptimized rest (Some (filename f))
      | None => serializeTrackContent t ++ serializeTracksOptimized rest lastFile
      end
  end.

Definition serializeCueSheet (c : CueSheet HMSTime) : jstring :=
  join [LF] (serializeGlobal (cs_global c) ++ serializeTracksOptimized (cs_tracks c) None)
  ++ [LF].

(** The options of [formatCueSheet]. *)
Record FormatOptions := mkOptions { indent : option jstring; trackSpacing : option bool }.

Definition noOptions : FormatOptions := mkOptions None None.

(** [options.indent || TAB] *)
Definition indentOf (o : FormatOptions) : jstring :=
  match indent o with
  | Some (c :: s) => c :: s
  | _ => [TAB]
  end.

(** [options.trackSpacing ?? true] *)
Definition trackSpacingOf (o : FormatOptions) : bool :=
  match trackSpacing o with
  | Some b => b
  | None => true
  end.

(** The re-indentation of one line of a track.  The indentation unit is
    taken literally: it is assumed to hold no dollar sign, which
    [String.prototype.replace] would expand. *)
Definition reindent (ind : jstring) (l : jstring) : jstring :=
  if startsWith tabs3 l then ind ++ ind ++ ind ++ skipn 3 l
  else if startsWith tabs2 l then ind ++ ind ++ skipn 2 l
  else l.

(** The [forEach] over the tracks in [formatCueSheet]; [index] is the
    position of the track. *)
Fixpoint formatTracks (ind : jstring) (spacing : bool) (ts : list (Track HMSTime))
    (index : nat)
  : list jstring :=
  match ts with
  | [] => []
  | t :: rest =>
      (if (0 <? index) && spacing then [[]] else [])
      ++ map (reindent ind) (serializeTrackContent t)
      ++ formatTracks ind spacing rest (S index)
  end.

Definition formatCueSheet (c : CueSheet HMSTime) (options : FormatOptions) : jstring :=
  let ind := indentOf options in
  let spacing := trackSpacingOf options in
  let lines := serializeGlobal (cs_global c) in
  let lines := lines ++ (if (0 <? length lines) && spacing then [[]] else []) in
  join [LF] (lines ++ formatTracks ind spacing (cs_tracks c) 0) ++ [LF].

(** [indexes.find(idx => idx.number === 1)] *)
Definition mainIndexOf (l : list (TrackIndex HMSTime)) : option (TrackIndex HMSTime) :=
  find (fun idx => (idx_number idx =? 1)%Z) l.

Definition minimalTrack (t : Track HMSTime) : list jstring :=
  [trackLine t]
  ++ whenText (title t) (textLine tabs3 "TITLE")
  ++ whenSome (file t)
       (fun f => [tabs3 ++ str "FILE " ++ quoted (escapeString (filename f)) ++ formatStr f])
  ++ whenSome (indexes t)
       (fun l => whenSome (mainIndexOf l)
                   (fun mainIndex => [tabs3 ++ str "INDEX 01 " ++ formatHMSTime (idx_time mainIndex)])).

Definition createMinimalCueSheet (c : CueSheet HMSTime) : jstring :=
  join [LF]
    (whenText (g_title (cs_global c)) (textLine [] "TITLE")
     ++ whenText (g_performer (cs_global c)) (textLine [] "PERFORMER")
     ++ flat_map minimalTrack (cs_tracks c))
  ++ [LF].

Definition lines (l : list jstring) : jstring := join [LF] l.

Definition scenario1 : jstring :=
  lines [str "TITLE " ++ quoted (str "A"); str "TRACK 01 AUDIO"; str "INDEX 01 00:02:33";
         str "TRACK 02 AUDIO"; str "INDEX 01 01:30:45"].

(** ** The state of the parser while no error has been recorded *)

Definition outState (o : outcome) : CueParser :=
  match o with
  | Ok st => st
  | Throw st _ => st
  end.

(** Every state that [parse] goes through before the first error has one of
    two forms: no track was opened yet, or the store is [o ++ [c]], the open
    track is the last object [c] and [tracks] refers to the objects of [o] in
    order. *)
Definition atTop (g : CueGlobal) (w : list ParseError) : CueParser :=
  mkParser None g [] [] w [].

Definition inTrack (o : list (Track MSFTime)) (c : Track MSFTime) (g : CueGlobal)
    (w : list ParseError)
  : CueParser :=
  mkParser (Some (length o)) g (seq 0 (length o)) [] w (o ++ [c]).

Inductive shaped : CueParser -> Prop :=
  | shaped_top g w : shaped (atTop g w)
  | shaped_track o c g w : shaped (inTrack o c g w).

(** ** Notions used by the statements *)

(** The command that [parseLine] dispatches a line to: [None] for a blank
    line and for an unknown keyword. *)
Definition commandOf (line : jstring) : option Command :=
  let trimmed := trim line in
  if isEmpty trimmed then None
  else
    let (command, args) := parseCommand trimmed in
    if isEmpty command then None
    else lookupName keyword commands (toUpperCase command).

(** The commands that are refused outside a track. *)
Definition trackOnly (c : Command) : bool :=
  match c with
  | INDEX | PREGAP | POSTGAP | FLAGS | ISRC => true
  | _ => false
  end.


(** The other [parseQuotedString] of the repository, the one of the web
    library: the outer quotes are stripped and every doubled quote becomes
    one quote. *)
Fixpoint unescapeString (s : jstring) : jstring :=
  match s with
  | [] => []
  | c :: r =>
      match r with
      | c2 :: r2 =>
          if Ascii.eqb c DQ && Ascii.eqb c2 DQ then DQ :: unescapeString r2
          else c :: unescapeString r
      | [] => [c]
      end
  end.

Definition webParseQuotedString (s : jstring) : jstring :=
  let trimmed := trim s in
  if startsWith [DQ] trimmed && endsWith [DQ] trimmed
  then unescapeString (slice1m1 trimmed)
  else trimmed.

(** The number of FILE lines of a serialized sheet. *)
Definition isFileLine (l : jstring) : bool := startsWith (str "FILE") (trim l).

Definition fileLineCount (out : jstring) : nat :=
  length (filter isFileLine (split LF out)).

(** The fields of a time text: the parts of the trimmed text between its
    colons. *)
Definition timeFields (s : jstring) : list jstring := split COLON (trim s).

(** A field that is the decimal notation of an integer: an optional sign and
    digits, nothing else. *)
Definition isIntegerText (f : jstring) : bool :=
  match f with
  | c :: r =>
      if Ascii.eqb c "-" || Ascii.eqb c "+"
      then negb (isEmpty r) && forallb isDigit r
      else forallb isDigit f
  | [] => false
  end.

(** The integer that such a field denotes. *)
Definition intValue (f : jstring) : Z :=
  match f with
  | c :: r =>
      if Ascii.eqb c "-" then (- digitsVal 0 r)%Z
      else if Ascii.eqb c "+" then digitsVal 0 r
      else digitsVal 0 f
  | [] => 0%Z
  end.

(** A field in which a number begins: after white space, a digit, or a sign
    and a digit. *)
Definition beginsNumber (f : jstring) : bool :=
  match trimStart f with
  | c :: r => if Ascii.eqb c "-" || Ascii.eqb c "+" then startsWithDigit r else isDigit c
  | [] => false
  end.

(** A text that is not three fields in each of which a number begins. *)
Definition notThreeNumbers (s : jstring) : Prop :=
  length (timeFields s) <> 3 \/ Exists (fun f => beginsNumber f = false) (timeFields s).

(** What [parseMSFTime] and [parseHMSTime] accept: three fields, none empty,
    of each of which [parseInt] reads a number that is not negative and lies
    in the range of its position. *)
Definition readsFields (s : jstring) (x y z : Z) : Prop :=
  exists a b c,
    split COLON (trim s) = [a; b; c]
    /\ a <> [] /\ b <> [] /\ c <> []
    /\ parseInt a = Some x /\ parseInt b = Some y /\ parseInt c = Some z.

Definition msfAccepts (s : jstring) (t : MSFTime) : Prop :=
  readsFields s (minutes t) (seconds t) (frames t)
  /\ (0 <= minutes t)%Z /\ (0 <= seconds t < 60)%Z /\ (0 <= frames t < 75)%Z.

Definition hmsAccepts (s : jstring) (t : HMSTime) : Prop :=
  readsFields s (hour t) (minute t) (second t)
  /\ (0 <= hour t)%Z /\ (0 <= minute t < 60)%Z /\ (0 <= second t < 60)%Z.

(** An error message that carries the text [s]. *)
Definition carries (s m : jstring) : Prop := exists pre post, m = pre ++ s ++ post.

(** Two consecutive tracks on one file. *)
Definition twoTracksOneFile : CueSheet HMSTime :=
  mkSheet emptyGlobal
    [set_file (Some (mkFile (str "a.wav") (Some WAVE))) (newTrack 1 AUDIO);
     set_file (Some (mkFile (str "a.wav") (Some WAVE))) (newTrack 2 AUDIO)].

(** The text does not start with white space. *)
Definition headNonWs (s : jstring) : bool :=
  match s with
  | c :: _ => negb (isWhiteSpace c)
  | [] => true
  end.

(** The text holds no white space. *)
Definition noWs (s : jstring) : bool := forallb (fun c => negb (isWhiteSpace c)) s.

(** The text does not hold the character [c]. *)
Definition lacks (c : ascii) (s : jstring) : bool :=
  forallb (fun x => negb (Ascii.eqb x c)) s.

(** The two-digit rendering of a number, [n.toString().padStart(2, '0')]. *)
Definition num (n : Z) : jstring := padStart2 (toString n).

(** A character of the decimal rendering of an integer. *)
Definition isNumChar (c : ascii) : bool := isDigit c || Ascii.eqb c "-".

(** ** Valid values of a parsed document *)

Definition cmdLine (pre : jstring) (c : Command) (rest : jstring) : jstring :=
  pre ++ keyword c ++ SP :: rest.

Definition timeOK (t : MSFTime) : Prop :=
  (0 <= minutes t)%Z /\ (0 <= seconds t < 60)%Z /\ (0 <= frames t < 75)%Z.

Definition indexOK (i : TrackIndex MSFTime) : Prop :=
  (0 <= idx_number i <= 99)%Z /\ timeOK (idx_time i).

Definition textOK (s : jstring) : Prop := lacks LF s = true.

Definition optOK {A} (P : A -> Prop) (o : option A) : Prop :=
  match o with
  | Some a => P a
  | None => True
  end.

Record trackOK (t : Track MSFTime) : Prop := mkTrackOK {
  ok_number : (1 <= number t <= 99)%Z;
  ok_file : optOK (fun f => textOK (filename f)) (file t);
  ok_title : optOK textOK (title t);
  ok_performer : optOK textOK (performer t);
  ok_songwriter : optOK textOK (songwriter t);
  ok_composer : optOK textOK (composer t);
  ok_arranger : optOK textOK (arranger t);
  ok_message : optOK textOK (message t);
  ok_isrc : optOK textOK (isrc t);
  ok_indexes : optOK (Forall indexOK) (indexes t);
  ok_pregap : optOK timeOK (pregap t);
  ok_postgap : optOK timeOK (postgap t);
  ok_remarks : optOK (Forall textOK) (remarks t)
}.

Record globalOK (g : CueGlobal) : Prop := mkGlobalOK {
  ok_g_catalog : optOK (fun s => allDigits 13 s = true) (g_catalog g);
  ok_g_cdTextFile : optOK textOK (g_cdTextFile g);
  ok_g_title : optOK textOK (g_title g);
  ok_g_performer : optOK textOK (g_performer g);
  ok_g_songwriter : optOK textOK (g_songwriter g);
  ok_g_composer : optOK textOK (g_composer g);
  ok_g_arranger : optOK textOK (g_arranger g);
  ok_g_message : optOK textOK (g_message g);
  ok_g_discId : optOK textOK (g_discId g);
  ok_g_genre : optOK textOK (g_genre g);
  ok_g_upcEan : optOK textOK (g_upcEan g);
  ok_g_remarks : optOK (Forall textOK) (g_remarks g)
}.

Definition docOK (d : CueSheet MSFTime) : Prop :=
  globalOK (cs_global d) /\ Forall trackOK (cs_tracks d).

(** ** A serializer's document, as the parser reads it back

    The serializer reads a time as [{hour, minute, second}] and writes the
    three numbers in this order; the parser reads the three numbers back as
    [{minutes, seconds, frames}].  [rereadTime t] is the time object that the
    parser builds for the text written for [t]: the same three numbers, in the
    same order, under the field names of the parser.  [rereadSheet d] is the
    document [d] with every time replaced in this way; nothing else
    changes. *)
Definition rereadTime (t : HMSTime) : MSFTime :=
  mkTime (hour t) (minute t) (second t).

Definition rereadIndex (i : TrackIndex HMSTime) : TrackIndex MSFTime :=
  mkIndex (idx_number i) (rereadTime (idx_time i)).

Definition rereadTrack (t : Track HMSTime) : Track MSFTime :=
  mkTrack (number t) (mode t) (file t) (title t) (performer t) (songwriter t)
    (composer t) (arranger t) (message t) (isrc t) (flags t)
    (option_map (map rereadIndex) (indexes t))
    (option_map rereadTime (pregap t)) (option_map rereadTime (postgap t))
    (remarks t).

Definition rereadSheet (d : CueSheet HMSTime) : CueSheet MSFTime :=
  mkSheet (cs_global d) (map rereadTrack (cs_tracks d)).

(** A file name without double quote and without white space other than the
    space. *)
Definition plainName (s : jstring) : bool :=
  lacks DQ s && forallb (fun c => negb (isWhiteSpace c) || Ascii.eqb c SP) s.

Definition plainText (o : option jstring) : bool :=
  match o with
  | None => true
  | Some [] => false
  | Some s => lacks DQ s
  end.

Definition contentTail (t : Track HMSTime) : list jstring := tl (serializeTrackContent t).

(** The records that the parser holds are valid. *)
Definition stateOK (st : CueParser) : Prop :=
  globalOK (global st) /\ Forall trackOK (objs st).

Definition scenario1Doc : CueSheet MSFTime :=
  mkSheet (gset_title (Some (str "A")) emptyGlobal)
    [set_indexes (Some [mkIndex 1 (mkTime 0 2 33)]) (newTrack 1 AUDIO);
     set_indexes (Some [mkIndex 1 (mkTime 1 30 45)]) (newTrack 2 AUDIO)].

(** The same document as a caller hands it to the serializer: the times
    under the field names that the serializer reads. *)
Definition scenario1Input : CueSheet HMSTime :=
  mkSheet (gset_title (Some (str "A")) emptyGlobal)
    [set_indexes (Some [mkIndex 1 (mkHMS 0 2 33)]) (newTrack 1 AUDIO);
     set_indexes (Some [mkIndex 1 (mkHMS 1 30 45)]) (newTrack 2 AUDIO)].

Definition optFree (pat : jstring) (o : option jstring) : bool :=
  match o with
  | Some s => negb (includes pat s)
  | None => true
  end.

(** The texts that [createMinimalCueSheet] copies into its output: the
    global title and performer, and the title and the file name of each
    track. *)
Definition minimalTextsFree (pat : jstring) (d : CueSheet HMSTime) : bool :=
  optFree pat (g_title (cs_global d))
  && optFree pat (g_performer (cs_global d))
  && forallb (fun t => optFree pat (title t) && optFree pat (option_map filename (file t)))
       (cs_tracks d).

(** A track whose title is the word PREGAP. *)
Definition pregapTitleSheet : jstring :=
  lines [str "TRACK 01 AUDIO"; str "TITLE PREGAP"].

Definition pregapTitleDoc {T} : CueSheet T :=
  mkSheet emptyGlobal [set_title (Some (str "PREGAP")) (newTrack 1 AUDIO)].

(** The two patterns of the claim on the minimal sheet. *)
Definition isFieldPattern (pat : jstring) : Prop :=
  pat = str "PREGAP" \/ pat = str "INDEX 00".

(** The text ends with exactly one line feed. *)
Definition oneTrailingLF (out : jstring) : Prop :=
  exists body, out = body ++ [LF] /\ last body SP <> LF.

(** The text ends with two line feeds. *)
Definition twoTrailingLF (out : jstring) : Prop :=
  exists body, out = body ++ [LF; LF].

(** A line that is not empty and does not end with a line feed. *)
Definition properLine (l : jstring) : Prop := last l LF <> LF.

(** A text that does not end with a line feed. *)
Definition endsOK (s : jstring) : bool := negb (Ascii.eqb (last s SP) LF).

Definition optEndsOK (o : option jstring) : bool :=
  match o with
  | Some s => endsOK s
  | None => true
  end.

Definition listEndsOK (o : option (list jstring)) : bool :=
  match o with
  | Some l => forallb endsOK l
  | None => true
  end.

(** The texts that the serializer writes last on a line: remarks, catalog,
    ISRC and file names. *)
Definition trackEndsOK (t : Track HMSTime) : bool :=
  optEndsOK (isrc t) && optEndsOK (option_map filename (file t)) && listEndsOK (remarks t).

Definition docEndsOK (d : CueSheet HMSTime) : bool :=
  listEndsOK (g_remarks (cs_global d)) && optEndsOK (g_catalog (cs_global d))
  && forallb trackEndsOK (cs_tracks d).

(** A line that starts with two or three tabs followed by another
    character. *)
Definition tabbed (l : jstring) : Prop :=
  exists c b,
    Ascii.eqb c TAB = false /\ (l = tabs2 ++ c :: b \/ l = tabs3 ++ c :: b).

(** A sheet with a title and no track. *)
Definition titleOnlyDoc : CueSheet HMSTime :=
  mkSheet (gset_title (Some (str "x")) emptyGlobal) [].

(** ** More of the time utilities ([utils.ts]) *)

(** [formatHMSTime(time, zeroPad)] and [formatMSFTime(time, zeroPad)]; with
    [zeroPad] they pad each number to two digits. *)
Definition formatHMSTimePad (time : HMSTime) (zeroPad : bool) : jstring :=
  if zeroPad then formatHMSTime time
  else toString (hour time) ++ [COLON] ++ toString (minute time) ++ [COLON]
       ++ toString (second time).

Definition formatMSFTime (time : MSFTime) (zeroPad : bool) : jstring :=
  if zeroPad then
    padStart2 (toString (minutes time)) ++ [COLON]
    ++ padStart2 (toString (seconds time)) ++ [COLON]
    ++ padStart2 (toString (frames time))
  else toString (minutes time) ++ [COLON] ++ toString (seconds time) ++ [COLON]
       ++ toString (frames time).

(** [formatCueTime]: hours and minutes become minutes, the frames are 0. *)
Definition formatCueTime (time : HMSTime) : jstring :=
  let minutes := (hour time * 60 + minute time)%Z in
  let seconds := second time in
  let frames := 0%Z in
  padStart2 (toString minutes) ++ [COLON] ++ padStart2 (toString seconds) ++ [COLON]
  ++ padStart2 (toString frames).

(** The arithmetic on times.  The arguments are whole numbers; [Math.floor]
    of a quotient of whole numbers is [Z.div] and the remainder operator is
    [Z.rem]. *)
Definition hmsToSeconds (time : HMSTime) : Z :=
  (hour time * 3600 + minute time * 60 + second time)%Z.

Definition secondsToHMS (seconds : Z) : HMSTime :=
  let totalSeconds := seconds in
  let hours := (totalSeconds / 3600)%Z in
  let remainingSeconds := Z.rem totalSeconds 3600 in
  let mins := (remainingSeconds / 60)%Z in
  let secs := Z.rem remainingSeconds 60 in
  mkHMS hours mins secs.

Definition addHMSTime (time1 time2 : HMSTime) : HMSTime :=
  secondsToHMS (hmsToSeconds time1 + hmsToSeconds time2).

Definition subtractHMSTime (time1 time2 : HMSTime) : result HMSTime :=
  let seconds1 := hmsToSeconds time1 in
  let seconds2 := hmsToSeconds time2 in
  if (seconds1 <? seconds2)%Z then Err (str "Cannot subtract: result would be negative")
  else Ret (secondsToHMS (seconds1 - seconds2)).

Definition compareHMSTime (time1 time2 : HMSTime) : Z :=
  let seconds1 := hmsToSeconds time1 in
  let seconds2 := hmsToSeconds time2 in
  if (seconds1 <? seconds2)%Z then (-1)%Z
  else if (seconds2 <? seconds1)%Z then 1%Z
  else 0%Z.

Definition msfToFrames (time : MSFTime) : Z :=
  (minutes time * 60 * 75 + seconds time * 75 + frames time)%Z.

Definition framesToMSF (totalFrames : Z) : MSFTime :=
  let minutes := (totalFrames / (75 * 60))%Z in
  let remainingFrames := Z.rem totalFrames (75 * 60) in
  let seconds := (remainingFrames / 75)%Z in
  let frames := Z.rem remainingFrames 75 in
  mkTime minutes seconds frames.

Definition addMSFTime (time1 time2 : MSFTime) : MSFTime :=
  framesToMSF (msfToFrames time1 + msfToFrames time2).

Definition subtractMSFTime (time1 time2 : MSFTime) : result MSFTime :=
  let frames1 := msfToFrames time1 in
  let frames2 := msfToFrames time2 in
  if (frames1 <? frames2)%Z then Err (str "Cannot subtract: result would be negative")
  else Ret (framesToMSF (frames1 - frames2)).

Definition compareMSFTime (time1 time2 : MSFTime) : Z :=
  let frames1 := msfToFrames time1 in
  let frames2 := msfToFrames time2 in
  if (frames1 <? frames2)%Z then (-1)%Z
  else if (frames2 <? frames1)%Z then 1%Z
  else 0%Z.

(** A time of hours, minutes below 60 and seconds below 60. *)
Definition validHMS (t : HMSTime) : Prop :=
  (0 <= hour t)%Z /\ (0 <= minute t < 60)%Z /\ (0 <= second t < 60)%Z.

(** ** Notions used for further properties of the parser *)

(** The diagnostic [e] carries a line of [ls] and its 1-based number. *)
Definition located (ls : list jstring) (e : ParseError) : Prop :=
  1 <= e_line e /\ nth_error ls (e_line e - 1) = Some (e_rawLine e).

(** The line number of the diagnostic [e] is one of [ls]. *)
Definition inRange (ls : list jstring) (e : ParseError) : Prop :=
  1 <= e_line e <= length ls.

(** The lines that [parseLine] hands to [handleTrack]. *)
Definition isTrackLine (l : jstring) : bool :=
  match commandOf l with
  | Some TRACK => true
  | _ => false
  end.


(** The command of the line, if any, is not [c]. *)
Definition notCommand (c : Command) (l : jstring) : Prop :=
  commandOf l <> Some c.

(** The track has no file. *)
Definition fileless {T} (t : Track T) : Prop := file t = None.

(** The message of the warning for a FILE command outside a track. *)
Definition globalFileWarning : jstring :=
  str "Global FILE commands are not recommended. Each TRACK should have its own FILE.".

(** A sheet whose FILE line comes first, and the track that is read. *)
Definition fileFirstSheet : jstring :=
  lines [str "FILE a.wav WAVE"; str "TRACK 01 AUDIO"; str "INDEX 01 00:00:00"].

(** ** Notions used for further properties of the serializer *)

(** The lines that [serializeCueSheet] joins. *)
Definition sheetLines (c : CueSheet HMSTime) : list jstring :=
  serializeGlobal (cs_global c) ++ serializeTracksOptimized (cs_tracks c) None.

(** A FILE line that is not indented. *)
Definition startsFile (l : jstring) : bool := startsWith (str "FILE ") l.

(** The file names of the tracks that have a file, in order. *)
Definition fileNames (ts : list (Track HMSTime)) : list jstring :=
  flat_map (fun t => match file t with Some f => [filename f] | None => [] end) ts.

(** The number of runs of equal neighbours in a list of names. *)
Fixpoint countRuns (l : list jstring) : nat :=
  match l with
  | [] => 0
  | x :: r =>
      match r with
      | [] => 1
      | y :: _ => if jeqb x y then countRuns r else S (countRuns r)
      end
  end.

(** Index entries in ascending order of their numbers. *)
Definition ascendingIndexes {T} (l : list (TrackIndex T)) : Prop :=
  StronglySorted (fun a b => (idx_number a <= idx_number b)%Z) l.

(** The entries of [l] with the number [k], in their order. *)
Definition withNumber {T} (k : Z) (l : list (TrackIndex T)) : list (TrackIndex T) :=
  filter (fun i => (idx_number i =? k)%Z) l.

(** The index entries of a track; none when the field is absent. *)
Definition indexList {T} (t : Track T) : list (TrackIndex T) :=
  match indexes t with
  | Some l => l
  | None => []
  end.

(** A line of a track that holds an INDEX command, as the serializer writes
    it. *)
Definition isIndexLine (l : jstring) : bool := startsWith (tabs3 ++ str "INDEX ") l.

(** ** Notions used by the exact round trip *)

(** The lines [ls], read inside a track, change the open track by [f] and
    nothing else but the warnings; no error is recorded. *)
Definition trackSteps (ls : list jstring) (f : Track MSFTime -> Track MSFTime) : Prop :=
  forall i o c g w,
    exists w', parseLines ls i (inTrack o c g w) = inTrack o (f c) g w'.

(** The lines [ls], read before the first track, change the global record
    by [f] and nothing else but the warnings. *)
Definition globalSteps (ls : list jstring) (f : CueGlobal -> CueGlobal) : Prop :=
  forall i g w, exists w', parseLines ls i (atTop g w) = atTop (f g) w'.

(** The lines of [serializeTrackContent] with the indentation as a
    parameter: [p2] before TRACK and [p3] before the other commands.
    [serializeTrackContent] has two and three tabs; [formatCueSheet]
    replaces them by two and three units of its indentation. *)
Definition trackLineAt (p2 : jstring) (t : Track HMSTime) : jstring :=
  p2 ++ str "TRACK " ++ padStart2 (toString (number t)) ++ [SP] ++ modeName (mode t).

Definition indexLineAt (p3 : jstring) (i : TrackIndex HMSTime) : jstring :=
  p3 ++ str "INDEX " ++ padStart2 (toString (idx_number i)) ++ [SP]
  ++ formatHMSTime (idx_time i).

Definition flagsLineAt (p3 : jstring) (fl : list TrackFlag) : list jstring :=
  match fl with
  | [] => []
  | _ :: _ => [p3 ++ str "FLAGS " ++ join [SP] (map flagName fl)]
  end.

Definition contentAt (p3 : jstring) (t : Track HMSTime) : list jstring :=
  whenText (title t) (textLine p3 "TITLE")
  ++ whenText (performer t) (textLine p3 "PERFORMER")
  ++ whenText (songwriter t) (textLine p3 "SONGWRITER")
  ++ whenText (composer t) (textLine p3 "COMPOSER")
  ++ whenText (arranger t) (textLine p3 "ARRANGER")
  ++ whenText (message t) (textLine p3 "MESSAGE")
  ++ whenText (isrc t) (fun v => p3 ++ str "ISRC " ++ v)
  ++ whenSome (file t) (fun f => [fileLine p3 f])
  ++ whenSome (flags t) (flagsLineAt p3)
  ++ whenSome (pregap t) (fun p => [p3 ++ str "PREGAP " ++ formatHMSTime p])
  ++ whenSome (indexes t) (fun l => map (indexLineAt p3) (sortIndexes l))
  ++ whenSome (postgap t) (fun p => [p3 ++ str "POSTGAP " ++ formatHMSTime p])
  ++ remarkLines p3 (remarks t).

Definition trackContentAt (p2 p3 : jstring) (t : Track HMSTime) : list jstring :=
  trackLineAt p2 t :: contentAt p3 t.

(** The text after the file name on a FILE line. *)
Definition formatSuffix (fmt : option FileFormat) : jstring :=
  match fmt with
  | Some f => SP :: formatName f
  | None => []
  end.

(** A list field that is absent or not empty. *)
Definition someItems {A} (P : A -> Prop) (o : option (list A)) : Prop :=
  optOK (fun l => l <> [] /\ Forall P l) o.

(** A text that is equal to its trimmed form. *)
Definition trimmed (s : jstring) : Prop := trim s = s.

(** A track that the serializer writes and the parser reads back as it is:
    its values are in range (read back, the track is valid: of each time
    the first number is not negative, the second is below 60 and the third
    is below 75); its quoted texts are not empty and hold no
    double quote; its ISRC is not empty and trimmed; its file name is not
    empty and holds no double quote, no slash and no white space but the
    space; its lists are not empty; its indexes are in ascending order; its
    remarks are trimmed. *)
Record canonicalTrack (t : Track HMSTime) : Prop := mkCanonicalTrack {
  ct_ok : trackOK (rereadTrack t);
  ct_title : plainText (title t) = true;
  ct_performer : plainText (performer t) = true;
  ct_songwriter : plainText (songwriter t) = true;
  ct_composer : plainText (composer t) = true;
  ct_arranger : plainText (arranger t) = true;
  ct_message : plainText (message t) = true;
  ct_isrc : optOK (fun s => s <> [] /\ trimmed s) (isrc t);
  ct_file : optOK (fun f => filename f <> [] /\ plainName (filename f) = true
                            /\ lacks SLASH (filename f) = true) (file t);
  ct_flags : flags t <> Some [];
  ct_indexes : optOK (fun l => l <> [] /\ ascendingIndexes l) (indexes t);
  ct_remarks : someItems trimmed (remarks t)
}.

Record canonicalGlobal (g : CueGlobal) : Prop := mkCanonicalGlobal {
  cg_ok : globalOK g;
  cg_cdTextFile : optOK (fun s => s <> []) (g_cdTextFile g);
  cg_title : plainText (g_title g) = true;
  cg_performer : plainText (g_performer g) = true;
  cg_songwriter : plainText (g_songwriter g) = true;
  cg_composer : plainText (g_composer g) = true;
  cg_arranger : plainText (g_arranger g) = true;
  cg_message : plainText (g_message g) = true;
  cg_discId : plainText (g_discId g) = true;
  cg_genre : plainText (g_genre g) = true;
  cg_upcEan : plainText (g_upcEan g) = true;
  cg_remarks : someItems trimmed (g_remarks g)
}.

Definition canonical (d : CueSheet HMSTime) : Prop :=
  canonicalGlobal (cs_global d) /\ Forall canonicalTrack (cs_tracks d).

(** The tracks after the first that have a file have the file name of the
    first. *)
Definition oneFileName (ts : list (Track HMSTime)) : Prop :=
  match ts with
  | [] => True
  | t :: rest =>
      Forall (fun t' =>
                optOK (fun f' => exists f, file t = Some f /\ filename f' = filename f)
                  (file t')) rest
  end.

(** [track.f = v] when the sheet has the line of [v], nothing otherwise. *)
Definition putOpt {A R} (set : option A -> R -> R) (o : option A) (r : R) : R :=
  match o with
  | Some v => set (Some v) r
  | None => r
  end.

(** The FILE line that [serializeTracksOptimized] writes before the first
    of the tracks [ts], if any. *)
Definition headFile (ts : list (Track HMSTime)) (lastFile : option jstring)
  : option FileInfo :=
  match ts with
  | t :: _ => fileChanged t lastFile
  | [] => None
  end.

Definition lastFileAfter (t : Track HMSTime) (lastFile : option jstring) : option jstring :=
  match fileChanged t lastFile with
  | Some f => Some (filename f)
  | None => lastFile
  end.

(** The tracks as they are read back: the FILE line written before a track
    is read while the track before it is still open, and replaces its
    file. *)
Fixpoint readBackFiles (ts : list (Track HMSTime)) (lastFile : option jstring)
  : list (Track HMSTime) :=
  match ts with
  | [] => []
  | t :: rest =>
      putOpt set_file (headFile rest (lastFileAfter t lastFile)) t
      :: readBackFiles rest (lastFileAfter t lastFile)
  end.

(** The value of a field after a line that sets it, if the sheet has one. *)
Definition orElse {A} (o : option A) (old : option A) : option A :=
  match o with
  | Some v => Some v
  | None => old
  end.

(** [l.push(x)] for every [x] of [xs], on a list that may be absent. *)
Definition pushAll {A} (o : option (list A)) (xs : list A) : option (list A) :=
  match xs with
  | [] => o
  | _ :: _ => Some (match o with Some l => l | None => [] end ++ xs)
  end.

Definition pushAllOpt {A} (new : option (list A)) (o : option (list A)) : option (list A) :=
  match new with
  | Some xs => pushAll o xs
  | None => o
  end.

(** The open track [c] after the lines of the content of [t]. *)
Definition readInto (t : Track HMSTime) (c : Track MSFTime) : Track MSFTime :=
  let c := set_title (orElse (title t) (title c)) c in
  let c := set_performer (orElse (performer t) (performer c)) c in
  let c := set_songwriter (orElse (songwriter t) (songwriter c)) c in
  let c := set_composer (orElse (composer t) (composer c)) c in
  let c := set_arranger (orElse (arranger t) (arranger c)) c in
  let c := set_message (orElse (message t) (message c)) c in
  let c := set_isrc (orElse (isrc t) (isrc c)) c in
  let c := set_file (orElse (file t) (file c)) c in
  let c := set_flags (orElse (flags t) (flags c)) c in
  let c := set_pregap (orElse (option_map rereadTime (pregap t)) (pregap c)) c in
  let c := set_indexes (pushAllOpt (option_map (map rereadIndex) (indexes t)) (indexes c)) c in
  let c := set_postgap (orElse (option_map rereadTime (postgap t)) (postgap c)) c in
  set_remarks (pushAllOpt (remarks t) (remarks c)) c.

(** The global record [g] after the lines of the global record [g0]. *)
Definition readGlobalInto (g0 g : CueGlobal) : CueGlobal :=
  let g := gset_remarks (pushAllOpt (g_remarks g0) (g_remarks g)) g in
  let g := gset_catalog (orElse (g_catalog g0) (g_catalog g)) g in
  let g := gset_cdTextFile (orElse (g_cdTextFile g0) (g_cdTextFile g)) g in
  let g := gset_title (orElse (g_title g0) (g_title g)) g in
  let g := gset_performer (orElse (g_performer g0) (g_performer g)) g in
  let g := gset_songwriter (orElse (g_songwriter g0) (g_songwriter g)) g in
  let g := gset_composer (orElse (g_composer g0) (g_composer g)) g in
  let g := gset_arranger (orElse (g_arranger g0) (g_arranger g)) g in
  let g := gset_message (orElse (g_message g0) (g_message g)) g in
  let g := gset_discId (orElse (g_discId g0) (g_discId g)) g in
  let g := gset_genre (orElse (g_genre g0) (g_genre g)) g in
  gset_upcEan (orElse (g_upcEan g0) (g_upcEan g)) g.

(** The lines of [serializeTracksOptimized] after the FILE line of the
    first track: the content of each track, followed by the FILE line that
    is written before the next track. *)
Definition optFileLine (o : option FileInfo) : list jstring :=
  whenSome o (fun f => [fileLine [] f]).

Fixpoint blocks (ts : list (Track HMSTime)) (lastFile : option jstring) : list jstring :=
  match ts with
  | [] => []
  | t :: rest =>
      serializeTrackContent t
      ++ optFileLine (headFile rest (lastFileAfter t lastFile))
      ++ blocks rest (lastFileAfter t lastFile)
  end.

(** An indentation of white space without line feed. *)
Definition blankIndent (ind : jstring) : bool :=
  forallb isWhiteSpace ind && lacks LF ind.

(** A canonical sheet with two tracks on one file, and a sheet whose two
    tracks have different files. *)
Definition albumFile : FileInfo := mkFile (str "my album.wav") (Some WAVE).

Definition albumTrack1 : Track HMSTime :=
  mkTrack 1 AUDIO (Some albumFile) (Some (str "Intro")) (Some (str "The Band")) None None
    None None (Some (str "USRC17607839")) (Some [DCP; PRE]) (Some [mkIndex 1 (mkHMS 0 0 0)])
    None None (Some [str "first take"]).

Definition albumTrack2 : Track HMSTime :=
  mkTrack 2 AUDIO (Some albumFile) (Some (str "Song")) None (Some (str "A. Writer")) None
    None None None None (Some [mkIndex 0 (mkHMS 3 58 20); mkIndex 1 (mkHMS 4 0 0)])
    (Some (mkHMS 0 2 0)) (Some (mkHMS 0 1 0)) None.

Definition albumGlobal : CueGlobal :=
  mkGlobal (Some (str "1234567890123")) (Some (str "album.cdt")) (Some (str "The Album"))
    (Some (str "The Band")) None None None None (Some (str "860B640B")) (Some (str "Rock"))
    None (Some [str "DATE 1999"; str "COMMENT ripped"]).

Definition albumDoc : CueSheet HMSTime := mkSheet albumGlobal [albumTrack1; albumTrack2].

Definition sideA : FileInfo := mkFile (str "a.wav") (Some WAVE).
Definition sideB : FileInfo := mkFile (str "b.wav") (Some WAVE).

Definition twoFilesDoc : CueSheet HMSTime :=
  mkSheet emptyGlobal
    [set_file (Some sideA) (newTrack 1 AUDIO); set_file (Some sideB) (newTrack 2 AUDIO)].

(** * Properties *)

(** ** Sample evaluations and the scenarios of the test-suite *)

Example split_lines_ex :
  split LF (str "a" ++ [LF] ++ str "b" ++ [LF]) = [str "a"; str "b"; []].
Proof. reflexivity. Qed.

Example splitWs_ex :
  splitWs (str "01  AUDIO") = [str "01"; str "AUDIO"].
Proof. reflexivity. Qed.

Example parseInt_ex :
  parseInt (str " -12ab") = Some (-12)%Z /\ parseInt (str "x1") = None
  /\ parseInt (str "007") = Some 7%Z.
Proof. repeat split; reflexivity. Qed.

Example toString_ex :
  padStart2 (toString 7) = str "07" /\ toString 1234 = str "1234"
  /\ toString (-5) = str "-5" /\ padStart2 (toString 0) = str "00".
Proof. repeat split; vm_compute; reflexivity. Qed.

Example toUpperCase_ex :
  toUpperCase (str "Mode1/2048") = str "MODE1/2048".
Proof. reflexivity. Qed.

Example parseMSFTime_ex :
  parseMSFTime (str "01:30:45") = Ret (mkTime 1 30 45)
  /\ formatHMSTime (mkHMS 1 30 45) = str "01:30:45".
Proof. split; vm_compute; reflexivity. Qed.

Example scenario1_parses :
  parseCueSheet scenario1 =
  mkResult
    (Some (mkSheet (gset_title (Some (str "A")) emptyGlobal)
             [set_indexes (Some [mkIndex 1 (mkTime 0 2 33)]) (newTrack 1 AUDIO);
              set_indexes (Some [mkIndex 1 (mkTime 1 30 45)]) (newTrack 2 AUDIO)]))
    [] [].
Proof. vm_compute. reflexivity. Qed.

Example scenario_catalog :
  cueSheet (parseCueSheet (str "CATALOG 123")) = None
  /\ map e_message (r_errors (parseCueSheet (str "CATALOG 123")))
     = [str "CATALOG must be exactly 13 digits, got: 123"].
Proof. split; vm_compute; reflexivity. Qed.

Example scenario_index_outside :
  cueSheet (parseCueSheet (str "INDEX 01 00:00:00")) = None
  /\ map e_message (r_errors (parseCueSheet (str "INDEX 01 00:00:00")))
     = [str "INDEX command must be inside a TRACK"].
Proof. split; vm_compute; reflexivity. Qed.

Example scenario_escape :
  serializeCueSheet
    (mkSheet (gset_title (Some (str "He said " ++ quoted (str "hi"))) emptyGlobal) [])
  = str "TITLE " ++ quoted (str "He said " ++ [DQ; DQ] ++ str "hi" ++ [DQ; DQ]) ++ [LF].
Proof. vm_compute. reflexivity. Qed.

Example scenario_empty : serializeCueSheet (mkSheet emptyGlobal []) = [LF].
Proof. reflexivity. Qed.

(** ** The state of the parser while no error has been recorded *)
Lemma updateAt_last (o : list (Track MSFTime)) c f :
  updateAt (length o) f (o ++ [c]) = o ++ [f c].
Proof. induction o as [|x o IH]; simpl; [reflexivity | now rewrite IH]. Qed.

Lemma updTrack_inTrack o c g w f :
  updTrack (length o) f (inTrack o c g w) = inTrack o (f c) g w.
Proof. unfold updTrack, inTrack; simpl. now rewrite updateAt_last. Qed.

Lemma updGlobal_inTrack o c g w f :
  updGlobal f (inTrack o c g w) = inTrack o c (f g) w.
Proof. reflexivity. Qed.

Lemma pushWarning_inTrack o c g w e :
  pushWarning e (inTrack o c g w) = inTrack o c g (w ++ [e]).
Proof. reflexivity. Qed.

Lemma openTrack_inTrack o c g w t :
  openTrack t (pushTrack (length o) (inTrack o c g w)) = inTrack (o ++ [c]) t g w.
Proof.
  unfold openTrack, pushTrack, inTrack; simpl.
  rewrite !length_app; simpl. rewrite Nat.add_1_r, seq_S. reflexivity.
Qed.

Lemma openTrack_atTop g w t : openTrack t (atTop g w) = inTrack [] t g w.
Proof. reflexivity. Qed.

Ltac case_match :=
  match goal with
  | |- context [match ?x with _ => _ end] => destruct x eqn:?
  | H : context [match ?x with _ => _ end] |- _ => destruct x eqn:?
  end.

Ltac unfold_handlers :=
  unfold handler, handleRemark, handleCatalog, handleCdTextFile, handleFile,
    handleTrack, handleIndex, handlePregap, handlePostgap, handleFlags, handleIsrc,
    handleTitle, handlePerformer, handleSongwriter, handleComposer, handleArranger,
    handleMessage, handleDiscId, handleGenre, handleUpcEan, setText in *.

(** No handler touches the list of errors: only the [catch] of [parse]
    does. *)
Lemma handler_errors c args n st :
  errors (outState (handler c args n st)) = errors st.
Proof.
  destruct c; unfold_handlers; repeat case_match; reflexivity.
Qed.

Lemma parseLine_errors l n st : errors (outState (parseLine l n st)) = errors st.
Proof.
  unfold parseLine.
  destruct (isEmpty (trim l)); [reflexivity|].
  destruct (parseCommand (trim l)) as [command args].
  destruct (isEmpty command); [reflexivity|].
  destruct (lookupName keyword commands (toUpperCase command)); [|reflexivity].
  apply handler_errors.
Qed.

Lemma step_errors_grow l n st :
  exists es, errors (step l n st) = errors st ++ es.
Proof.
  unfold step. pose proof (parseLine_errors l n st) as E.
  destruct (parseLine l n st); simpl in *.
  - exists []. now rewrite app_nil_r.
  - eexists. rewrite E. reflexivity.
Qed.

Lemma parseLines_errors_grow ls : forall i st,
  exists es, errors (parseLines ls i st) = errors st ++ es.
Proof.
  induction ls as [|l ls IH]; intros i st; simpl.
  - exists []. now rewrite app_nil_r.
  - destruct (IH (S i) (step l (i + 1) st)) as [es1 E1].
    destruct (step_errors_grow l (i + 1) st) as [es2 E2].
    exists (es2 ++ es1). now rewrite E1, E2, app_assoc.
Qed.

(** A handler that returns normally from a shaped state leaves a shaped
    state. *)
Lemma handler_shaped c args n st st' :
  shaped st -> handler c args n st = Ok st' -> shaped st'.
Proof.
  intros Hs H. destruct Hs as [g w | o t g w].
  - destruct c; unfold_handlers; cbn [currentTrack atTop] in H;
      repeat case_match; try discriminate; inversion H; subst;
      try (rewrite openTrack_atTop; apply shaped_track);
      try apply shaped_top.
    all: apply (shaped_top _ (w ++ [_])).
  - destruct c; unfold_handlers; cbn [currentTrack inTrack] in H;
      repeat case_match; try discriminate; inversion H; subst;
      rewrite ?pushWarning_inTrack, ?updTrack_inTrack, ?updGlobal_inTrack,
        ?openTrack_inTrack; apply shaped_track.
Qed.

Lemma parseLine_shaped l n st st' :
  shaped st -> parseLine l n st = Ok st' -> shaped st'.
Proof.
  intros Hs H. unfold parseLine in H.
  destruct (isEmpty (trim l)); [inversion H; subst; exact Hs|].
  destruct (parseCommand (trim l)) as [command args].
  destruct (isEmpty command); [inversion H; subst; exact Hs|].
  destruct (lookupName keyword commands (toUpperCase command)).
  - eapply handler_shaped; eauto.
  - inversion H; subst. destruct Hs; [apply (shaped_top _ (w ++ [_])) | apply shaped_track].
Qed.

Lemma step_shaped l n st :
  shaped st -> errors (step l n st) = [] -> shaped (step l n st).
Proof.
  intros Hs He. unfold step in *. destruct (parseLine l n st) eqn:E.
  - eapply parseLine_shaped; eauto.
  - simpl in He. destruct (errors st0); discriminate.
Qed.

Lemma parseLines_shaped ls : forall i st,
  shaped st -> errors (parseLines ls i st) = [] -> shaped (parseLines ls i st).
Proof.
  induction ls as [|l ls IH]; intros i st Hs He; simpl in *; [exact Hs|].
  apply IH; [|exact He].
  apply step_shaped; [exact Hs|].
  destruct (parseLines_errors_grow ls (S i) (step l (i + 1) st)) as [es E].
  rewrite E in He. now apply app_eq_nil in He.
Qed.

Lemma deref_app store a b : deref store (a ++ b) = deref store a ++ deref store b.
Proof. unfold deref. apply flat_map_app. Qed.

Lemma deref_seq_prefix (o : list (Track MSFTime)) : forall rest,
  deref (o ++ rest) (seq 0 (length o)) = o.
Proof.
  induction o as [|x o IH] using rev_ind; intros rest; [reflexivity|].
  rewrite length_app; simpl. rewrite Nat.add_1_r, seq_S, deref_app; simpl.
  rewrite <- app_assoc. rewrite IH. f_equal.
  rewrite nth_error_app2 by lia. rewrite Nat.sub_diag. reflexivity.
Qed.

Lemma deref_seq_all (o : list (Track MSFTime)) : deref o (seq 0 (length o)) = o.
Proof. rewrite <- (app_nil_r o) at 1. apply deref_seq_prefix. Qed.


(** ** The result of [parse] *)

(** C2: the result of [parse] carries a document exactly when its list of
    errors is empty, whatever the instance and the input; warnings do not
    count, and there are inputs whose result has a warning and a document. *)
Theorem parse_document_iff_no_errors :
  (forall this content,
     let r := snd (parse this content) in
     (exists d, cueSheet r = Some d) <-> r_errors r = [])
  /\ (exists content,
        r_warnings (parseCueSheet content) <> []
        /\ cueSheet (parseCueSheet content) <> None).
Proof.
  split.
  - intros this content r. subst r. unfold parse, makeResult; simpl.
    destruct (errors (run content this)) as [|e es]; split.
    + reflexivity.
    + intros _. eexists. reflexivity.
    + intros [d Hd]. discriminate.
    + discriminate.
  - exists (str "FILE a.wav WAVE"). split; vm_compute; discriminate.
Qed.

(** C9: the result of [parse] and the state it leaves do not depend on the
    state the instance was in: a reused instance returns what a new one
    returns, so two calls on the same text return equal results. *)
Theorem parse_ignores_instance_state :
  forall this1 this2 content,
    parse this1 content = parse this2 content
    /\ snd (parse this1 content) = parseCueSheet content
    /\ (forall other,
          snd (parse (fst (parse this1 other)) content) = snd (parse this1 content)).
Proof.
  intros this1 this2 content. repeat split.
Qed.

(** ** Committing tracks *)




(** ** Track-only commands outside a track *)

Lemma parseLine_commandOf l n st c :
  commandOf l = Some c ->
  exists args, parseLine l n st = handler c args n st.
Proof.
  unfold commandOf, parseLine.
  destruct (isEmpty (trim l)); [discriminate|].
  destruct (parseCommand (trim l)) as [command args].
  destruct (isEmpty command); [discriminate|].
  intros ->. exists args. reflexivity.
Qed.

(** C6: while no track is open, a line whose command is INDEX, PREGAP,
    POSTGAP, FLAGS or ISRC adds one error, which carries the number and the
    text of the line, to the list of errors, adds no warning, and leaves the
    global record, the track list and the track objects as they were. *)
Theorem track_only_command_outside_track :
  forall l n st c,
    currentTrack st = None ->
    commandOf l = Some c ->
    trackOnly c = true ->
    exists m,
      step l n st = pushError (mkError n m l) st
      /\ errors (step l n st) = errors st ++ [mkError n m l]
      /\ warnings (step l n st) = warnings st
      /\ global (step l n st) = global st
      /\ tracks (step l n st) = tracks st
      /\ objs (step l n st) = objs st
      /\ currentTrack (step l n st) = None.
Proof.
  intros l n st c Hcur Hc Ht.
  destruct (parseLine_commandOf l n st c Hc) as [args E].
  unfold step. rewrite E.
  destruct c; try discriminate; unfold_handlers; rewrite Hcur;
    eexists; repeat split; simpl; auto.
Qed.

Lemma track_only_command_outside_track_witness :
  exists m,
    step (str "  index 01 00:00:00") 3 newCueParser
    = pushError (mkError 3 m (str "  index 01 00:00:00")) newCueParser.
Proof.
  destruct (track_only_command_outside_track (str "  index 01 00:00:00") 3
              newCueParser INDEX) as [m [H _]];
    [reflexivity | reflexivity | reflexivity |].
  exists m. exact H.
Defined.

(** A TRACK command that throws has already appended the open track, which
    stays open: the end of [parse] appends it again.  The result then has an
    error and no document. *)
Example failed_track_commits_twice :
  let st := run (lines [str "TRACK 01 AUDIO"; str "TRACK 02"]) newCueParser in
  tracks st = [0; 0] /\ length (errors st) = 1.
Proof. split; vm_compute; reflexivity. Qed.


(** ** Quoted text *)

(** C5: the quoted argument whose text is He said, a doubled quote, hi, a
    doubled quote: the parser strips the outer quotes and keeps the doubled
    quotes, where the web library's [parseQuotedString] turns each doubled
    quote into one; the serializer's escaping of that title is the argument
    the parser was given. *)
Theorem parseQuotedString_keeps_doubled_quotes :
  let arg := quoted (str "He said " ++ [DQ; DQ] ++ str "hi" ++ [DQ; DQ]) in
  parseQuotedString arg = str "He said " ++ [DQ; DQ] ++ str "hi" ++ [DQ; DQ]
  /\ webParseQuotedString arg = str "He said " ++ quoted (str "hi")
  /\ quoted (escapeString (str "He said " ++ quoted (str "hi"))) = arg
  /\ g_title (global (run (str "TITLE " ++ arg) newCueParser))
     = Some (str "He said " ++ [DQ; DQ] ++ str "hi" ++ [DQ; DQ]).
Proof. repeat split; vm_compute; reflexivity. Qed.

(** ** FILE lines *)

(** C4: two consecutive tracks that share the file a.wav: the serialized
    sheet has three FILE lines, one before the first track and one inside
    each track. *)
Theorem shared_file_emitted_three_times :
  fileLineCount (serializeCueSheet twoTracksOneFile) = 3
  /\ split LF (serializeCueSheet twoTracksOneFile)
     = [str "FILE a.wav WAVE";
        tabs2 ++ str "TRACK 01 AUDIO"; tabs3 ++ str "FILE a.wav WAVE";
        tabs2 ++ str "TRACK 02 AUDIO"; tabs3 ++ str "FILE a.wav WAVE"; []].
Proof. split; vm_compute; reflexivity. Qed.

(** ** Time parsing *)

Lemma isEmpty_false (s : jstring) : isEmpty s = false <-> s <> [].
Proof. destruct s; simpl; split; congruence. Qed.

Lemma carries_msfError s tail : carries s (msfError s tail).
Proof.
  exists (str "Invalid MSF time format: " ++ [DQ]), (DQ :: tail).
  unfold msfError, quoted. simpl. rewrite <- app_assoc. reflexivity.
Qed.

Lemma carries_hmsError s tail : carries s (hmsError s tail).
Proof.
  exists (str "Invalid time format: " ++ [DQ]), (DQ :: tail).
  unfold hmsError, quoted. simpl. rewrite <- app_assoc. reflexivity.
Qed.

Lemma parseMSFTime_Err s m : parseMSFTime s = Err m -> carries s m.
Proof.
  unfold parseMSFTime. intros H.
  repeat case_match; try discriminate; inversion H; apply carries_msfError.
Qed.

Lemma parseHMSTime_Err s m : parseHMSTime s = Err m -> carries s m.
Proof.
  unfold parseHMSTime. intros H.
  repeat case_match; try discriminate; inversion H; apply carries_hmsError.
Qed.

Ltac bool_to_Z :=
  repeat match goal with
  | H : (_ || _)%bool = false |- _ => apply orb_false_iff in H; destruct H
  | H : (_ <? _)%Z = false |- _ => apply Z.ltb_ge in H
  | H : (_ <=? _)%Z = false |- _ => apply Z.leb_gt in H
  | H : isEmpty _ = false |- _ => apply isEmpty_false in H
  end.

Lemma parseMSFTime_Ret s t : parseMSFTime s = Ret t <-> msfAccepts s t.
Proof.
  unfold parseMSFTime, msfAccepts, readsFields. split.
  - intros H.
    destruct (split COLON (trim s)) as [|a [|b [|c [|d l]]]]; try discriminate.
    destruct (isEmpty a || isEmpty b || isEmpty c) eqn:E1; [discriminate|].
    destruct (parseInt a) as [x|] eqn:Hx; [|discriminate].
    destruct (parseInt b) as [y|] eqn:Hy; [|discriminate].
    destruct (parseInt c) as [z|] eqn:Hz; [|discriminate].
    destruct ((x <? 0) || (y <? 0) || (z <? 0))%Z eqn:E2; [discriminate|].
    destruct (60 <=? y)%Z eqn:E3; [discriminate|].
    destruct (75 <=? z)%Z eqn:E4; [discriminate|].
    inversion H; subst; simpl. bool_to_Z.
    split; [exists a, b, c; repeat split; assumption | lia].
  - intros [[a [b [c [Hs [Ha [Hb [Hc [Hx [Hy Hz]]]]]]]]] [H1 [H2 H3]]].
    rewrite Hs.
    apply isEmpty_false in Ha, Hb, Hc. rewrite Ha, Hb, Hc; simpl.
    rewrite Hx, Hy, Hz.
    replace (minutes t <? 0)%Z with false by (symmetry; apply Z.ltb_ge; lia).
    replace (seconds t <? 0)%Z with false by (symmetry; apply Z.ltb_ge; lia).
    replace (frames t <? 0)%Z with false by (symmetry; apply Z.ltb_ge; lia).
    replace (60 <=? seconds t)%Z with false by (symmetry; apply Z.leb_gt; lia).
    replace (75 <=? frames t)%Z with false by (symmetry; apply Z.leb_gt; lia).
    simpl. destruct t; reflexivity.
Qed.

Lemma parseHMSTime_Ret s t : parseHMSTime s = Ret t <-> hmsAccepts s t.
Proof.
  unfold parseHMSTime, hmsAccepts, readsFields. split.
  - intros H.
    destruct (split COLON (trim s)) as [|a [|b [|c [|d l]]]]; try discriminate.
    destruct (isEmpty a || isEmpty b || isEmpty c) eqn:E1; [discriminate|].
    destruct (parseInt a) as [x|] eqn:Hx; [|discriminate].
    destruct (parseInt b) as [y|] eqn:Hy; [|discriminate].
    destruct (parseInt c) as [z|] eqn:Hz; [|discriminate].
    destruct ((x <? 0) || (y <? 0) || (z <? 0))%Z eqn:E2; [discriminate|].
    destruct (60 <=? y)%Z eqn:E3; [discriminate|].
    destruct (60 <=? z)%Z eqn:E4; [discriminate|].
    inversion H; subst; simpl. bool_to_Z.
    split; [exists a, b, c; repeat split; assumption | lia].
  - intros [[a [b [c [Hs [Ha [Hb [Hc [Hx [Hy Hz]]]]]]]]] [H1 [H2 H3]]].
    rewrite Hs.
    apply isEmpty_false in Ha, Hb, Hc. rewrite Ha, Hb, Hc; simpl.
    rewrite Hx, Hy, Hz.
    replace (hour t <? 0)%Z with false by (symmetry; apply Z.ltb_ge; lia).
    replace (minute t <? 0)%Z with false by (symmetry; apply Z.ltb_ge; lia).
    replace (second t <? 0)%Z with false by (symmetry; apply Z.ltb_ge; lia).
    replace (60 <=? minute t)%Z with false by (symmetry; apply Z.leb_gt; lia).
    replace (60 <=? second t)%Z with false by (symmetry; apply Z.leb_gt; lia).
    simpl. destruct t; reflexivity.
Qed.

(** ** Trimming *)

Lemma dropWhile_app_all p a b :
  forallb p a = true -> dropWhile p (a ++ b) = dropWhile p b.
Proof.
  induction a as [|x a IH]; simpl; [reflexivity|].
  intros H. apply andb_true_iff in H. destruct H as [Hx Ha].
  rewrite Hx. auto.
Qed.

Lemma trimEnd_nil_iff s : trimEnd s = [] <-> forallb isWhiteSpace s = true.
Proof.
  induction s as [|c s IH]; simpl; [tauto|].
  destruct (trimEnd s) as [|r rs] eqn:E.
  - destruct (isWhiteSpace c); simpl; split; try discriminate; try tauto.
  - split; [discriminate|]. intros H. apply andb_true_iff in H.
    destruct H as [_ H]. apply IH in H. discriminate.
Qed.

Lemma trimEnd_app a b :
  trimEnd (a ++ b) = match trimEnd b with [] => trimEnd a | r => a ++ r end.
Proof.
  induction a as [|x a IH]; simpl.
  - destruct (trimEnd b); reflexivity.
  - rewrite IH. destruct (trimEnd b) as [|r rs] eqn:E; [reflexivity|].
    destruct a; reflexivity.
Qed.

Lemma trimEnd_id s : isWhiteSpace (last s "x"%char) = false -> trimEnd s = s.
Proof.
  induction s as [|c s IH]; [reflexivity|].
  destruct s as [|d s].
  - simpl. intros ->. reflexivity.
  - intros H. change (last (c :: d :: s) "x"%char) with (last (d :: s) "x"%char) in H.
    specialize (IH H). change (trimEnd (c :: d :: s)) with
      (match trimEnd (d :: s) with [] => if isWhiteSpace c then [] else [c] | r => c :: r end).
    rewrite IH. reflexivity.
Qed.

Lemma trimEnd_idem s : trimEnd (trimEnd s) = trimEnd s.
Proof.
  induction s as [|c s IH]; [reflexivity|]. simpl.
  destruct (trimEnd s) as [|r rs] eqn:E.
  - destruct (isWhiteSpace c) eqn:W; simpl; [reflexivity | now rewrite W].
  - change (trimEnd (c :: r :: rs)) with
      (match trimEnd (r :: rs) with [] => if isWhiteSpace c then [] else [c] | x => c :: x end).
    rewrite IH. reflexivity.
Qed.

Lemma trimStart_trimEnd s : trimStart (trimEnd s) = trimEnd (trimStart s).
Proof.
  unfold trimStart. induction s as [|c s IH]; [reflexivity|]. simpl.
  destruct (isWhiteSpace c) eqn:W.
  - rewrite <- IH. destruct (trimEnd s); simpl; [reflexivity | now rewrite W].
  - simpl. destruct (trimEnd s); simpl; now rewrite W.
Qed.

Lemma trimStart_idem s : trimStart (trimStart s) = trimStart s.
Proof.
  unfold trimStart. induction s as [|c s IH]; [reflexivity|]. simpl.
  destruct (isWhiteSpace c) eqn:W; [exact IH | simpl; now rewrite W].
Qed.

Lemma trim_idem s : trim (trim s) = trim s.
Proof.
  unfold trim. rewrite trimStart_trimEnd, trimStart_idem, trimEnd_idem. reflexivity.
Qed.

Lemma trim_trimEnd s : trim (trimEnd s) = trim s.
Proof. unfold trim. now rewrite trimStart_trimEnd, trimEnd_idem. Qed.

Lemma trim_all_ws s : forallb isWhiteSpace s = true -> trim s = [].
Proof.
  intros H. unfold trim, trimStart.
  rewrite <- (app_nil_r s). rewrite dropWhile_app_all by exact H. reflexivity.
Qed.

Lemma trimStart_id s : headNonWs s = true -> trimStart s = s.
Proof.
  destruct s as [|c s]; [reflexivity|]. unfold headNonWs, trimStart.
  intros H. apply negb_true_iff in H. cbn [dropWhile]. now rewrite H.
Qed.

Lemma trim_id s :
  headNonWs s = true -> isWhiteSpace (last s "x"%char) = false -> trim s = s.
Proof.
  intros H1 H2. unfold trim. rewrite trimStart_id by exact H1. now apply trimEnd_id.
Qed.

Lemma last_app_cons {A} (a : list A) x b d : last (a ++ x :: b) d = last (x :: b) d.
Proof.
  induction a as [|y a IH]; [reflexivity|].
  simpl app. rewrite <- IH. destruct (a ++ x :: b) eqn:E; [|reflexivity].
  destruct a; discriminate.
Qed.

Lemma last_snoc {A} (a : list A) x d : last (a ++ [x]) d = x.
Proof. rewrite last_app_cons. reflexivity. Qed.

Lemma trim_quoted s : trim (quoted s) = quoted s.
Proof.
  apply trim_id; [reflexivity|].
  unfold quoted. change (DQ :: s ++ [DQ]) with ((DQ :: s) ++ [DQ]).
  rewrite last_snoc. reflexivity.
Qed.

Lemma removelast_snoc {A} (a : list A) x : removelast (a ++ [x]) = a.
Proof. rewrite removelast_app by discriminate. simpl. apply app_nil_r. Qed.

Lemma jeqb_refl s : jeqb s s = true.
Proof. induction s as [|x s IH]; simpl; [reflexivity | now rewrite Ascii.eqb_refl]. Qed.

Lemma jeqb_eq a b : jeqb a b = true <-> a = b.
Proof.
  split; [|intros ->; apply jeqb_refl].
  revert b. induction a as [|x a IH]; intros [|y b] H; simpl in H; try discriminate.
  - reflexivity.
  - apply andb_true_iff in H. destruct H as [H1 H2].
    apply Ascii.eqb_eq in H1. subst. f_equal. auto.
Qed.

Lemma endsWith_snoc s c : endsWith [c] (s ++ [c]) = true.
Proof.
  unfold endsWith. rewrite length_app. simpl.
  replace (length s + 1 - 1) with (length s + 0) by lia.
  rewrite skipn_app, Nat.add_0_r, skipn_all. simpl.
  replace (length s - length s) with 0 by lia. simpl. now rewrite Ascii.eqb_refl.
Qed.

(** What the parser reads back from a quoted text: the text between the
    quotes, unchanged. *)
Lemma startsWith_cons c s : startsWith [c] (c :: s) = true.
Proof. unfold startsWith. simpl. now rewrite Ascii.eqb_refl. Qed.

Lemma parseQuotedString_quoted s : parseQuotedString (quoted s) = s.
Proof.
  unfold parseQuotedString. rewrite trim_quoted.
  assert (H1 : startsWith [DQ] (quoted s) = true) by apply startsWith_cons.
  assert (H2 : endsWith [DQ] (quoted s) = true)
    by (change (quoted s) with ((DQ :: s) ++ [DQ]); apply endsWith_snoc).
  assert (H3 : (2 <=? length (quoted s)) = true).
  { apply Nat.leb_le. unfold quoted. simpl. rewrite length_app. simpl. lia. }
  rewrite H1, H2, H3. simpl. unfold slice1m1, quoted. simpl. apply removelast_snoc.
Qed.

(** ** Reading a command line *)

Lemma indexFrom_app_lacks c a b pos :
  lacks c a = true -> indexFrom c (a ++ b) pos = indexFrom c b (pos + length a).
Proof.
  revert pos. induction a as [|x a IH]; intros pos H; simpl.
  - now rewrite Nat.add_0_r.
  - simpl in H. apply andb_true_iff in H. destruct H as [Hx Ha].
    apply negb_true_iff in Hx. rewrite Hx. rewrite IH by exact Ha.
    f_equal. lia.
Qed.

Lemma indexFrom_lacks c a pos : lacks c a = true -> indexFrom c a pos = None.
Proof.
  intros H. rewrite <- (app_nil_r a). rewrite indexFrom_app_lacks by exact H. reflexivity.
Qed.

Lemma noWs_lacks_ws c s : isWhiteSpace c = true -> noWs s = true -> lacks c s = true.
Proof.
  intros Hc H. unfold noWs, lacks in *. rewrite forallb_forall in *.
  intros x Hx. specialize (H x Hx). apply negb_true_iff. apply negb_true_iff in H.
  destruct (Ascii.eqb x c) eqn:E; [|reflexivity].
  apply Ascii.eqb_eq in E. congruence.
Qed.

Lemma noWs_last s : noWs s = true -> isWhiteSpace (last s "x"%char) = false.
Proof.
  induction s as [|c s IH]; [reflexivity|].
  intros H. simpl in H. apply andb_true_iff in H. destruct H as [Hc Hs].
  destruct s as [|d s]; [now apply negb_true_iff in Hc|].
  change (last (c :: d :: s) "x"%char) with (last (d :: s) "x"%char). auto.
Qed.

Lemma noWs_head s : noWs s = true -> headNonWs s = true.
Proof.
  destruct s as [|c s]; [reflexivity|]. unfold noWs, headNonWs. cbn [forallb].
  intros H. apply andb_true_iff in H. tauto.
Qed.

Lemma trim_keyword_line pre kw rest :
  forallb isWhiteSpace pre = true -> kw <> [] -> noWs kw = true ->
  trim (pre ++ kw ++ SP :: rest)
  = match trimEnd rest with [] => kw | r => kw ++ SP :: r end.
Proof.
  intros Hpre Hne Hkw. unfold trim, trimStart.
  rewrite dropWhile_app_all by exact Hpre.
  fold (trimStart (kw ++ SP :: rest)). rewrite trimStart_id.
  2:{ destruct kw as [|k kw]; [congruence|]. apply (noWs_head (k :: kw) Hkw). }
  rewrite trimEnd_app.
  change (trimEnd (SP :: rest)) with
    (match trimEnd rest with [] => if isWhiteSpace SP then [] else [SP] | r => SP :: r end).
  destruct (trimEnd rest); [|reflexivity].
  change (isWhiteSpace SP) with true. cbv iota.
  apply trimEnd_id. now apply noWs_last.
Qed.

Lemma firstn_length_app {A} (a b : list A) : firstn (length a) (a ++ b) = a.
Proof. rewrite firstn_app, Nat.sub_diag, firstn_all. simpl. apply app_nil_r. Qed.

Lemma skipn_length_app {A} (a b : list A) : skipn (length a) (a ++ b) = b.
Proof. rewrite skipn_app, Nat.sub_diag, skipn_all. reflexivity. Qed.

Lemma parseCommand_keyword pre kw rest :
  forallb isWhiteSpace pre = true -> kw <> [] -> noWs kw = true ->
  isEmpty (trim (pre ++ kw ++ SP :: rest)) = false
  /\ parseCommand (trim (pre ++ kw ++ SP :: rest)) = (kw, trim rest).
Proof.
  intros Hpre Hne Hkw. unfold parseCommand. rewrite trim_idem.
  rewrite trim_keyword_line by assumption.
  assert (Hsp : lacks SP kw = true) by (apply noWs_lacks_ws; [reflexivity | exact Hkw]).
  destruct (trimEnd rest) as [|r rs] eqn:E.
  - split; [destruct kw; [congruence | reflexivity]|].
    unfold indexOf. simpl skipn. rewrite indexFrom_lacks by exact Hsp.
    f_equal. symmetry. apply trim_all_ws. now apply trimEnd_nil_iff.
  - split; [destruct kw; [congruence | reflexivity]|].
    unfold indexOf. simpl skipn. rewrite indexFrom_app_lacks by exact Hsp.
    simpl. unfold substring, substringFrom.
    rewrite Nat.sub_0_r. simpl skipn at 1. rewrite firstn_length_app.
    replace (length kw + 1) with (length (kw ++ [SP])) by (rewrite length_app; reflexivity).
    change (kw ++ SP :: r :: rs) with (kw ++ [SP] ++ r :: rs).
    rewrite app_assoc, skipn_length_app. rewrite <- E. now rewrite trim_trimEnd.
Qed.

Lemma keyword_facts c :
  keyword c <> [] /\ noWs (keyword c) = true
  /\ toUpperCase (keyword c) = keyword c
  /\ lookupName keyword commands (keyword c) = Some c.
Proof. destruct c; repeat split; try discriminate; reflexivity. Qed.

(** A line made of white space, a keyword, a space and the rest is handed
    to the handler of the keyword with the rest, trimmed. *)
Lemma parseLine_keyword c pre rest n st :
  forallb isWhiteSpace pre = true ->
  parseLine (pre ++ keyword c ++ SP :: rest) n st = handler c (trim rest) n st.
Proof.
  intros Hpre. destruct (keyword_facts c) as [Hne [Hws [Hup Hlk]]].
  destruct (parseCommand_keyword pre (keyword c) rest Hpre Hne Hws) as [H1 H2].
  unfold parseLine. rewrite H1, H2.
  replace (isEmpty (keyword c)) with false by (destruct c; reflexivity).
  rewrite Hup, Hlk. reflexivity.
Qed.

(** ** Numbers and their decimal rendering *)

Lemma isDigit_cases c :
  isDigit c = true ->
  In c ["0"; "1"; "2"; "3"; "4"; "5"; "6"; "7"; "8"; "9"]%char.
Proof.
  destruct c as [[] [] [] [] [] [] [] []]; intros H; try discriminate H; simpl; tauto.
Qed.

Lemma isDigit_noWs c : isDigit c = true -> isWhiteSpace c = false.
Proof.
  intros H. apply isDigit_cases in H. simpl in H.
  repeat (destruct H as [<- | H]; [reflexivity|]). contradiction.
Qed.

Lemma digitChar_spec d :
  (0 <= d < 10)%Z -> isDigit (digitChar d) = true /\ digitVal (digitChar d) = d.
Proof.
  intros H.
  assert (C : (d = 0 \/ d = 1 \/ d = 2 \/ d = 3 \/ d = 4 \/ d = 5 \/ d = 6 \/ d = 7
              \/ d = 8 \/ d = 9)%Z) by lia.
  repeat (destruct C as [-> | C]; [split; reflexivity|]). subst. split; reflexivity.
Qed.

Lemma digitsVal_app a b acc :
  forallb isDigit a = true -> digitsVal acc (a ++ b) = digitsVal (digitsVal acc a) b.
Proof.
  revert acc. induction a as [|c a IH]; intros acc H; [reflexivity|].
  simpl in H. apply andb_true_iff in H. destruct H as [Hc Ha].
  simpl. rewrite Hc. now apply IH.
Qed.

Lemma digitsOf_spec f : forall n acc,
  (0 <= n < 10 ^ Z.of_nat (S f))%Z ->
  exists ds,
    digitsOf (S f) n acc = ds ++ acc /\ ds <> [] /\ forallb isDigit ds = true
    /\ forall a, digitsVal a ds = (a * 10 ^ Z.of_nat (length ds) + n)%Z.
Proof.
  induction f as [|f IH]; intros n acc Hn.
  - assert (E10 : (10 ^ Z.of_nat 1 = 10)%Z) by reflexivity.
    rewrite E10 in Hn. clear E10. simpl.
    replace (n <? 10)%Z with true by (symmetry; apply Z.ltb_lt; lia).
    destruct (digitChar_spec n) as [D V]; [lia|].
    exists [digitChar n]. repeat split; [discriminate | simpl; now rewrite D |].
    intros a. cbn [digitsVal length]. rewrite D, V.
    change (Z.of_nat 1) with 1%Z. rewrite Z.pow_1_r. lia.
  - change (digitsOf (S (S f)) n acc) with
      (if (n <? 10)%Z then digitChar n :: acc
       else digitsOf (S f) (n / 10) (digitChar (n mod 10) :: acc)).
    destruct (n <? 10)%Z eqn:E.
    + apply Z.ltb_lt in E. destruct (digitChar_spec n) as [D V]; [lia|].
      exists [digitChar n]. repeat split; [discriminate | simpl; now rewrite D |].
      intros a. cbn [digitsVal length]. rewrite D, V.
    change (Z.of_nat 1) with 1%Z. rewrite Z.pow_1_r. lia.
    + apply Z.ltb_ge in E.
      assert (Hq : (0 <= n / 10 < 10 ^ Z.of_nat (S f))%Z).
      { split; [apply Z.div_pos; lia|].
        apply Z.div_lt_upper_bound; [lia|].
        replace (Z.of_nat (S (S f))) with (Z.succ (Z.of_nat (S f))) in Hn by lia.
        rewrite Z.pow_succ_r in Hn by lia. lia. }
      destruct (IH (n / 10)%Z (digitChar (n mod 10) :: acc) Hq) as [ds [E1 [E2 [E3 E4]]]].
      destruct (digitChar_spec (n mod 10)) as [D V]; [apply Z.mod_pos_bound; lia|].
      exists (ds ++ [digitChar (n mod 10)]).
      split; [rewrite E1, <- app_assoc; reflexivity|].
      split; [destruct ds; discriminate|].
      split; [rewrite forallb_app, E3; simpl; now rewrite D|].
      intros a. rewrite digitsVal_app by exact E3. cbn [digitsVal]. rewrite D, V, E4.
      rewrite length_app. simpl length.
      replace (Z.of_nat (length ds + 1)) with (Z.succ (Z.of_nat (length ds))) by lia.
      rewrite Z.pow_succ_r by lia.
      pose proof (Z.div_mod n 10 ltac:(lia)) as DM.
      set (X := (10 ^ Z.of_nat (length ds))%Z).
      replace (a * (10 * X))%Z with (10 * (a * X))%Z by ring. lia.
Qed.

Lemma fuel_enough n : (0 <= n)%Z -> (n < 10 ^ Z.of_nat (S (Z.to_nat (Z.log2 n))))%Z.
Proof.
  intros Hn.
  assert (L : (0 <= Z.log2 n)%Z) by apply Z.log2_nonneg.
  replace (Z.of_nat (S (Z.to_nat (Z.log2 n)))) with (Z.succ (Z.log2 n)) by lia.
  assert (H2 : (n < 2 ^ Z.succ (Z.log2 n))%Z).
  { destruct (Z.eq_dec n 0) as [-> | Hz]; [reflexivity|].
    apply Z.log2_spec. lia. }
  assert (H10 : (2 ^ Z.succ (Z.log2 n) <= 10 ^ Z.succ (Z.log2 n))%Z)
    by (apply Z.pow_le_mono_l; lia).
  lia.
Qed.

Lemma toString_nonneg n :
  (0 <= n)%Z ->
  toString n <> [] /\ forallb isDigit (toString n) = true
  /\ digitsVal 0 (toString n) = n.
Proof.
  intros Hn. unfold toString.
  replace (n <? 0)%Z with false by (symmetry; apply Z.ltb_ge; lia).
  destruct (digitsOf_spec (Z.to_nat (Z.log2 n)) n []) as [ds [E1 [E2 [E3 E4]]]].
  { split; [exact Hn | now apply fuel_enough]. }
  rewrite E1, app_nil_r. repeat split; [exact E2 | exact E3 |].
  rewrite E4. lia.
Qed.

Lemma padStart2_cases s :
  padStart2 s = s \/ padStart2 s = "0"%char :: s \/ padStart2 s = ["0"; "0"]%char ++ s.
Proof.
  unfold padStart2. destruct s as [|a [|b s]]; simpl; auto.
Qed.

Lemma num_nonneg n :
  (0 <= n)%Z ->
  num n <> [] /\ forallb isDigit (num n) = true /\ digitsVal 0 (num n) = n.
Proof.
  intros Hn. destruct (toString_nonneg n Hn) as [H1 [H2 H3]]. unfold num.
  destruct (padStart2_cases (toString n)) as [-> | [-> | ->]].
  - auto.
  - repeat split; [discriminate | simpl; now rewrite H2 | simpl; exact H3].
  - repeat split; [discriminate | simpl; now rewrite H2 | simpl; exact H3].
Qed.

Lemma parseInt_digits ds :
  ds <> [] -> forallb isDigit ds = true -> parseInt ds = Some (digitsVal 0 ds).
Proof.
  intros Hne Hd. destruct ds as [|c r]; [congruence|].
  assert (Hc : isDigit c = true) by (simpl in Hd; apply andb_true_iff in Hd; tauto).
  unfold parseInt, trimStart. cbn [dropWhile]. rewrite (isDigit_noWs c Hc).
  apply isDigit_cases in Hc. simpl in Hc.
  repeat (destruct Hc as [<- | Hc]; [reflexivity|]). contradiction.
Qed.

Lemma parseInt_num n : (0 <= n)%Z -> parseInt (num n) = Some n.
Proof.
  intros Hn. destruct (num_nonneg n Hn) as [H1 [H2 H3]].
  rewrite parseInt_digits by assumption. now rewrite H3.
Qed.

(** ** Time parsing on integer fields *)

Lemma parseInt_literal f : isIntegerText f = true -> parseInt f = Some (intValue f).
Proof.
  destruct f as [|c r]; [discriminate|]. unfold isIntegerText, parseInt, intValue, trimStart.
  destruct (Ascii.eqb c "-") eqn:Em.
  - apply Ascii.eqb_eq in Em. subst c. cbn [orb dropWhile]. intros H.
    apply andb_true_iff in H. destruct H as [Hne Hd].
    destruct r as [|d r]; [discriminate|]. cbn [forallb] in Hd.
    apply andb_true_iff in Hd. destruct Hd as [Hd _].
    change (isWhiteSpace "-") with false. cbv iota.
    change (Ascii.eqb "-" "-") with true. cbv iota.
    cbn [startsWithDigit]. now rewrite Hd.
  - destruct (Ascii.eqb c "+") eqn:Ep.
    + apply Ascii.eqb_eq in Ep. subst c. cbn [orb dropWhile]. intros H.
      apply andb_true_iff in H. destruct H as [Hne Hd].
      destruct r as [|d r]; [discriminate|]. cbn [forallb] in Hd.
      apply andb_true_iff in Hd. destruct Hd as [Hd _].
      change (isWhiteSpace "+") with false. cbv iota.
      change (Ascii.eqb "+" "-") with false. change (Ascii.eqb "+" "+") with true. cbv iota.
      cbn [startsWithDigit]. now rewrite Hd.
    + cbn [orb]. intros H. pose proof H as Hc. cbn [forallb] in Hc.
      apply andb_true_iff in Hc. destruct Hc as [Hc _].
      cbn [dropWhile]. rewrite (isDigit_noWs c Hc), Em, Ep, Hc. reflexivity.
Qed.

Lemma parseInt_None f : beginsNumber f = false -> parseInt f = None.
Proof.
  unfold beginsNumber, parseInt. destruct (trimStart f) as [|c r]; [reflexivity|].
  destruct (Ascii.eqb c "-"); cbn [orb]; [now intros ->|].
  destruct (Ascii.eqb c "+"); [now intros ->|]. now intros ->.
Qed.

Lemma notThreeNumbers_msf s : notThreeNumbers s -> exists m, parseMSFTime s = Err m.
Proof.
  unfold notThreeNumbers, timeFields, parseMSFTime. cbv zeta.
  destruct (split COLON (trim s)) as [|a [|b [|c [|d l]]]];
    try (intros _; eexists; reflexivity).
  intros [H | H]; [now contradiction H|].
  destruct (isEmpty a || isEmpty b || isEmpty c); [eexists; reflexivity|].
  inversion H as [? ? Ha | ? ? H1]; subst.
  { rewrite (parseInt_None a Ha). eexists; reflexivity. }
  inversion H1 as [? ? Hb | ? ? H2]; subst.
  { rewrite (parseInt_None b Hb). destruct (parseInt a); eexists; reflexivity. }
  inversion H2 as [? ? Hc | ? ? H3]; subst; [|inversion H3].
  rewrite (parseInt_None c Hc).
  destruct (parseInt a); [destruct (parseInt b)|]; eexists; reflexivity.
Qed.

Lemma notThreeNumbers_hms s : notThreeNumbers s -> exists m, parseHMSTime s = Err m.
Proof.
  unfold notThreeNumbers, timeFields, parseHMSTime. cbv zeta.
  destruct (split COLON (trim s)) as [|a [|b [|c [|d l]]]];
    try (intros _; eexists; reflexivity).
  intros [H | H]; [now contradiction H|].
  destruct (isEmpty a || isEmpty b || isEmpty c); [eexists; reflexivity|].
  inversion H as [? ? Ha | ? ? H1]; subst.
  { rewrite (parseInt_None a Ha). eexists; reflexivity. }
  inversion H1 as [? ? Hb | ? ? H2]; subst.
  { rewrite (parseInt_None b Hb). destruct (parseInt a); eexists; reflexivity. }
  inversion H2 as [? ? Hc | ? ? H3]; subst; [|inversion H3].
  rewrite (parseInt_None c Hc).
  destruct (parseInt a); [destruct (parseInt b)|]; eexists; reflexivity.
Qed.

Lemma isIntegerText_nonempty f : isIntegerText f = true -> isEmpty f = false.
Proof. destruct f; [discriminate | reflexivity]. Qed.

(** On three integer fields, [parseMSFTime] is decided by the ranges. *)
Lemma parseMSFTime_integers s a b c :
  timeFields s = [a; b; c] ->
  isIntegerText a = true -> isIntegerText b = true -> isIntegerText c = true ->
  parseMSFTime s
  = if ((intValue a <? 0) || (intValue b <? 0) || (intValue c <? 0))%Z then
      Err (msfError s (str ". All parts must be non-negative."))
    else if (60 <=? intValue b)%Z then
      Err (msfError s (str ". Seconds must be less than 60."))
    else if (75 <=? intValue c)%Z then
      Err (msfError s (str ". Frames must be less than 75."))
    else Ret (mkTime (intValue a) (intValue b) (intValue c)).
Proof.
  unfold timeFields, parseMSFTime. cbv zeta. intros -> Ha Hb Hc.
  rewrite (isIntegerText_nonempty a Ha), (isIntegerText_nonempty b Hb),
    (isIntegerText_nonempty c Hc). cbn [orb].
  now rewrite (parseInt_literal a Ha), (parseInt_literal b Hb), (parseInt_literal c Hc).
Qed.

(** On three integer fields, [parseHMSTime] is decided by the ranges. *)
Lemma parseHMSTime_integers s a b c :
  timeFields s = [a; b; c] ->
  isIntegerText a = true -> isIntegerText b = true -> isIntegerText c = true ->
  parseHMSTime s
  = if ((intValue a <? 0) || (intValue b <? 0) || (intValue c <? 0))%Z then
      Err (hmsError s (str ". All parts must be non-negative."))
    else if (60 <=? intValue b)%Z then
      Err (hmsError s (str ". Minutes must be less than 60."))
    else if (60 <=? intValue c)%Z then
      Err (hmsError s (str ". Seconds must be less than 60."))
    else Ret (mkHMS (intValue a) (intValue b) (intValue c)).
Proof.
  unfold timeFields, parseHMSTime. cbv zeta. intros -> Ha Hb Hc.
  rewrite (isIntegerText_nonempty a Ha), (isIntegerText_nonempty b Hb),
    (isIntegerText_nonempty c Hc). cbn [orb].
  now rewrite (parseInt_literal a Ha), (parseInt_literal b Hb), (parseInt_literal c Hc).
Qed.

Ltac range_cases :=
  repeat match goal with
         | |- context [(?x <? ?y)%Z] => destruct (Z.ltb_spec x y)
         | |- context [(?x <=? ?y)%Z] => destruct (Z.leb_spec x y)
         end;
  cbn [orb].

(** C7, as the code has it by design.  Every rejection carries the offending
    text.  A text that does not split, once trimmed, at its colons into
    exactly three fields, or that has a field in which no number begins (an
    empty field, for one), is rejected by both functions.  When the three
    fields are integers, [parseMSFTime] accepts the text exactly when no
    field is negative, the second is below 60 and the third is below 75, and
    [parseHMSTime] exactly when no field is negative and the second and the
    third are below 60: it refuses a minute field of 60 or more as well.  An
    accepted text gives the triple of the three integers. *)
Theorem time_parsing_accepts_and_rejects :
  forall s,
    (forall m, parseMSFTime s = Err m -> carries s m)
    /\ (forall m, parseHMSTime s = Err m -> carries s m)
    /\ (notThreeNumbers s ->
        (exists m, parseMSFTime s = Err m) /\ (exists m, parseHMSTime s = Err m))
    /\ (forall a b c,
          timeFields s = [a; b; c] ->
          isIntegerText a = true -> isIntegerText b = true -> isIntegerText c = true ->
          ((0 <= intValue a /\ 0 <= intValue b < 60 /\ 0 <= intValue c < 75)%Z ->
           parseMSFTime s = Ret (mkTime (intValue a) (intValue b) (intValue c)))
          /\ ((intValue a < 0 \/ intValue b < 0 \/ intValue c < 0
               \/ 60 <= intValue b \/ 75 <= intValue c)%Z ->
              exists m, parseMSFTime s = Err m)
          /\ ((0 <= intValue a /\ 0 <= intValue b < 60 /\ 0 <= intValue c < 60)%Z ->
              parseHMSTime s = Ret (mkHMS (intValue a) (intValue b) (intValue c)))
          /\ ((intValue a < 0 \/ intValue b < 0 \/ intValue c < 0
               \/ 60 <= intValue b \/ 60 <= intValue c)%Z ->
              exists m, parseHMSTime s = Err m)).
Proof.
  intros s.
  split; [intros m; apply parseMSFTime_Err|].
  split; [intros m; apply parseHMSTime_Err|].
  split; [intros H; split; [now apply notThreeNumbers_msf | now apply notThreeNumbers_hms]|].
  intros a b c Hs Ha Hb Hc.
  rewrite (parseMSFTime_integers s a b c Hs Ha Hb Hc),
    (parseHMSTime_integers s a b c Hs Ha Hb Hc).
  repeat split; intros H; range_cases; try lia; try reflexivity; eexists; reflexivity.
Qed.

Lemma time_parsing_accepts_and_rejects_witness :
  parseMSFTime (str " 01:30:45") = Ret (mkTime 1 30 45)
  /\ parseHMSTime (str " 01:30:45") = Ret (mkHMS 1 30 45)
  /\ (exists m, parseMSFTime (str "1:75:0") = Err m)
  /\ (exists m, parseHMSTime (str "1:2") = Err m).
Proof.
  destruct (time_parsing_accepts_and_rejects (str " 01:30:45")) as [_ [_ [_ A]]].
  destruct (A (str "01") (str "30") (str "45") eq_refl eq_refl eq_refl eq_refl)
    as [A1 [_ [A2 _]]].
  destruct (time_parsing_accepts_and_rejects (str "1:75:0")) as [_ [_ [_ B]]].
  destruct (B (str "1") (str "75") (str "0") eq_refl eq_refl eq_refl eq_refl)
    as [_ [B1 _]].
  destruct (time_parsing_accepts_and_rejects (str "1:2")) as [_ [_ [C _]]].
  split; [apply A1; vm_compute; repeat split; discriminate|].
  split; [apply A2; vm_compute; repeat split; discriminate|].
  split.
  - apply B1. right. right. right. left. vm_compute. intros E. discriminate E.
  - apply C. left. vm_compute. intros E. discriminate E.
Defined.

(** C7 as stated fails: the text 0:60:0 is three integer fields, none
    negative, and its seconds field is 0, yet [parseHMSTime] refuses it for
    its minute field. *)
Lemma time_parsing_counterexample :
  timeFields (str "0:60:0") = [str "0"; str "60"; str "0"]
  /\ isIntegerText (str "0") = true /\ isIntegerText (str "60") = true
  /\ intValue (str "0") = 0%Z /\ intValue (str "60") = 60%Z
  /\ parseHMSTime (str "0:60:0")
     = Err (hmsError (str "0:60:0") (str ". Minutes must be less than 60.")).
Proof. repeat split; vm_compute; reflexivity. Qed.

(** For any integer the rendering is not empty and is made of digits and
    the minus sign. *)
Lemma digitsOf_chars f : forall n acc,
  (0 <= n)%Z -> forallb isNumChar acc = true -> forallb isNumChar (digitsOf f n acc) = true.
Proof.
  induction f as [|f IH]; intros n acc Hn Hacc; [exact Hacc|].
  cbn [digitsOf]. destruct (n <? 10)%Z eqn:E.
  - apply Z.ltb_lt in E. destruct (digitChar_spec n) as [D _]; [lia|].
    simpl. unfold isNumChar at 1. now rewrite D, Hacc.
  - apply IH; [apply Z.div_pos; lia|].
    destruct (digitChar_spec (n mod 10)) as [D _]; [apply Z.mod_pos_bound; lia|].
    simpl. unfold isNumChar at 1. now rewrite D, Hacc.
Qed.

Lemma digitsOf_nonempty f n acc : digitsOf (S f) n acc <> [].
Proof.
  revert n acc. induction f as [|f IH]; intros n acc.
  - simpl. destruct (n <? 10)%Z; discriminate.
  - change (digitsOf (S (S f)) n acc) with
      (if (n <? 10)%Z then digitChar n :: acc
       else digitsOf (S f) (n / 10) (digitChar (n mod 10) :: acc)).
    destruct (n <? 10)%Z; [discriminate | apply IH].
Qed.

Lemma toString_chars n : toString n <> [] /\ forallb isNumChar (toString n) = true.
Proof.
  unfold toString. destruct (n <? 0)%Z eqn:E.
  - apply Z.ltb_lt in E. split; [discriminate|].
    cbn [forallb]. change (isNumChar "-"%char) with true. cbn [andb].
    apply digitsOf_chars; [lia | reflexivity].
  - apply Z.ltb_ge in E. split; [apply digitsOf_nonempty|].
    apply digitsOf_chars; [lia | reflexivity].
Qed.

Lemma num_chars n : num n <> [] /\ forallb isNumChar (num n) = true.
Proof.
  destruct (toString_chars n) as [H1 H2]. unfold num.
  destruct (padStart2_cases (toString n)) as [-> | [-> | ->]].
  - auto.
  - split; [discriminate | simpl; exact H2].
  - split; [discriminate | simpl; exact H2].
Qed.

(** ** Splitting and joining *)

Lemma lacks_app c a b : lacks c (a ++ b) = lacks c a && lacks c b.
Proof. apply forallb_app. Qed.

Lemma lacks_In c s : lacks c s = true <-> ~ In c s.
Proof.
  unfold lacks. rewrite forallb_forall. split.
  - intros H Hin. specialize (H c Hin). rewrite Ascii.eqb_refl in H. discriminate.
  - intros H x Hx. apply negb_true_iff. apply Ascii.eqb_neq. congruence.
Qed.

Lemma lacks_incl c a b : (forall x, In x a -> In x b) -> lacks c b = true -> lacks c a = true.
Proof. rewrite !lacks_In. auto. Qed.

Lemma split_lacks c a : lacks c a = true -> split c a = [a].
Proof.
  induction a as [|x a IH]; [reflexivity|].
  intros H. simpl in H. apply andb_true_iff in H. destruct H as [Hx Ha].
  apply negb_true_iff in Hx. simpl. rewrite Hx, (IH Ha). reflexivity.
Qed.

Lemma split_app_sep c a b :
  lacks c a = true -> split c (a ++ c :: b) = a :: split c b.
Proof.
  induction a as [|x a IH]; intros H.
  - simpl. now rewrite Ascii.eqb_refl.
  - simpl in H. apply andb_true_iff in H. destruct H as [Hx Ha].
    apply negb_true_iff in Hx. simpl. rewrite Hx, (IH Ha). reflexivity.
Qed.

Lemma split_nonempty c s : split c s <> [].
Proof.
  destruct s as [|x s]; simpl; [discriminate|].
  destruct (Ascii.eqb x c); [discriminate|].
  destruct (split c s); discriminate.
Qed.

(** The lines of a text hold no line feed. *)
Lemma split_parts_lack c s : Forall (fun l => lacks c l = true) (split c s).
Proof.
  induction s as [|x s IH]; simpl; [repeat constructor|].
  destruct (Ascii.eqb x c) eqn:E.
  - constructor; [reflexivity | exact IH].
  - destruct (split c s) as [|h t]; simpl.
    + repeat constructor. simpl. now rewrite E.
    + inversion IH; subst. constructor; [simpl; rewrite E; assumption | assumption].
Qed.

(** The lines of the text that the serializer returns are the lines it
    pushed, followed by an empty one. *)
Lemma split_join_lines ls :
  Forall (fun l => lacks LF l = true) ls ->
  split LF (join [LF] ls ++ [LF]) = match ls with [] => [[]] | _ => ls end ++ [[]].
Proof.
  induction ls as [|l ls IH]; intros H; [reflexivity|].
  inversion H as [|? ? Hl Hls]; subst.
  destruct ls as [|l2 ls].
  - simpl join. rewrite split_app_sep by exact Hl. reflexivity.
  - change (join [LF] (l :: l2 :: ls)) with (l ++ [LF] ++ join [LF] (l2 :: ls)).
    rewrite <- !app_assoc.
    change ([LF] ++ join [LF] (l2 :: ls) ++ [LF]) with (LF :: (join [LF] (l2 :: ls) ++ [LF])).
    rewrite split_app_sep by exact Hl. rewrite (IH Hls). reflexivity.
Qed.

Lemma consHead_cons x h t : consHead x (h :: t) = (x :: h) :: t.
Proof. reflexivity. Qed.

Lemma splitWsFrom_nonempty b s : splitWsFrom b s <> [].
Proof.
  revert b. induction s as [|x s IH]; intros b; simpl; [discriminate|].
  destruct (isWhiteSpace x).
  - destruct b; [apply IH | discriminate].
  - specialize (IH false). destruct (splitWsFrom false s); [congruence | discriminate].
Qed.

Lemma splitWsFrom_head s : headNonWs s = true -> splitWsFrom true s = splitWsFrom false s.
Proof.
  destruct s as [|x s]; [reflexivity|]. unfold headNonWs. intros H.
  apply negb_true_iff in H. simpl. now rewrite H.
Qed.

Lemma splitWs_noWs a : noWs a = true -> splitWs a = [a].
Proof.
  unfold splitWs. induction a as [|x a IH]; [reflexivity|].
  intros H. simpl in H. apply andb_true_iff in H. destruct H as [Hx Ha].
  apply negb_true_iff in Hx. simpl. rewrite Hx, (IH Ha). reflexivity.
Qed.

Lemma splitWs_app_sp a b :
  noWs a = true -> headNonWs b = true -> splitWs (a ++ SP :: b) = a :: splitWs b.
Proof.
  unfold splitWs. intros Ha Hb. induction a as [|x a IH].
  - simpl. change (isWhiteSpace SP) with true. cbv iota.
    now rewrite splitWsFrom_head.
  - simpl in Ha. apply andb_true_iff in Ha. destruct Ha as [Hx Ha].
    apply negb_true_iff in Hx. simpl. rewrite Hx, (IH Ha). reflexivity.
Qed.

Lemma isNumChar_noWs c : isNumChar c = true -> isWhiteSpace c = false.
Proof.
  unfold isNumChar. intros H. apply orb_true_iff in H. destruct H as [H | H].
  - now apply isDigit_noWs.
  - apply Ascii.eqb_eq in H. subst. reflexivity.
Qed.

Lemma isNumChar_neq c x :
  isNumChar c = true -> isNumChar x = false -> Ascii.eqb c x = false.
Proof.
  intros Hc Hx. apply Ascii.eqb_neq. intros ->. congruence.
Qed.

Lemma numChars_noWs s : forallb isNumChar s = true -> noWs s = true.
Proof.
  unfold noWs. rewrite !forallb_forall. intros H x Hx.
  apply negb_true_iff. apply isNumChar_noWs. auto.
Qed.

Lemma numChars_lacks x s : isNumChar x = false -> forallb isNumChar s = true -> lacks x s = true.
Proof.
  unfold lacks. rewrite !forallb_forall. intros Hx H y Hy.
  apply negb_true_iff. apply isNumChar_neq; auto.
Qed.

Lemma digits_numChars s : forallb isDigit s = true -> forallb isNumChar s = true.
Proof.
  rewrite !forallb_forall. intros H x Hx. unfold isNumChar. now rewrite (H x Hx).
Qed.

Lemma noWs_app a b : noWs (a ++ b) = noWs a && noWs b.
Proof. apply forallb_app. Qed.

Lemma formatHMSTime_noWs t : noWs (formatHMSTime t) = true.
Proof.
  unfold formatHMSTime. fold (num (hour t)) (num (minute t)) (num (second t)).
  rewrite !noWs_app.
  rewrite (numChars_noWs (num (hour t))) by apply num_chars.
  rewrite (numChars_noWs (num (minute t))) by apply num_chars.
  rewrite (numChars_noWs (num (second t))) by apply num_chars.
  reflexivity.
Qed.

Lemma formatHMSTime_nonempty t : formatHMSTime t <> [].
Proof.
  unfold formatHMSTime. fold (num (hour t)).
  destruct (num_chars (hour t)) as [H _]. destruct (num (hour t)); [congruence | discriminate].
Qed.

(** The text that [formatHMSTime] writes for a time is read back by
    [parseMSFTime] as the same three numbers. *)
Lemma parseMSFTime_format t :
  timeOK (rereadTime t) -> parseMSFTime (formatHMSTime t) = Ret (rereadTime t).
Proof.
  unfold timeOK, rereadTime. cbn [minutes seconds frames].
  intros [Hm [Hs Hf]]. apply parseMSFTime_Ret. split; [|exact (conj Hm (conj Hs Hf))].
  exists (num (hour t)), (num (minute t)), (num (second t)).
  destruct (num_nonneg (hour t) Hm) as [A1 [A2 A3]].
  destruct (num_nonneg (minute t)) as [B1 [B2 B3]]; [lia|].
  destruct (num_nonneg (second t)) as [C1 [C2 C3]]; [lia|].
  split.
  - rewrite trim_id;
      [| apply noWs_head, formatHMSTime_noWs | apply noWs_last, formatHMSTime_noWs].
    unfold formatHMSTime.
    fold (num (hour t)) (num (minute t)) (num (second t)).
    simpl app.
    rewrite split_app_sep by (apply numChars_lacks; [reflexivity | now apply digits_numChars]).
    rewrite split_app_sep by (apply numChars_lacks; [reflexivity | now apply digits_numChars]).
    rewrite split_lacks by (apply numChars_lacks; [reflexivity | now apply digits_numChars]).
    reflexivity.
  - cbn [minutes seconds frames]. repeat split; try assumption; now apply parseInt_num.
Qed.

(** ** Reading back the lines of the serializer *)

Lemma step_cmdLine pre c rest n st :
  forallb isWhiteSpace pre = true ->
  step (cmdLine pre c rest) n st
  = match handler c (trim rest) n st with
    | Ok st' => st'
    | Throw st' m => pushError (mkError n m (cmdLine pre c rest)) st'
    end.
Proof.
  intros H. unfold step, cmdLine. now rewrite parseLine_keyword.
Qed.

Lemma parseLines_app a b : forall i st,
  parseLines (a ++ b) i st = parseLines b (i + length a) (parseLines a i st).
Proof.
  induction a as [|l a IH]; intros i st; simpl.
  - now rewrite Nat.add_0_r.
  - rewrite IH. f_equal. lia.
Qed.

Lemma includes_single c s : includes [c] s = negb (lacks c s).
Proof.
  induction s as [|x s IH]; [reflexivity|].
  simpl. rewrite IH, andb_true_r, negb_andb, negb_involutive.
  now rewrite (Ascii.eqb_sym c x).
Qed.

Lemma escapeString_lacks s : lacks DQ s = true -> escapeString s = s.
Proof.
  induction s as [|x s IH]; [reflexivity|].
  intros H. simpl in H. apply andb_true_iff in H. destruct H as [Hx Hs].
  apply negb_true_iff in Hx. unfold escapeString in *. simpl.
  unfold escapeChar at 1. rewrite Hx. simpl. now rewrite IH.
Qed.

Lemma plainName_noSp s :
  plainName s = true -> lacks SP s = true -> noWs s = true.
Proof.
  unfold plainName, lacks, noWs. intros H1 H2.
  apply andb_true_iff in H1. destruct H1 as [_ H1].
  rewrite forallb_forall in *. intros x Hx.
  specialize (H1 x Hx). specialize (H2 x Hx).
  apply orb_true_iff in H1. destruct H1 as [H1 | H1]; [exact H1|].
  rewrite H1 in H2. discriminate.
Qed.

Lemma formatName_facts f :
  formatName f <> [] /\ noWs (formatName f) = true
  /\ parseFileFormat (formatName f) = Ret f.
Proof. destruct f; repeat split; try discriminate; reflexivity. Qed.

Lemma noWs_trim s : noWs s = true -> trim s = s.
Proof. intros H. apply trim_id; [now apply noWs_head | now apply noWs_last]. Qed.

Lemma noWs_startsWith_DQ s : lacks DQ s = true -> startsWith [DQ] s = false.
Proof.
  destruct s as [|x s]; [reflexivity|]. intros H. simpl in H.
  apply andb_true_iff in H. destruct H as [Hx _]. apply negb_true_iff in Hx.
  unfold startsWith. simpl. now rewrite Hx.
Qed.

Lemma modeName_facts m :
  headNonWs (modeName m) = true /\ noWs (modeName m) = true
  /\ lookupName modeName validModes (toUpperCase (modeName m)) = Some m.
Proof. destruct m; repeat split; reflexivity. Qed.

Lemma num_noWs n : noWs (num n) = true.
Proof. apply numChars_noWs, num_chars. Qed.

Lemma num_head n : headNonWs (num n) = true.
Proof. apply noWs_head, num_noWs. Qed.

Lemma num_sp_trim n b :
  b <> [] -> noWs b = true -> trim (num n ++ SP :: b) = num n ++ SP :: b.
Proof.
  intros Hne Hb. apply trim_id.
  - destruct (num_chars n) as [H _]. pose proof (num_head n) as Hh.
    destruct (num n); [congruence | exact Hh].
  - rewrite last_app_cons. destruct b as [|x b]; [congruence|].
    change (last (SP :: x :: b) "x"%char) with (last (x :: b) "x"%char).
    now apply noWs_last.
Qed.

Lemma handleTrack_line n m args :
  (1 <= n <= 99)%Z ->
  args = num n ++ SP :: modeName m ->
  forall ln st,
    handleTrack (trim args) ln st
    = Ok (openTrack (newTrack n m)
            (match currentTrack st with Some r => pushTrack r st | None => st end)).
Proof.
  intros Hn -> ln st. destruct (modeName_facts m) as [M1 [M2 M3]].
  unfold handleTrack. rewrite trim_idem.
  rewrite num_sp_trim by (try exact M2; destruct m; discriminate).
  rewrite splitWs_app_sp by (try exact M1; apply num_noWs).
  rewrite splitWs_noWs by exact M2.
  rewrite parseInt_num by lia.
  replace (n <? 1)%Z with false by (symmetry; apply Z.ltb_ge; lia).
  replace (99 <? n)%Z with false by (symmetry; apply Z.ltb_ge; lia).
  cbn [orb]. rewrite M3. reflexivity.
Qed.

Lemma formatHMSTime_trim t : trim (formatHMSTime t) = formatHMSTime t.
Proof. apply noWs_trim, formatHMSTime_noWs. Qed.

Lemma flagName_facts f :
  flagName f <> [] /\ noWs (flagName f) = true /\ headNonWs (flagName f) = true
  /\ lookupName flagName validFlags (toUpperCase (flagName f)) = Some f.
Proof. destruct f; repeat split; try discriminate; reflexivity. Qed.

Lemma join_flags_cons f g fl :
  join [SP] (map flagName (f :: g :: fl))
  = flagName f ++ SP :: join [SP] (map flagName (g :: fl)).
Proof. reflexivity. Qed.

Lemma join_flags_shape f fl :
  headNonWs (join [SP] (map flagName (f :: fl))) = true
  /\ join [SP] (map flagName (f :: fl)) <> []
  /\ isWhiteSpace (last (join [SP] (map flagName (f :: fl))) "x"%char) = false
  /\ splitWs (join [SP] (map flagName (f :: fl))) = map flagName (f :: fl).
Proof.
  revert f. induction fl as [|g fl IH]; intros f;
    destruct (flagName_facts f) as [F1 [F2 [F3 F4]]].
  - simpl join. simpl map. repeat split; auto.
    + now apply noWs_last.
    + now apply splitWs_noWs.
  - destruct (IH g) as [I1 [I2 [I3 I4]]]. rewrite join_flags_cons.
    repeat split.
    + destruct (flagName f); [congruence | exact F3].
    + destruct (flagName f); discriminate.
    + rewrite last_app_cons.
      destruct (join [SP] (map flagName (g :: fl))) as [|x r] eqn:E; [congruence|].
      exact I3.
    + rewrite splitWs_app_sp by assumption. rewrite I4. reflexivity.
Qed.

Lemma parseFlags_names fl : forall acc,
  parseFlags (map flagName fl) acc = Ret (acc ++ fl).
Proof.
  induction fl as [|f fl IH]; intros acc; cbn [parseFlags map].
  - now rewrite app_nil_r.
  - destruct (flagName_facts f) as [_ [_ [_ F]]]. rewrite F, IH, <- app_assoc. reflexivity.
Qed.

Lemma textLine_cmdLine pre c kw v :
  str kw = keyword c -> textLine pre kw v = cmdLine pre c (quoted (escapeString v)).
Proof. intros E. unfold textLine, cmdLine. rewrite E. reflexivity. Qed.

Lemma serializeTrackContent_cons t :
  serializeTrackContent t = trackLine t :: contentTail t.
Proof. reflexivity. Qed.

Lemma lacks_escapeString c s :
  Ascii.eqb DQ c = false -> lacks c (escapeString s) = lacks c s.
Proof.
  intros Hc. induction s as [|x s IH]; [reflexivity|].
  unfold escapeString in *. simpl. rewrite lacks_app, IH. f_equal.
  unfold escapeChar. destruct (Ascii.eqb x DQ) eqn:E; simpl.
  - apply Ascii.eqb_eq in E. subst. now rewrite Hc.
  - now rewrite andb_true_r.
Qed.

Lemma lacks_quoted c s : Ascii.eqb DQ c = false -> lacks c (quoted s) = lacks c s.
Proof.
  intros Hc. unfold quoted. simpl. rewrite lacks_app. simpl. rewrite Hc. simpl.
  now rewrite andb_true_r.
Qed.

Lemma lacks_num c n : isNumChar c = false -> lacks c (num n) = true.
Proof. intros Hc. apply numChars_lacks; [exact Hc | apply num_chars]. Qed.

Lemma lacks_formatHMSTime c t :
  isNumChar c = false -> Ascii.eqb COLON c = false -> lacks c (formatHMSTime t) = true.
Proof.
  intros Hc Hcol. unfold formatHMSTime.
  fold (num (hour t)) (num (minute t)) (num (second t)).
  rewrite !lacks_app, !lacks_num by exact Hc. simpl. now rewrite Hcol.
Qed.

Lemma lacks_join c sep ls :
  lacks c sep = true -> Forall (fun l => lacks c l = true) ls -> lacks c (join sep ls) = true.
Proof.
  intros Hs H. induction H as [|l ls Hl Hls IH]; [reflexivity|].
  destruct ls as [|l2 ls]; [exact Hl|].
  change (join sep (l :: l2 :: ls)) with (l ++ sep ++ join sep (l2 :: ls)).
  now rewrite !lacks_app, Hl, Hs, IH.
Qed.

Lemma lacks_textLine pre kw v :
  lacks LF pre = true -> lacks LF (str kw) = true -> lacks LF v = true ->
  lacks LF (textLine pre kw v) = true.
Proof.
  intros H1 H2 H3. unfold textLine.
  rewrite !lacks_app, H1, H2, lacks_quoted, lacks_escapeString, H3 by reflexivity.
  reflexivity.
Qed.

Lemma lacks_whenText o f :
  optOK textOK o -> (forall v, lacks LF v = true -> lacks LF (f v) = true) ->
  Forall (fun l => lacks LF l = true) (whenText o f).
Proof.
  intros Ho Hf. destruct o as [[|c s]|]; simpl; repeat constructor.
  apply Hf. exact Ho.
Qed.

Lemma lacks_remarkLines pre o :
  lacks LF pre = true -> optOK (Forall textOK) o ->
  Forall (fun l => lacks LF l = true) (remarkLines pre o).
Proof.
  intros Hp Ho. destruct o as [l|]; simpl; [|constructor].
  simpl in Ho. induction Ho as [|r l Hr Hl IH]; simpl; constructor; [|exact IH].
  rewrite lacks_app, Hp. simpl. exact Hr.
Qed.

Lemma lacks_fileLine pre f :
  lacks LF pre = true -> lacks LF (filename f) = true -> lacks LF (fileLine pre f) = true.
Proof.
  intros Hp Hf. unfold fileLine, formatStr.
  assert (Hfmt : lacks LF (match format f with Some fmt => SP :: formatName fmt | None => [] end)
                 = true) by (destruct (format f) as [[]|]; reflexivity).
  destruct (includes [SP] (filename f) || includes [DQ] (filename f));
    rewrite !lacks_app, Hp, ?lacks_quoted, ?lacks_escapeString, Hf, Hfmt by reflexivity;
    reflexivity.
Qed.

Lemma lacks_trackLine t : lacks LF (trackLine t) = true.
Proof.
  unfold trackLine. fold (num (number t)).
  rewrite !lacks_app, lacks_num by reflexivity. destruct (mode t); reflexivity.
Qed.

Lemma lacks_indexLine i : lacks LF (indexLine i) = true.
Proof.
  unfold indexLine. fold (num (idx_number i)).
  rewrite !lacks_app, lacks_num, lacks_formatHMSTime by reflexivity. reflexivity.
Qed.

Lemma lacks_flagsLine fl : Forall (fun l => lacks LF l = true) (flagsLine fl).
Proof.
  destruct fl as [|f fl]; [constructor|]. unfold flagsLine. repeat constructor.
  rewrite !lacks_app. rewrite lacks_join; [reflexivity | reflexivity |].
  apply Forall_forall. intros x Hx. apply in_map_iff in Hx.
  destruct Hx as [y [<- _]]. destruct y; reflexivity.
Qed.

Lemma Forall_app_intro {A} (P : A -> Prop) a b : Forall P a -> Forall P b -> Forall P (a ++ b).
Proof. intros. apply Forall_app. now split. Qed.

Lemma lacks_serializeTrackContent t :
  trackOK (rereadTrack t) -> Forall (fun l => lacks LF l = true) (serializeTrackContent t).
Proof.
  intros OK. unfold serializeTrackContent.
  repeat apply Forall_app_intro.
  - repeat constructor. apply lacks_trackLine.
  - apply lacks_whenText; [apply (ok_title _ OK)|]. intros; now apply lacks_textLine.
  - apply lacks_whenText; [apply (ok_performer _ OK)|]. intros; now apply lacks_textLine.
  - apply lacks_whenText; [apply (ok_songwriter _ OK)|]. intros; now apply lacks_textLine.
  - apply lacks_whenText; [apply (ok_composer _ OK)|]. intros; now apply lacks_textLine.
  - apply lacks_whenText; [apply (ok_arranger _ OK)|]. intros; now apply lacks_textLine.
  - apply lacks_whenText; [apply (ok_message _ OK)|]. intros; now apply lacks_textLine.
  - apply lacks_whenText; [apply (ok_isrc _ OK)|]. intros v Hv.
    cbv beta. rewrite !lacks_app, Hv. reflexivity.
  - pose proof (ok_file _ OK) as H. cbn [rereadTrack file] in H.
    destruct (file t) as [f|]; cbn [whenSome optOK] in *;
      repeat constructor.
    now apply lacks_fileLine.
  - destruct (flags t) as [fl|]; cbn [whenSome]; [apply lacks_flagsLine | constructor].
  - destruct (pregap t) as [p|]; cbn [whenSome]; repeat constructor.
    rewrite !lacks_app, lacks_formatHMSTime by reflexivity. reflexivity.
  - destruct (indexes t) as [l|]; cbn [whenSome]; [|constructor].
    apply Forall_forall. intros x Hx. apply in_map_iff in Hx.
    destruct Hx as [y [<- _]]. apply lacks_indexLine.
  - destruct (postgap t) as [p|]; cbn [whenSome]; repeat constructor.
    rewrite !lacks_app, lacks_formatHMSTime by reflexivity. reflexivity.
  - apply lacks_remarkLines; [reflexivity | apply (ok_remarks _ OK)].
Qed.

Lemma fileChanged_file t lastFile f : fileChanged t lastFile = Some f -> file t = Some f.
Proof.
  unfold fileChanged. destruct (file t) as [f0|]; [|discriminate].
  destruct lastFile as [l|]; [destruct (jeqb (filename f0) l)|]; congruence.
Qed.

Lemma lacks_serializeTracksOptimized ts : forall lastFile,
  Forall trackOK (map rereadTrack ts) ->
  Forall (fun l => lacks LF l = true) (serializeTracksOptimized ts lastFile).
Proof.
  induction ts as [|t ts IH]; intros lastFile H; [constructor|].
  cbn [map] in H. inversion H as [|? ? Ht Hts]; subst. cbn [serializeTracksOptimized].
  destruct (fileChanged t lastFile) as [f|] eqn:E.
  - constructor.
    + apply lacks_fileLine; [reflexivity|].
      pose proof (ok_file _ Ht) as Hf. cbn [rereadTrack file] in Hf.
      rewrite (fileChanged_file _ _ _ E) in Hf. exact Hf.
    + apply Forall_app_intro; [now apply lacks_serializeTrackContent | now apply IH].
  - apply Forall_app_intro; [now apply lacks_serializeTrackContent | now apply IH].
Qed.

Lemma allDigits_digits k s : allDigits k s = true -> forallb isDigit s = true.
Proof. unfold allDigits. intros H. apply andb_true_iff in H. tauto. Qed.

Lemma lacks_serializeGlobal g :
  globalOK g -> Forall (fun l => lacks LF l = true) (serializeGlobal g).
Proof.
  intros OK. unfold serializeGlobal.
  repeat apply Forall_app_intro.
  - apply lacks_remarkLines; [reflexivity | apply (ok_g_remarks g OK)].
  - pose proof (ok_g_catalog g OK) as H.
    destruct (g_catalog g) as [[|c s]|]; cbn [whenText optOK] in *; repeat constructor.
    rewrite lacks_app. apply andb_true_iff. split; [reflexivity|].
    apply numChars_lacks; [reflexivity|].
    apply digits_numChars. now apply (allDigits_digits 13).
  - apply lacks_whenText; [apply (ok_g_cdTextFile g OK)|]. intros v Hv.
    cbv beta. rewrite !lacks_app, lacks_quoted, Hv by reflexivity. reflexivity.
  - apply lacks_whenText; [apply (ok_g_title g OK)|]. intros; now apply lacks_textLine.
  - apply lacks_whenText; [apply (ok_g_performer g OK)|]. intros; now apply lacks_textLine.
  - apply lacks_whenText; [apply (ok_g_songwriter g OK)|]. intros; now apply lacks_textLine.
  - apply lacks_whenText; [apply (ok_g_composer g OK)|]. intros; now apply lacks_textLine.
  - apply lacks_whenText; [apply (ok_g_arranger g OK)|]. intros; now apply lacks_textLine.
  - apply lacks_whenText; [apply (ok_g_message g OK)|]. intros; now apply lacks_textLine.
  - apply lacks_whenText; [apply (ok_g_discId g OK)|]. intros; now apply lacks_textLine.
  - apply lacks_whenText; [apply (ok_g_genre g OK)|]. intros; now apply lacks_textLine.
  - apply lacks_whenText; [apply (ok_g_upcEan g OK)|]. intros; now apply lacks_textLine.
Qed.

Lemma step_empty_line n st : step [] n st = st.
Proof. reflexivity. Qed.

(** The document of a shaped final state: its tracks are the objects. *)
Lemma makeResult_shaped st :
  shaped st ->
  makeResult (finalize st) = mkResult (Some (mkSheet (global st) (objs st))) [] (warnings st).
Proof.
  intros [g w | o c g w].
  - reflexivity.
  - unfold finalize, makeResult, pushTrack, inTrack. simpl currentTrack.
    cbn [errors global tracks objs warnings]. f_equal. f_equal. f_equal.
    rewrite <- seq_S.
    replace (S (length o)) with (length (o ++ [c])) by (rewrite length_app; simpl; lia).
    apply deref_seq_all.
Qed.

Lemma In_dropWhile p s x : In x (dropWhile p s) -> In x s.
Proof.
  induction s as [|c s IH]; simpl; [tauto|].
  destruct (p c); simpl; tauto.
Qed.

Lemma In_trimEnd s x : In x (trimEnd s) -> In x s.
Proof.
  induction s as [|c s IH]; simpl; [tauto|].
  destruct (trimEnd s) as [|r rs].
  - destruct (isWhiteSpace c); simpl; tauto.
  - intros [H | H]; [now left | right; now apply IH].
Qed.

Lemma In_trim s x : In x (trim s) -> In x s.
Proof. unfold trim, trimStart. intros H. now apply In_trimEnd, In_dropWhile in H. Qed.

Lemma In_firstn {A} n (l : list A) x : In x (firstn n l) -> In x l.
Proof.
  intros H. rewrite <- (firstn_skipn n l). apply in_or_app. now left.
Qed.

Lemma In_skipn {A} n (l : list A) x : In x (skipn n l) -> In x l.
Proof.
  intros H. rewrite <- (firstn_skipn n l). apply in_or_app. now right.
Qed.

Lemma In_removelast {A} (l : list A) x : In x (removelast l) -> In x l.
Proof.
  induction l as [|a l IH]; simpl; [tauto|].
  destruct l as [|b l]; [simpl; tauto|].
  intros [H | H]; [now left | right; now apply IH].
Qed.

Lemma In_tl {A} (l : list A) x : In x (tl l) -> In x l.
Proof. destruct l; simpl; tauto. Qed.

Lemma In_split_part c s p x : In p (split c s) -> In x p -> In x s.
Proof.
  revert p. induction s as [|y s IH]; intros p Hp Hx; simpl in Hp.
  - destruct Hp as [<- | []]. exact Hx.
  - destruct (Ascii.eqb y c).
    + destruct Hp as [<- | Hp]; [destruct Hx | right; eauto].
    + destruct (split c s) as [|h t] eqn:E; simpl in Hp.
      * destruct Hp as [<- | []]. destruct Hx as [<- | []]. now left.
      * destruct Hp as [<- | Hp].
        -- destruct Hx as [<- | Hx]; [now left | right; apply (IH h); simpl; auto].
        -- right. apply (IH p); simpl; auto.
Qed.

Lemma In_splitWsFrom_part b s p x : In p (splitWsFrom b s) -> In x p -> In x s.
Proof.
  revert b p. induction s as [|y s IH]; intros b p Hp Hx; simpl in Hp.
  - destruct Hp as [<- | []]. exact Hx.
  - destruct (isWhiteSpace y).
    + destruct b.
      * right. eauto.
      * destruct Hp as [<- | Hp]; [destruct Hx | right; eauto].
    + destruct (splitWsFrom false s) as [|h t] eqn:E; simpl in Hp.
      * destruct Hp as [<- | []]. destruct Hx as [<- | []]. now left.
      * destruct Hp as [<- | Hp].
        -- destruct Hx as [<- | Hx]; [now left | right; apply (IH false h); rewrite ?E; simpl; auto].
        -- right. apply (IH false p); rewrite ?E; simpl; auto.
Qed.

Lemma textOK_trim s : textOK s -> textOK (trim s).
Proof. unfold textOK. apply lacks_incl. intros x. apply In_trim. Qed.

Lemma textOK_parseQuotedString s : textOK s -> textOK (parseQuotedString s).
Proof.
  intros H. unfold parseQuotedString.
  destruct (_ && _ && _); [|now apply textOK_trim].
  unfold textOK, slice1m1. apply (lacks_incl LF _ (trim s)); [|now apply textOK_trim].
  intros x Hx. now apply In_removelast, In_tl in Hx.
Qed.

Lemma textOK_split_last c s d : textOK s -> textOK d -> textOK (last (split c s) d).
Proof.
  intros Hs Hd. pose proof (split_nonempty c s) as Hne.
  destruct (exists_last Hne) as [l [p E]]. rewrite E, last_snoc.
  unfold textOK. apply (lacks_incl LF _ s); [|exact Hs].
  intros x Hx. apply (In_split_part c s p); [|exact Hx].
  rewrite E. apply in_or_app. right. now left.
Qed.

Lemma textOK_parseFileArgs args fname fmt :
  textOK args -> parseFileArgs args = Ret (fname, fmt) -> textOK fname.
Proof.
  intros Ha. unfold parseFileArgs.
  destruct (startsWith [DQ] (trim args)).
  - destruct (indexOf DQ 1 (trim args)) as [e|]; [|discriminate].
    assert (T : textOK (substring 1 e (trim args))).
    { unfold textOK, substring. apply (lacks_incl LF _ (trim args)); [|now apply textOK_trim].
      intros x Hx. now apply In_firstn, In_skipn in Hx. }
    destruct (isEmpty _); [intros H; inversion H; subst; exact T|].
    destruct (parseFileFormat _); simpl; [|discriminate].
    intros H; inversion H; subst; exact T.
  - destruct (splitWs (trim args)) as [|p0 [|p1 ps]] eqn:E.
    + intros H; inversion H; subst. reflexivity.
    + intros H; inversion H; subst.
      unfold textOK. apply (lacks_incl LF _ (trim args)); [|now apply textOK_trim].
      intros x Hx. apply (In_splitWsFrom_part false (trim args) fname); [|exact Hx].
      unfold splitWs in E. rewrite E. now left.
    + assert (T : textOK p0).
      { unfold textOK. apply (lacks_incl LF _ (trim args)); [|now apply textOK_trim].
        intros x Hx. apply (In_splitWsFrom_part false (trim args) p0); [|exact Hx].
        unfold splitWs in E. rewrite E. now left. }
      destruct (isEmpty p1); [intros H; inversion H; subst; exact T|].
      destruct (parseFileFormat p1); simpl; [|discriminate].
      intros H; inversion H; subst; exact T.
Qed.

Lemma trackOK_newTrack n m : (1 <= n <= 99)%Z -> trackOK (newTrack n m).
Proof. intros H. constructor; simpl; auto. Qed.

Lemma Forall_updateAt r f l :
  (forall t, trackOK t -> trackOK (f t)) -> Forall trackOK l -> Forall trackOK (updateAt r f l).
Proof.
  intros Hf H. revert r. induction H as [|x l Hx Hl IH]; intros r; [destruct r; constructor|].
  destruct r; simpl; constructor; auto.
Qed.

Lemma stateOK_updTrack r f st :
  (forall t, trackOK t -> trackOK (f t)) -> stateOK st -> stateOK (updTrack r f st).
Proof.
  intros Hf [Hg Ho]. split; [exact Hg|]. simpl. now apply Forall_updateAt.
Qed.

Lemma stateOK_updGlobal f st :
  (forall g, globalOK g -> globalOK (f g)) -> stateOK st -> stateOK (updGlobal f st).
Proof. intros Hf [Hg Ho]. split; [simpl; auto | exact Ho]. Qed.

Lemma stateOK_push st :
  stateOK st ->
  (forall e, stateOK (pushWarning e st)) /\ (forall e, stateOK (pushError e st))
  /\ (forall r, stateOK (pushTrack r st))
  /\ (forall t, trackOK t -> stateOK (openTrack t st)).
Proof.
  intros [Hg Ho].
  split; [intros e; split; assumption|].
  split; [intros e; split; assumption|].
  split; [intros r; split; assumption|].
  intros t Ht. split; [exact Hg|].
  simpl. apply Forall_app_intro; [exact Ho | constructor; [exact Ht | constructor]].
Qed.

Lemma pushOpt_Forall {A} (P : A -> Prop) o x :
  optOK (Forall P) o -> P x -> optOK (Forall P) (pushOpt o x).
Proof.
  destruct o as [l|]; simpl; intros Ho Hx.
  - apply Forall_app_intro; [exact Ho | now repeat constructor].
  - now repeat constructor.
Qed.

Lemma parseMSFTime_timeOK s t : parseMSFTime s = Ret t -> timeOK t.
Proof. intros H. apply parseMSFTime_Ret in H. destruct H as [_ H]. exact H. Qed.

(** Every handler keeps the records valid, whether it returns or throws. *)
Lemma handler_stateOK c args n st :
  textOK args -> stateOK st -> stateOK (outState (handler c args n st)).
Proof.
  intros Ha OK. pose proof (stateOK_push st OK) as [PW [PE [PT PO]]].
  destruct c; unfold handler.
  - (* REM *)
    unfold handleRemark. destruct (currentTrack st); simpl.
    + apply stateOK_updTrack; [|exact OK]. intros t Ht.
      pose proof (pushOpt_Forall textOK (remarks t) args (ok_remarks t Ht) Ha).
      destruct Ht; constructor; simpl; assumption.
    + apply stateOK_updGlobal; [|exact OK]. intros g Hg.
      pose proof (pushOpt_Forall textOK (g_remarks g) args (ok_g_remarks g Hg) Ha).
      destruct Hg; constructor; simpl; assumption.
  - (* CATALOG *)
    unfold handleCatalog. destruct (allDigits 13 (trim args)) eqn:E; simpl; [|exact OK].
    apply stateOK_updGlobal; [|exact OK]. intros g Hg.
    destruct Hg; constructor; simpl; assumption.
  - (* CDTEXTFILE *)
    unfold handleCdTextFile. simpl. apply stateOK_updGlobal; [|exact OK]. intros g Hg.
    pose proof (textOK_parseQuotedString args Ha).
    destruct Hg; constructor; simpl; assumption.
  - (* FILE *)
    unfold handleFile. destruct (parseFileArgs args) as [[fname fmt]|m] eqn:E; [|exact OK].
    destruct (currentTrack st); simpl; [|apply PW].
    apply stateOK_updTrack; [|exact OK]. intros t Ht.
    assert (F : textOK (last (split SLASH fname) (str "[EMPTY FILE NAME]"))).
    { apply textOK_split_last; [|reflexivity]. now apply (textOK_parseFileArgs args fname fmt). }
    destruct Ht; constructor; simpl; assumption.
  - (* TRACK *)
    unfold handleTrack.
    set (st1 := match currentTrack st with Some r => pushTrack r st | None => st end).
    assert (OK1 : stateOK st1) by (subst st1; destruct (currentTrack st); [apply PT | exact OK]).
    destruct (splitWs (trim args)) as [|p0 [|p1 ps]]; try exact OK1.
    destruct (parseInt p0) as [k|]; [|exact OK1].
    destruct ((k <? 1) || (99 <? k))%Z eqn:E; [exact OK1|].
    destruct (lookupName modeName validModes (toUpperCase p1)); [|exact OK1].
    simpl. apply (stateOK_push st1 OK1). apply trackOK_newTrack.
    apply orb_false_iff in E. destruct E as [E1 E2].
    apply Z.ltb_ge in E1, E2. lia.
  - (* INDEX *)
    unfold handleIndex. destruct (currentTrack st); [|exact OK].
    destruct (splitWs (trim args)) as [|p0 [|p1 ps]]; try exact OK.
    destruct (parseInt p0) as [k|]; [|exact OK].
    destruct ((k <? 0) || (99 <? k))%Z eqn:E; [exact OK|].
    destruct (parseMSFTime p1) as [time|] eqn:T; [|exact OK].
    simpl. apply stateOK_updTrack; [|exact OK]. intros t Ht.
    assert (I : indexOK (mkIndex k time)).
    { apply orb_false_iff in E. destruct E as [E1 E2]. apply Z.ltb_ge in E1, E2.
      split; [simpl; lia | now apply (parseMSFTime_timeOK p1)]. }
    pose proof (pushOpt_Forall indexOK (indexes t) _ (ok_indexes t Ht) I).
    destruct Ht; constructor; simpl; assumption.
  - (* PREGAP *)
    unfold handlePregap. destruct (currentTrack st); [|exact OK].
    destruct (parseMSFTime (trim args)) as [time|] eqn:T; [|exact OK].
    simpl. apply stateOK_updTrack; [|exact OK]. intros t Ht.
    pose proof (parseMSFTime_timeOK _ _ T).
    destruct Ht; constructor; simpl; assumption.
  - (* POSTGAP *)
    unfold handlePostgap. destruct (currentTrack st); [|exact OK].
    destruct (parseMSFTime (trim args)) as [time|] eqn:T; [|exact OK].
    simpl. apply stateOK_updTrack; [|exact OK]. intros t Ht.
    pose proof (parseMSFTime_timeOK _ _ T).
    destruct Ht; constructor; simpl; assumption.
  - (* FLAGS *)
    unfold handleFlags. destruct (currentTrack st); [|exact OK].
    destruct (parseFlags (splitWs (trim args)) []); [|exact OK].
    simpl. apply stateOK_updTrack; [|exact OK]. intros t Ht.
    destruct Ht; constructor; simpl; assumption.
  - (* ISRC *)
    unfold handleIsrc. destruct (currentTrack st); [|exact OK].
    simpl. apply stateOK_updTrack.
    + intros t Ht. pose proof (textOK_trim args Ha).
      destruct Ht; constructor; simpl; assumption.
    + destruct (negb (allUpperAlnum 12 (trim args))); [apply PW | exact OK].
  - unfold handleTitle, setText. pose proof (textOK_parseQuotedString args Ha).
    destruct (currentTrack st); simpl;
      [apply stateOK_updTrack | apply stateOK_updGlobal]; try exact OK;
      intros x Hx; destruct Hx; constructor; simpl; assumption.
  - unfold handlePerformer, setText. pose proof (textOK_parseQuotedString args Ha).
    destruct (currentTrack st); simpl;
      [apply stateOK_updTrack | apply stateOK_updGlobal]; try exact OK;
      intros x Hx; destruct Hx; constructor; simpl; assumption.
  - unfold handleSongwriter, setText. pose proof (textOK_parseQuotedString args Ha).
    destruct (currentTrack st); simpl;
      [apply stateOK_updTrack | apply stateOK_updGlobal]; try exact OK;
      intros x Hx; destruct Hx; constructor; simpl; assumption.
  - unfold handleComposer, setText. pose proof (textOK_parseQuotedString args Ha).
    destruct (currentTrack st); simpl;
      [apply stateOK_updTrack | apply stateOK_updGlobal]; try exact OK;
      intros x Hx; destruct Hx; constructor; simpl; assumption.
  - unfold handleArranger, setText. pose proof (textOK_parseQuotedString args Ha).
    destruct (currentTrack st); simpl;
      [apply stateOK_updTrack | apply stateOK_updGlobal]; try exact OK;
      intros x Hx; destruct Hx; constructor; simpl; assumption.
  - unfold handleMessage, setText. pose proof (textOK_parseQuotedString args Ha).
    destruct (currentTrack st); simpl;
      [apply stateOK_updTrack | apply stateOK_updGlobal]; try exact OK;
      intros x Hx; destruct Hx; constructor; simpl; assumption.
  - unfold handleDiscId. pose proof (textOK_parseQuotedString args Ha). simpl.
    apply stateOK_updGlobal; [|exact OK]. intros x Hx.
    destruct Hx; constructor; simpl; assumption.
  - unfold handleGenre. pose proof (textOK_parseQuotedString args Ha). simpl.
    apply stateOK_updGlobal; [|exact OK]. intros x Hx.
    destruct Hx; constructor; simpl; assumption.
  - unfold handleUpcEan. pose proof (textOK_parseQuotedString args Ha). simpl.
    apply stateOK_updGlobal; [|exact OK]. intros x Hx.
    destruct Hx; constructor; simpl; assumption.
Qed.

Lemma parseCommand_textOK l cmd args :
  textOK l -> parseCommand l = (cmd, args) -> textOK args.
Proof.
  intros Hl. unfold parseCommand.
  destruct (indexOf SP 0 (trim l)) as [i|]; intros H; inversion H; subst; [|reflexivity].
  apply textOK_trim. unfold textOK, substringFrom.
  apply (lacks_incl LF _ (trim l)); [|now apply textOK_trim].
  intros x. apply In_skipn.
Qed.

Lemma parseLine_stateOK l n st :
  textOK l -> stateOK st -> stateOK (outState (parseLine l n st)).
Proof.
  intros Hl OK. unfold parseLine.
  destruct (isEmpty (trim l)); [exact OK|].
  destruct (parseCommand (trim l)) as [command args] eqn:E.
  destruct (isEmpty command); [exact OK|].
  destruct (lookupName keyword commands (toUpperCase command)).
  - apply handler_stateOK; [|exact OK].
    apply (parseCommand_textOK (trim l) command); [now apply textOK_trim | exact E].
  - simpl. now apply stateOK_push.
Qed.

Lemma step_stateOK l n st : textOK l -> stateOK st -> stateOK (step l n st).
Proof.
  intros Hl OK. pose proof (parseLine_stateOK l n st Hl OK) as H. unfold step.
  destruct (parseLine l n st); simpl in H; [exact H | now apply stateOK_push].
Qed.

Lemma parseLines_stateOK ls : forall i st,
  Forall textOK ls -> stateOK st -> stateOK (parseLines ls i st).
Proof.
  induction ls as [|l ls IH]; intros i st H OK; [exact OK|].
  inversion H; subst. simpl. apply IH; [assumption|]. now apply step_stateOK.
Qed.

Lemma deref_In store refs t : In t (deref store refs) -> In t store.
Proof.
  unfold deref. intros H. apply in_flat_map in H. destruct H as [r [_ H]].
  destruct (nth_error store r) eqn:E; [|destruct H].
  destruct H as [<- | []]. now apply nth_error_In with r.
Qed.

Lemma globalOK_empty : globalOK emptyGlobal.
Proof. constructor; exact I. Qed.

(** The document of a result is valid: track numbers from 1 to 99, index
    numbers from 0 to 99, times within their bounds, a catalog of 13 digits,
    and no line feed in any text. *)
Lemma parse_docOK this content d :
  cueSheet (snd (parse this content)) = Some d -> docOK d.
Proof.
  unfold parse, makeResult. simpl. destruct (errors (run content this)); [|discriminate].
  intros H. inversion H; subst; clear H.
  assert (OK : stateOK (run content this)).
  { unfold run.
    assert (OK0 : stateOK (parseLines (split LF content) 0 (reset this))).
    { apply parseLines_stateOK; [apply split_parts_lack|].
      split; [apply globalOK_empty | constructor]. }
    unfold finalize.
    destruct (currentTrack (parseLines (split LF content) 0 (reset this)));
      [now apply stateOK_push | exact OK0]. }
  destruct OK as [Hg Ho]. split; [exact Hg|]. simpl.
  apply Forall_forall. intros t Ht. apply deref_In in Ht.
  rewrite Forall_forall in Ho. auto.
Qed.

Lemma insertIndex_perm {T} (x : TrackIndex T) l : Permutation (insertIndex x l) (x :: l).
Proof.
  induction l as [|y l IH]; simpl; [apply Permutation_refl|].
  destruct (idx_number y <? idx_number x)%Z; [|apply Permutation_refl].
  eapply Permutation_trans; [apply perm_skip, IH | apply perm_swap].
Qed.

Lemma sortIndexes_perm {T} (l : list (TrackIndex T)) : Permutation (sortIndexes l) l.
Proof.
  induction l as [|x l IH]; simpl; [constructor|].
  eapply Permutation_trans; [apply insertIndex_perm | now apply perm_skip].
Qed.

Lemma isPrefix_app_sep pat c b : forall s,
  lacks c pat = true -> isPrefix pat (s ++ c :: b) = isPrefix pat s.
Proof.
  induction pat as [|p pat IH]; intros s H; [destruct s; reflexivity|].
  simpl in H. apply andb_true_iff in H. destruct H as [Hp Hpat].
  apply negb_true_iff in Hp.
  destruct s as [|y s]; simpl.
  - now rewrite Hp.
  - now rewrite IH.
Qed.

Lemma includes_nil pat : pat <> [] -> includes pat [] = false.
Proof. destruct pat; [congruence | reflexivity]. Qed.

(** A pattern that lacks [c] does not straddle an occurrence of [c]. *)
Lemma includes_app_sep pat c a b :
  pat <> [] -> lacks c pat = true ->
  includes pat (a ++ c :: b) = includes pat a || includes pat b.
Proof.
  intros Hne H. induction a as [|x a IH].
  - simpl app. rewrite includes_nil by exact Hne. simpl.
    change (c :: b) with ([] ++ c :: b). rewrite isPrefix_app_sep by exact H.
    destruct pat; [congruence | reflexivity].
  - simpl app. simpl includes. rewrite IH.
    change (x :: a ++ c :: b) with ((x :: a) ++ c :: b).
    rewrite isPrefix_app_sep by exact H. now rewrite orb_assoc.
Qed.

Lemma includes_join_lines pat ls :
  pat <> [] -> lacks LF pat = true ->
  includes pat (join [LF] ls ++ [LF]) = existsb (includes pat) ls.
Proof.
  intros Hne H. rewrite includes_app_sep, includes_nil, orb_false_r by assumption.
  induction ls as [|l ls IH]; [now apply includes_nil|].
  destruct ls as [|l2 ls]; [simpl; now rewrite orb_false_r|].
  change (join [LF] (l :: l2 :: ls)) with (l ++ LF :: join [LF] (l2 :: ls)).
  rewrite includes_app_sep, IH by assumption. reflexivity.
Qed.

Lemma isPrefix_lacks c pat s : In c pat -> lacks c s = true -> isPrefix pat s = false.
Proof.
  revert s. induction pat as [|p pat IH]; intros s Hin Hs; [destruct Hin|].
  destruct s as [|y s]; [reflexivity|].
  simpl in Hs. apply andb_true_iff in Hs. destruct Hs as [Hy Hs].
  apply negb_true_iff in Hy. simpl.
  destruct Hin as [-> | Hin].
  - rewrite Ascii.eqb_sym, Hy. reflexivity.
  - rewrite (IH s Hin Hs). apply andb_false_r.
Qed.

(** A text that lacks a character of the pattern does not contain it. *)
Lemma includes_lacks c pat s : In c pat -> lacks c s = true -> includes pat s = false.
Proof.
  intros Hin. induction s as [|y s IH]; intros Hs.
  - destruct pat; [destruct Hin | reflexivity].
  - simpl. rewrite (isPrefix_lacks c pat (y :: s) Hin Hs).
    simpl in Hs. apply andb_true_iff in Hs. destruct Hs as [_ Hs]. now apply IH.
Qed.

Lemma isPrefix_escapeString pat : forall s,
  lacks DQ pat = true -> isPrefix pat (escapeString s) = isPrefix pat s.
Proof.
  induction pat as [|p pat IH]; intros s H; [destruct s; reflexivity|].
  simpl in H. apply andb_true_iff in H. destruct H as [Hp Hpat].
  apply negb_true_iff in Hp.
  destruct s as [|y s]; [reflexivity|].
  unfold escapeString. simpl flat_map. unfold escapeChar at 1.
  destruct (Ascii.eqb y DQ) eqn:E.
  - apply Ascii.eqb_eq in E. subst. simpl. now rewrite Hp.
  - simpl. fold (escapeString s). now rewrite IH.
Qed.

Lemma includes_escapeString pat s :
  pat <> [] -> lacks DQ pat = true -> includes pat (escapeString s) = includes pat s.
Proof.
  intros Hne H. induction s as [|y s IH]; [reflexivity|].
  destruct (Ascii.eqb y DQ) eqn:E.
  - apply Ascii.eqb_eq in E. subst.
    change (escapeString (DQ :: s)) with ([] ++ DQ :: [] ++ DQ :: escapeString s).
    rewrite !includes_app_sep, IH by assumption.
    change (DQ :: s) with ([] ++ DQ :: s). rewrite includes_app_sep by assumption.
    rewrite includes_nil by exact Hne. reflexivity.
  - assert (Es : escapeString (y :: s) = y :: escapeString s).
    { unfold escapeString. simpl. unfold escapeChar at 1. now rewrite E. }
    rewrite Es. cbn [includes]. rewrite IH. f_equal.
    rewrite <- Es. now apply isPrefix_escapeString.
Qed.

Lemma includes_quoted pat s :
  pat <> [] -> lacks DQ pat = true ->
  includes pat (quoted (escapeString s)) = includes pat s.
Proof.
  intros Hne H. unfold quoted.
  change (DQ :: escapeString s ++ [DQ]) with ([] ++ DQ :: escapeString s ++ DQ :: []).
  rewrite !includes_app_sep, includes_escapeString, includes_nil by assumption.
  now rewrite orb_false_r.
Qed.

Lemma fieldPattern_facts pat :
  isFieldPattern pat ->
  pat <> [] /\ lacks DQ pat = true /\ lacks LF pat = true
  /\ exists c, In c pat /\ isNumChar c = false /\ lacks c (str "TRACK AUDIOCDGMODE1/CDI2: ") = true
               /\ lacks c tabs3 = true.
Proof.
  intros [-> | ->]; repeat split; try discriminate.
  - exists "P"%char. repeat split. simpl. tauto.
  - exists "X"%char. repeat split. simpl. tauto.
Qed.

Lemma trackLine_free pat t : isFieldPattern pat -> includes pat (trackLine t) = false.
Proof.
  intros Hp. destruct (fieldPattern_facts pat Hp) as [_ [_ [_ [c [Hin [Hn [Hc _]]]]]]].
  apply (includes_lacks c); [exact Hin|].
  unfold trackLine. fold (num (number t)).
  rewrite !lacks_app, lacks_num by exact Hn.
  destruct Hp as [-> | ->]; simpl in Hin;
    repeat (destruct Hin as [<- | Hin]; [try discriminate; destruct (mode t); reflexivity|]);
    try contradiction.
Qed.

Lemma textLine_free pat pre kw v :
  isFieldPattern pat -> includes pat v = false ->
  includes pat (pre ++ str kw ++ [SP]) = false ->
  includes pat (textLine pre kw v) = false.
Proof.
  intros Hp Hv Hpre. destruct (fieldPattern_facts pat Hp) as [Hne [Hdq _]].
  unfold textLine, quoted.
  replace (pre ++ str kw ++ [SP] ++ DQ :: escapeString v ++ [DQ])
    with ((pre ++ str kw ++ [SP]) ++ DQ :: escapeString v ++ DQ :: [])
    by (now rewrite <- !app_assoc).
  rewrite !includes_app_sep, includes_escapeString, Hv, Hpre, includes_nil by assumption.
  reflexivity.
Qed.

Lemma whenText_free pat pre kw o :
  isFieldPattern pat -> optFree pat o = true ->
  includes pat (pre ++ str kw ++ [SP]) = false ->
  existsb (includes pat) (whenText o (textLine pre kw)) = false.
Proof.
  intros Hp Ho Hpre. destruct o as [[|c s]|]; simpl; try reflexivity.
  simpl in Ho. apply negb_true_iff in Ho. rewrite textLine_free by assumption. reflexivity.
Qed.

Lemma minimalFile_free pat f :
  isFieldPattern pat -> includes pat (filename f) = false ->
  includes pat (tabs3 ++ str "FILE " ++ quoted (escapeString (filename f)) ++ formatStr f)
  = false.
Proof.
  intros Hp Hf. destruct (fieldPattern_facts pat Hp) as [Hne [Hdq _]].
  unfold quoted.
  replace (tabs3 ++ str "FILE " ++ (DQ :: escapeString (filename f) ++ [DQ]) ++ formatStr f)
    with ((tabs3 ++ str "FILE ") ++ DQ :: escapeString (filename f) ++ DQ :: formatStr f)
    by (simpl; now rewrite <- !app_assoc).
  rewrite !includes_app_sep, includes_escapeString, Hf by assumption.
  unfold formatStr.
  destruct Hp as [-> | ->]; destruct (format f) as [[]|]; reflexivity.
Qed.

Lemma includes_index01 pat T :
  isFieldPattern pat -> (forall c, isNumChar c = false -> Ascii.eqb COLON c = false ->
                                   lacks c T = true) ->
  includes pat (tabs3 ++ str "INDEX 01 " ++ T) = false.
Proof.
  intros Hp HT. destruct Hp as [-> | ->].
  - apply (includes_lacks "P"%char); [simpl; tauto|].
    rewrite !lacks_app, HT by reflexivity. reflexivity.
  - assert (E : includes (str "INDEX 00") T = false).
    { apply (includes_lacks "X"%char); [simpl; tauto|]. apply HT; reflexivity. }
    simpl. exact E.
Qed.

Lemma minimalTrack_free pat t :
  isFieldPattern pat ->
  optFree pat (title t) && optFree pat (option_map filename (file t)) = true ->
  existsb (includes pat) (minimalTrack t) = false.
Proof.
  intros Hp H. apply andb_true_iff in H. destruct H as [Ht Hf].
  unfold minimalTrack. rewrite !existsb_app.
  cbn [existsb]. rewrite trackLine_free by exact Hp.
  rewrite whenText_free; try assumption.
  2:{ destruct Hp as [-> | ->]; reflexivity. }
  assert (F : existsb (includes pat)
                (whenSome (file t)
                   (fun f => [tabs3 ++ str "FILE " ++ quoted (escapeString (filename f))
                              ++ formatStr f])) = false).
  { destruct (file t) as [f|]; cbn [whenSome existsb]; [|reflexivity].
    simpl in Hf. apply negb_true_iff in Hf. rewrite minimalFile_free by assumption.
    reflexivity. }
  rewrite F.
  destruct (indexes t) as [l|]; cbn [whenSome existsb orb]; [|reflexivity].
  destruct (mainIndexOf l) as [mi|]; cbn [whenSome existsb orb]; [|reflexivity].
  rewrite includes_index01; [reflexivity | exact Hp |].
  intros c Hc Hcol. now apply lacks_formatHMSTime.
Qed.

(** X16: C8, as the code has it: the minimal sheet contains PREGAP, or INDEX 00,
    only where a global title or performer, a track title or a file name of
    the document contains it: when none of these texts contains the word,
    the output does not contain it, whatever pregap fields and index
    entries numbered 0 the tracks carry. *)
Theorem minimal_sheet_omits_pregap_and_index0 :
  forall d pat,
    isFieldPattern pat ->
    minimalTextsFree pat d = true ->
    includes pat (createMinimalCueSheet d) = false.
Proof.
  intros d pat Hp H. destruct (fieldPattern_facts pat Hp) as [Hne [_ [Hlf _]]].
  unfold createMinimalCueSheet. rewrite includes_join_lines by assumption.
  unfold minimalTextsFree in H. apply andb_true_iff in H. destruct H as [H Ht].
  apply andb_true_iff in H. destruct H as [Hgt Hgp].
  rewrite !existsb_app.
  rewrite whenText_free; try assumption.
  2:{ destruct Hp as [-> | ->]; reflexivity. }
  rewrite whenText_free; try assumption.
  2:{ destruct Hp as [-> | ->]; reflexivity. }
  cbn [orb]. induction (cs_tracks d) as [|t ts IH]; [reflexivity|].
  simpl in Ht. apply andb_true_iff in Ht. destruct Ht as [H1 H2].
  cbn [flat_map]. rewrite existsb_app, minimalTrack_free, IH by assumption. reflexivity.
Qed.

Lemma minimal_sheet_omits_pregap_and_index0_witness :
  includes (str "INDEX 00")
    (createMinimalCueSheet
       (mkSheet emptyGlobal
          [set_pregap (Some (mkHMS 0 2 0))
             (set_indexes (Some [mkIndex 0 (mkHMS 0 0 0); mkIndex 1 (mkHMS 0 2 0)])
                (newTrack 1 AUDIO))]))
  = false.
Proof.
  apply minimal_sheet_omits_pregap_and_index0; [right; reflexivity | reflexivity].
Defined.

(** C8 as stated fails: the sheet with the lines TRACK 01 AUDIO and TITLE
    PREGAP parses without error, and the minimal sheet of its document
    contains PREGAP, in the title line. *)
Lemma minimal_sheet_counterexample :
  parseCueSheet pregapTitleSheet = mkResult (Some pregapTitleDoc) [] []
  /\ createMinimalCueSheet pregapTitleDoc
     = lines [tabs2 ++ str "TRACK 01 AUDIO"; tabs3 ++ str "TITLE " ++ quoted (str "PREGAP")]
       ++ [LF]
  /\ includes (str "PREGAP") (createMinimalCueSheet pregapTitleDoc) = true.
Proof. repeat split; vm_compute; reflexivity. Qed.

(** ** The trailing line feed *)

Lemma last_nonempty_default {A} (l : list A) d d' : l <> [] -> last l d = last l d'.
Proof.
  induction l as [|x l IH]; [congruence|]. intros _.
  destruct l as [|y l]; [reflexivity|].
  change (last (x :: y :: l) d) with (last (y :: l) d).
  change (last (x :: y :: l) d') with (last (y :: l) d').
  apply IH. discriminate.
Qed.

Lemma properLine_nonempty l : properLine l -> l <> [].
Proof. unfold properLine. intros H ->. now apply H. Qed.

Lemma properLine_app_r a b : properLine b -> properLine (a ++ b).
Proof.
  intros H. pose proof (properLine_nonempty b H) as Hne.
  unfold properLine in *. destruct b as [|x b]; [congruence|].
  now rewrite last_app_cons.
Qed.

Lemma properLine_app_l a b : properLine a -> endsOK b = true -> properLine (a ++ b).
Proof.
  intros Ha Hb. destruct b as [|x b]; [now rewrite app_nil_r|].
  unfold properLine. rewrite last_app_cons.
  unfold endsOK in Hb. apply negb_true_iff, Ascii.eqb_neq in Hb.
  now rewrite (last_nonempty_default (x :: b) LF SP) by discriminate.
Qed.

Lemma properLine_snoc a c : c <> LF -> properLine (a ++ [c]).
Proof. intros H. unfold properLine. now rewrite last_snoc. Qed.

Lemma properLine_lacks s : s <> [] -> lacks LF s = true -> properLine s.
Proof.
  intros Hne H. unfold properLine. intros E.
  apply lacks_In in H. apply H. rewrite <- E.
  destruct (exists_last Hne) as [l [x ->]]. rewrite last_snoc.
  apply in_or_app. right. now left.
Qed.

Lemma properLine_quoted s : properLine (quoted s).
Proof.
  unfold quoted. change (DQ :: s ++ [DQ]) with ((DQ :: s) ++ [DQ]).
  apply properLine_snoc. discriminate.
Qed.

Lemma properLine_time t : properLine (formatHMSTime t).
Proof.
  apply properLine_lacks; [apply formatHMSTime_nonempty|].
  now apply lacks_formatHMSTime.
Qed.

(** The last character of the joined lines is that of the last line. *)
Lemma last_join ls :
  ls <> [] -> last (join [LF] ls) LF = last (last ls []) LF.
Proof.
  induction ls as [|l ls IH]; [congruence|]. intros _.
  destruct ls as [|l2 ls]; [reflexivity|].
  change (join [LF] (l :: l2 :: ls)) with (l ++ LF :: join [LF] (l2 :: ls)).
  rewrite last_app_cons.
  change (last (l :: l2 :: ls) []) with (last (l2 :: ls) []).
  rewrite <- IH by discriminate.
  destruct (join [LF] (l2 :: ls)); reflexivity.
Qed.

Lemma oneTrailingLF_join ls :
  ls = [] \/ properLine (last ls []) -> oneTrailingLF (join [LF] ls ++ [LF]).
Proof.
  intros H. exists (join [LF] ls). split; [reflexivity|].
  destruct H as [-> | H]; [discriminate|].
  assert (Hne : ls <> []).
  { intros ->. now apply H. }
  unfold properLine in H. rewrite <- last_join in H by exact Hne.
  destruct (join [LF] ls) as [|x r] eqn:E; [now elim H|].
  now rewrite (last_nonempty_default (x :: r) SP LF) by discriminate.
Qed.

Lemma last_Forall {A} (P : A -> Prop) (l : list A) d : l <> [] -> Forall P l -> P (last l d).
Proof.
  intros Hne H. destruct (exists_last Hne) as [l' [x ->]]. rewrite last_snoc.
  apply Forall_app in H. destruct H as [_ H]. now inversion H.
Qed.

Lemma oneTrailingLF_proper ls : Forall properLine ls -> oneTrailingLF (join [LF] ls ++ [LF]).
Proof.
  intros H. apply oneTrailingLF_join.
  destruct ls as [|l ls]; [now left | right].
  apply last_Forall; [discriminate | exact H].
Qed.

Lemma proper_trackLine t : properLine (trackLine t).
Proof.
  unfold trackLine. rewrite !app_assoc. apply properLine_app_r.
  destruct (mode t); vm_compute; discriminate.
Qed.

Lemma proper_textLine pre kw v : properLine (textLine pre kw v).
Proof. unfold textLine. rewrite !app_assoc. apply properLine_app_r, properLine_quoted. Qed.

Lemma proper_whenText o f :
  (forall v, v <> [] -> properLine (f v)) -> Forall properLine (whenText o f).
Proof.
  intros H. destruct o as [[|c s]|]; simpl; repeat constructor. apply H. discriminate.
Qed.

Lemma proper_remarkLines pre o :
  listEndsOK o = true -> Forall properLine (remarkLines pre o).
Proof.
  unfold remarkLines. destruct o as [l|]; cbn [whenSome listEndsOK]; [|constructor].
  intros H.
  apply Forall_forall. intros x Hx. apply in_map_iff in Hx. destruct Hx as [r [<- Hr]].
  rewrite forallb_forall in H. rewrite app_assoc.
  apply properLine_app_l; [|now apply H].
  apply properLine_app_r. vm_compute; discriminate.
Qed.

Lemma proper_formatStr f : format f <> None -> properLine (formatStr f).
Proof.
  unfold formatStr. destruct (format f) as [[]|]; try congruence;
    intros _; vm_compute; discriminate.
Qed.

Lemma proper_fileLine pre f : endsOK (filename f) = true -> properLine (fileLine pre f).
Proof.
  intros H. unfold fileLine.
  destruct (includes [SP] (filename f) || includes [DQ] (filename f)).
  - destruct (format f) eqn:E.
    + rewrite !app_assoc. apply properLine_app_r, proper_formatStr. congruence.
    + unfold formatStr. rewrite E, app_nil_r, app_assoc.
      apply properLine_app_r, properLine_quoted.
  - destruct (format f) eqn:E.
    + rewrite !app_assoc. apply properLine_app_r, proper_formatStr. congruence.
    + unfold formatStr. rewrite E, app_nil_r, app_assoc.
      apply properLine_app_l; [|exact H].
      apply properLine_app_r. vm_compute; discriminate.
Qed.

Lemma proper_indexLine i : properLine (indexLine i).
Proof. unfold indexLine. rewrite !app_assoc. apply properLine_app_r, properLine_time. Qed.

Lemma proper_flagsLine fl : Forall properLine (flagsLine fl).
Proof.
  destruct fl as [|f fl]; [constructor|]. unfold flagsLine. repeat constructor.
  rewrite app_assoc. apply properLine_app_r.
  destruct (join_flags_shape f fl) as [_ [Hne _]].
  apply properLine_lacks; [exact Hne|].
  apply lacks_join; [reflexivity|].
  apply Forall_forall. intros x Hx. apply in_map_iff in Hx.
  destruct Hx as [y [<- _]]. destruct y; reflexivity.
Qed.

Lemma proper_serializeTrackContent t :
  trackEndsOK t = true -> Forall properLine (serializeTrackContent t).
Proof.
  intros H. unfold trackEndsOK in H. apply andb_true_iff in H. destruct H as [H Hr].
  apply andb_true_iff in H. destruct H as [Hi Hf].
  unfold serializeTrackContent. repeat apply Forall_app_intro.
  - repeat constructor. apply proper_trackLine.
  - apply proper_whenText. intros; apply proper_textLine.
  - apply proper_whenText. intros; apply proper_textLine.
  - apply proper_whenText. intros; apply proper_textLine.
  - apply proper_whenText. intros; apply proper_textLine.
  - apply proper_whenText. intros; apply proper_textLine.
  - apply proper_whenText. intros; apply proper_textLine.
  - destruct (isrc t) as [[|c s]|]; cbn [whenText optEndsOK] in *; repeat constructor.
    rewrite app_assoc. apply properLine_app_l; [|exact Hi].
    apply properLine_app_r. vm_compute; discriminate.
  - destruct (file t) as [f|]; cbn [whenSome option_map optEndsOK] in *; repeat constructor.
    now apply proper_fileLine.
  - destruct (flags t); cbn [whenSome]; [apply proper_flagsLine | constructor].
  - destruct (pregap t); cbn [whenSome]; repeat constructor.
    rewrite app_assoc. apply properLine_app_r, properLine_time.
  - destruct (indexes t) as [l|]; cbn [whenSome]; [|constructor].
    apply Forall_forall. intros x Hx. apply in_map_iff in Hx.
    destruct Hx as [y [<- _]]. apply proper_indexLine.
  - destruct (postgap t); cbn [whenSome]; repeat constructor.
    rewrite app_assoc. apply properLine_app_r, properLine_time.
  - now apply proper_remarkLines.
Qed.

Lemma proper_serializeTracksOptimized ts : forall lastFile,
  forallb trackEndsOK ts = true ->
  Forall properLine (serializeTracksOptimized ts lastFile).
Proof.
  induction ts as [|t ts IH]; intros lastFile H; [constructor|].
  simpl in H. apply andb_true_iff in H. destruct H as [Ht Hts].
  cbn [serializeTracksOptimized].
  destruct (fileChanged t lastFile) as [f|] eqn:E.
  - constructor.
    + apply proper_fileLine. unfold trackEndsOK in Ht.
      rewrite (fileChanged_file _ _ _ E) in Ht. simpl in Ht.
      apply andb_true_iff in Ht. destruct Ht as [Ht _].
      apply andb_true_iff in Ht. tauto.
    + apply Forall_app_intro; [now apply proper_serializeTrackContent | now apply IH].
  - apply Forall_app_intro; [now apply proper_serializeTrackContent | now apply IH].
Qed.

Lemma proper_serializeGlobal g :
  listEndsOK (g_remarks g) = true -> optEndsOK (g_catalog g) = true ->
  Forall properLine (serializeGlobal g).
Proof.
  intros Hr Hc. unfold serializeGlobal. repeat apply Forall_app_intro.
  - now apply proper_remarkLines.
  - destruct (g_catalog g) as [[|c s]|]; cbn [whenText optEndsOK] in *; repeat constructor.
    apply properLine_app_l; [vm_compute; discriminate | exact Hc].
  - apply proper_whenText. intros v _. cbv beta.
    apply properLine_app_r, properLine_quoted.
  - apply proper_whenText. intros; apply proper_textLine.
  - apply proper_whenText. intros; apply proper_textLine.
  - apply proper_whenText. intros; apply proper_textLine.
  - apply proper_whenText. intros; apply proper_textLine.
  - apply proper_whenText. intros; apply proper_textLine.
  - apply proper_whenText. intros; apply proper_textLine.
  - apply proper_whenText. intros; apply proper_textLine.
  - apply proper_whenText. intros; apply proper_textLine.
  - apply proper_whenText. intros; apply proper_textLine.
Qed.

Lemma proper_minimalTrack t : Forall properLine (minimalTrack t).
Proof.
  unfold minimalTrack. repeat apply Forall_app_intro.
  - repeat constructor. apply proper_trackLine.
  - apply proper_whenText. intros; apply proper_textLine.
  - destruct (file t) as [f|]; cbn [whenSome]; repeat constructor.
    destruct (format f) eqn:E.
    + rewrite !app_assoc. apply properLine_app_r, proper_formatStr. congruence.
    + unfold formatStr. rewrite E, app_nil_r, app_assoc.
      apply properLine_app_r, properLine_quoted.
  - destruct (indexes t) as [l|]; cbn [whenSome]; [|constructor].
    destruct (mainIndexOf l); cbn [whenSome]; repeat constructor.
    rewrite app_assoc. apply properLine_app_r, properLine_time.
Qed.

Lemma last_app_nonempty {A} (a b : list A) d : b <> [] -> last (a ++ b) d = last b d.
Proof. destruct b as [|x b]; [congruence|]. intros _. apply last_app_cons. Qed.

Lemma properLine_drop_prefix pre c b : properLine (pre ++ c :: b) -> properLine (c :: b).
Proof. unfold properLine. now rewrite last_app_cons. Qed.

Lemma tabbed_whenText o kw :
  startsWith [TAB] (str kw) = false -> str kw <> [] ->
  Forall tabbed (whenText o (textLine tabs3 kw)).
Proof.
  intros Hk Hne. destruct o as [[|c s]|]; cbn [whenText]; repeat constructor.
  unfold tabbed, textLine. destruct (str kw) as [|k r]; [congruence|].
  exists k, (r ++ [SP] ++ quoted (escapeString (c :: s))).
  split; [|right; reflexivity].
  unfold startsWith in Hk. simpl in Hk. now rewrite andb_true_r in Hk.
Qed.

Lemma tabbed_serializeTrackContent t : Forall tabbed (serializeTrackContent t).
Proof.
  unfold serializeTrackContent. repeat apply Forall_app_intro.
  - repeat constructor. exists "T"%char. eexists. split; [reflexivity | left; reflexivity].
  - now apply tabbed_whenText.
  - now apply tabbed_whenText.
  - now apply tabbed_whenText.
  - now apply tabbed_whenText.
  - now apply tabbed_whenText.
  - now apply tabbed_whenText.
  - destruct (isrc t) as [[|c s]|]; cbn [whenText]; repeat constructor.
    exists "I"%char. eexists. split; [reflexivity | right; reflexivity].
  - destruct (file t) as [f|]; cbn [whenSome]; repeat constructor.
    unfold fileLine. destruct (_ || _);
      (exists "F"%char; eexists; split; [reflexivity | right; reflexivity]).
  - destruct (flags t) as [[|f fl]|]; cbn [whenSome flagsLine]; repeat constructor.
    exists "F"%char. eexists. split; [reflexivity | right; reflexivity].
  - destruct (pregap t); cbn [whenSome]; repeat constructor.
    exists "P"%char. eexists. split; [reflexivity | right; reflexivity].
  - destruct (indexes t) as [l|]; cbn [whenSome]; [|constructor].
    apply Forall_forall. intros x Hx. apply in_map_iff in Hx. destruct Hx as [y [<- _]].
    exists "I"%char. eexists. split; [reflexivity | right; reflexivity].
  - destruct (postgap t); cbn [whenSome]; repeat constructor.
    exists "P"%char. eexists. split; [reflexivity | right; reflexivity].
  - unfold remarkLines. destruct (remarks t) as [l|]; cbn [whenSome]; [|constructor].
    apply Forall_forall. intros x Hx. apply in_map_iff in Hx. destruct Hx as [y [<- _]].
    exists "R"%char. eexists. split; [reflexivity | right; reflexivity].
Qed.

(** Re-indenting a line of a track keeps it proper. *)
Lemma reindent_proper ind l : tabbed l -> properLine l -> properLine (reindent ind l).
Proof.
  intros [c [b [Hc [-> | ->]]]] Hp; unfold reindent.
  - assert (S3 : startsWith tabs3 (tabs2 ++ c :: b) = false).
    { unfold startsWith, tabs3, tabs2. cbn [length firstn app jeqb].
      rewrite Hc. now rewrite !Ascii.eqb_refl. }
    assert (S2 : startsWith tabs2 (tabs2 ++ c :: b) = true).
    { unfold startsWith, tabs2. cbn [length firstn app jeqb]. now rewrite !Ascii.eqb_refl. }
    rewrite S3, S2. change (skipn 2 (tabs2 ++ c :: b)) with (c :: b).
    rewrite !app_assoc. apply properLine_app_r.
    apply (properLine_drop_prefix tabs2). exact Hp.
  - assert (S3 : startsWith tabs3 (tabs3 ++ c :: b) = true).
    { unfold startsWith, tabs3. cbn [length firstn app jeqb]. now rewrite !Ascii.eqb_refl. }
    rewrite S3. change (skipn 3 (tabs3 ++ c :: b)) with (c :: b).
    rewrite !app_assoc. apply properLine_app_r.
    apply (properLine_drop_prefix tabs3). exact Hp.
Qed.

Lemma formatTracks_last ind spacing ts : forall index,
  ts <> [] -> forallb trackEndsOK ts = true ->
  properLine (last (formatTracks ind spacing ts index) []).
Proof.
  induction ts as [|t ts IH]; intros index Hne H; [congruence|].
  simpl in H. apply andb_true_iff in H. destruct H as [Ht Hts].
  cbn [formatTracks].
  assert (M : Forall properLine (map (reindent ind) (serializeTrackContent t))).
  { pose proof (proper_serializeTrackContent t Ht) as P.
    pose proof (tabbed_serializeTrackContent t) as T.
    rewrite Forall_forall in *. intros x Hx. apply in_map_iff in Hx.
    destruct Hx as [y [<- Hy]]. apply reindent_proper; auto. }
  assert (Mne : map (reindent ind) (serializeTrackContent t) <> [])
    by (rewrite serializeTrackContent_cons; discriminate).
  destruct ts as [|t2 ts].
  - cbn [formatTracks]. rewrite app_nil_r, last_app_nonempty by exact Mne.
    now apply last_Forall.
  - assert (Fne : formatTracks ind spacing (t2 :: ts) (S index) <> []).
    { cbn [formatTracks]. rewrite serializeTrackContent_cons.
      destruct ((0 <? S index) && spacing); discriminate. }
    rewrite app_assoc, last_app_nonempty by exact Fne.
    apply IH; [discriminate | exact Hts].
Qed.

(** X17: The full serialization of a document whose remarks, catalog, ISRC codes
    and file names do not end with a line feed ends with exactly one line
    feed; so does the formatted one when the document has a track, or no
    global line, or when the spacing is off. *)
Theorem serialized_sheet_ends_with_one_line_feed :
  forall d,
    docEndsOK d = true ->
    oneTrailingLF (serializeCueSheet d)
    /\ forall options,
         lacks "$" (indentOf options) = true ->
         cs_tracks d <> [] \/ trackSpacingOf options = false
         \/ serializeGlobal (cs_global d) = [] ->
         oneTrailingLF (formatCueSheet d options).
Proof.
  intros d H. unfold docEndsOK in H. apply andb_true_iff in H. destruct H as [H Ht].
  apply andb_true_iff in H. destruct H as [Hr Hc].
  pose proof (proper_serializeGlobal (cs_global d) Hr Hc) as PG.
  split.
  - unfold serializeCueSheet. apply oneTrailingLF_proper.
    apply Forall_app_intro; [exact PG | now apply proper_serializeTracksOptimized].
  - intros options _ Hcase. unfold formatCueSheet. apply oneTrailingLF_join.
    destruct (cs_tracks d) as [|t ts] eqn:Et.
    + cbn [formatTracks]. rewrite app_nil_r.
      assert (B : (0 <? length (serializeGlobal (cs_global d))) && trackSpacingOf options
                  = false).
      { destruct Hcase as [C | [C | C]]; [congruence | rewrite C; apply andb_false_r |].
        rewrite C. reflexivity. }
      rewrite B, app_nil_r.
      destruct (serializeGlobal (cs_global d)) as [|l ls] eqn:Eg; [now left | right].
      apply last_Forall; [discriminate | exact PG].
    + right. rewrite last_app_nonempty.
      * apply formatTracks_last; [discriminate | exact Ht].
      * cbn [formatTracks]. rewrite serializeTrackContent_cons. discriminate.
Qed.

Lemma serialized_sheet_ends_with_one_line_feed_witness :
  oneTrailingLF (serializeCueSheet scenario1Input).
Proof.
  apply (proj1 (serialized_sheet_ends_with_one_line_feed scenario1Input eq_refl)).
Defined.

(** X18: The minimal serialization of any document ends with exactly one line
    feed. *)
Theorem minimal_sheet_ends_with_one_line_feed :
  forall d, oneTrailingLF (createMinimalCueSheet d).
Proof.
  intros d. unfold createMinimalCueSheet. apply oneTrailingLF_proper.
  repeat apply Forall_app_intro.
  - apply proper_whenText. intros; apply proper_textLine.
  - apply proper_whenText. intros; apply proper_textLine.
  - induction (cs_tracks d) as [|t ts IH]; [constructor|].
    cbn [flat_map]. apply Forall_app_intro; [apply proper_minimalTrack | exact IH].
Qed.

(** X19: With the spacing on, the formatted serialization of a document that has
    global lines and no track ends with an empty line, that is with two line
    feeds. *)
Theorem formatted_sheet_without_tracks_ends_with_two_line_feeds :
  forall d options,
    cs_tracks d = [] ->
    serializeGlobal (cs_global d) <> [] ->
    trackSpacingOf options = true ->
    twoTrailingLF (formatCueSheet d options).
Proof.
  intros d options Ht Hg Hs. unfold formatCueSheet. rewrite Ht, Hs.
  cbn [formatTracks]. rewrite app_nil_r.
  destruct (serializeGlobal (cs_global d)) as [|l ls] eqn:E; [congruence|].
  cbn [length Nat.ltb Nat.leb andb].
  exists (join [LF] (l :: ls)).
  assert (J : forall a : list jstring, a <> [] -> join [LF] (a ++ [[]]) = join [LF] a ++ [LF]).
  { induction a as [|x a IH]; [congruence|]. intros _.
    destruct a as [|y a]; [reflexivity|].
    change (join [LF] ((x :: y :: a) ++ [[]]))
      with (x ++ [LF] ++ join [LF] ((y :: a) ++ [[]])).
    rewrite IH by discriminate.
    change (join [LF] (x :: y :: a)) with (x ++ [LF] ++ join [LF] (y :: a)).
    now rewrite <- !app_assoc. }
  rewrite J by discriminate. now rewrite <- app_assoc.
Qed.

Lemma formatted_sheet_without_tracks_ends_with_two_line_feeds_witness :
  formatCueSheet titleOnlyDoc noOptions = str "TITLE " ++ quoted (str "x") ++ [LF; LF]
  /\ twoTrailingLF (formatCueSheet titleOnlyDoc noOptions).
Proof.
  split; [reflexivity|].
  apply formatted_sheet_without_tracks_ends_with_two_line_feeds;
    [reflexivity | discriminate | reflexivity].
Defined.

(** * Further properties *)

(** ** Arithmetic on times *)

(** Splitting a count of units into a mixed-radix triple, and back. *)
Lemma split_units n a b :
  (0 <= n -> 0 < a -> 0 < b ->
   n / (a * b) * (a * b) + Z.rem n (a * b) / b * b + Z.rem (Z.rem n (a * b)) b = n
   /\ 0 <= n / (a * b) /\ 0 <= Z.rem n (a * b) / b < a
   /\ 0 <= Z.rem (Z.rem n (a * b)) b < b)%Z.
Proof.
  intros Hn Ha Hb.
  assert (Hab : (0 < a * b)%Z) by nia.
  rewrite (Z.rem_mod_nonneg n (a * b)) by lia.
  pose proof (Z.mod_pos_bound n (a * b) Hab) as Hr.
  pose proof (Z.div_mod n (a * b) ltac:(lia)) as D1.
  set (r := (n mod (a * b))%Z) in *.
  rewrite (Z.rem_mod_nonneg r b) by lia.
  pose proof (Z.div_mod r b ltac:(lia)) as D2.
  pose proof (Z.mod_pos_bound r b Hb) as Hr2.
  assert (Q1 : (0 <= n / (a * b))%Z) by (apply Z.div_pos; lia).
  assert (Q2 : (0 <= r / b)%Z) by (apply Z.div_pos; lia).
  assert (Q3 : (r / b < a)%Z) by (apply Z.div_lt_upper_bound; lia).
  repeat split; try lia.
Qed.

Lemma join_units x y z a b :
  (0 <= x -> 0 <= y < a -> 0 <= z < b ->
   (x * (a * b) + y * b + z) / (a * b) = x
   /\ Z.rem (x * (a * b) + y * b + z) (a * b) / b = y
   /\ Z.rem (Z.rem (x * (a * b) + y * b + z) (a * b)) b = z)%Z.
Proof.
  intros Hx Hy Hz.
  assert (Hab : (0 < a * b)%Z) by nia.
  assert (R : (0 <= y * b + z < a * b)%Z) by nia.
  assert (N : (0 <= x * (a * b) + y * b + z)%Z) by nia.
  rewrite (Z.rem_mod_nonneg _ (a * b)) by lia.
  assert (E1 : ((x * (a * b) + y * b + z) / (a * b) = x)%Z).
  { rewrite <- Z.add_assoc, Z.add_comm, Z.div_add by lia.
    rewrite Z.div_small by lia. lia. }
  assert (E2 : ((x * (a * b) + y * b + z) mod (a * b) = y * b + z)%Z).
  { rewrite <- Z.add_assoc, Z.add_comm, Z.mod_add by lia. apply Z.mod_small. lia. }
  rewrite E1, E2. rewrite (Z.rem_mod_nonneg _ b) by lia.
  split; [reflexivity|]. split.
  - rewrite Z.add_comm, Z.div_add by lia. rewrite Z.div_small by lia. lia.
  - rewrite Z.add_comm, Z.mod_add by lia. apply Z.mod_small. lia.
Qed.

Lemma hmsToSeconds_nonneg t : validHMS t -> (0 <= hmsToSeconds t)%Z.
Proof. unfold validHMS, hmsToSeconds. lia. Qed.

Lemma msfToFrames_nonneg t : timeOK t -> (0 <= msfToFrames t)%Z.
Proof. unfold timeOK, msfToFrames. lia. Qed.

Lemma secondsToHMS_ok n :
  (0 <= n)%Z -> validHMS (secondsToHMS n) /\ hmsToSeconds (secondsToHMS n) = n.
Proof.
  intros Hn.
  destruct (split_units n 60 60 Hn) as [E [H1 [H2 H3]]]; try lia.
  change (60 * 60)%Z with 3600%Z in *.
  unfold validHMS, hmsToSeconds, secondsToHMS, hour, minute, second.
  cbn [minutes seconds frames]. repeat split; lia.
Qed.

(** For a negative count the fields are negative and do not add up to it. *)
Example secondsToHMS_negative :
  secondsToHMS (-1) = mkHMS (-1) (-1) (-1)
  /\ hmsToSeconds (secondsToHMS (-1)) = (-3661)%Z.
Proof. split; reflexivity. Qed.

Lemma secondsToHMS_inv t : validHMS t -> secondsToHMS (hmsToSeconds t) = t.
Proof.
  destruct t as [h m s]. intros [Hh [Hm Hs]]. unfold hour, minute, second in *.
  cbn [minutes seconds frames] in *.
  destruct (join_units h m s 60 60 Hh Hm Hs) as [E1 [E2 E3]].
  change (60 * 60)%Z with 3600%Z in *.
  unfold secondsToHMS, hmsToSeconds, hour, minute, second. cbn [minutes seconds frames].
  now rewrite E1, E2, E3.
Qed.

(** X23: [secondsToHMS] and [hmsToSeconds] are inverse to each other on the valid
    times and the counts that are not negative: a valid time is given back
    from its seconds, and the time of a count is valid and has that many
    seconds. *)
Theorem hms_seconds_round_trip :
  forall t n, validHMS t -> (0 <= n)%Z ->
    secondsToHMS (hmsToSeconds t) = t
    /\ validHMS (secondsToHMS n)
    /\ hmsToSeconds (secondsToHMS n) = n.
Proof.
  intros t n Ht Hn. split; [now apply secondsToHMS_inv|]. now apply secondsToHMS_ok.
Qed.

Lemma hms_seconds_round_trip_witness :
  secondsToHMS (hmsToSeconds (mkHMS 1 30 45)) = mkHMS 1 30 45
  /\ validHMS (secondsToHMS 5445)
  /\ hmsToSeconds (secondsToHMS 5445) = 5445%Z.
Proof.
  apply hms_seconds_round_trip; [|lia].
  unfold validHMS, hour, minute, second; simpl. lia.
Defined.

(** X24: The sum of two valid times is a valid time, of the sum of their
    seconds; the order of the arguments does not matter. *)
Theorem addHMSTime_sum :
  forall a b, validHMS a -> validHMS b ->
    validHMS (addHMSTime a b)
    /\ hmsToSeconds (addHMSTime a b) = (hmsToSeconds a + hmsToSeconds b)%Z
    /\ addHMSTime a b = addHMSTime b a.
Proof.
  intros a b Ha Hb. pose proof (hmsToSeconds_nonneg a Ha). pose proof (hmsToSeconds_nonneg b Hb).
  unfold addHMSTime.
  destruct (secondsToHMS_ok (hmsToSeconds a + hmsToSeconds b)) as [V E]; [lia|].
  split; [exact V|]. split; [exact E|]. now rewrite Z.add_comm.
Qed.

Lemma addHMSTime_sum_witness :
  addHMSTime (mkHMS 0 59 30) (mkHMS 0 0 45) = mkHMS 1 0 15
  /\ validHMS (addHMSTime (mkHMS 0 59 30) (mkHMS 0 0 45)).
Proof.
  split; [reflexivity|].
  apply addHMSTime_sum; unfold validHMS, hour, minute, second; simpl; lia.
Defined.

(** X25: [subtractHMSTime] throws exactly when the first time is the shorter one;
    otherwise its result is a valid time and adding the second time to it
    gives the first. *)
Theorem subtractHMSTime_spec :
  forall a b, validHMS a -> validHMS b ->
    ((hmsToSeconds a < hmsToSeconds b)%Z ->
       subtractHMSTime a b = Err (str "Cannot subtract: result would be negative"))
    /\ ((hmsToSeconds b <= hmsToSeconds a)%Z ->
          exists c, subtractHMSTime a b = Ret c /\ validHMS c
                    /\ hmsToSeconds c = (hmsToSeconds a - hmsToSeconds b)%Z
                    /\ addHMSTime c b = a).
Proof.
  intros a b Ha Hb. unfold subtractHMSTime. split; intros H.
  - apply Z.ltb_lt in H. now rewrite H.
  - replace (hmsToSeconds a <? hmsToSeconds b)%Z with false
      by (symmetry; apply Z.ltb_ge; lia).
    destruct (secondsToHMS_ok (hmsToSeconds a - hmsToSeconds b)) as [V E]; [lia|].
    eexists. split; [reflexivity|]. split; [exact V|]. split; [exact E|].
    unfold addHMSTime. rewrite E.
    replace (hmsToSeconds a - hmsToSeconds b + hmsToSeconds b)%Z with (hmsToSeconds a) by lia.
    now apply secondsToHMS_inv.
Qed.

Lemma subtractHMSTime_spec_witness :
  subtractHMSTime (mkHMS 0 0 1) (mkHMS 0 0 2)
  = Err (str "Cannot subtract: result would be negative").
Proof.
  refine (proj1 (subtractHMSTime_spec (mkHMS 0 0 1) (mkHMS 0 0 2) _ _) _);
    unfold validHMS, hmsToSeconds, hour, minute, second; simpl; lia.
Defined.

Lemma hmsToSeconds_inj a b :
  validHMS a -> validHMS b -> hmsToSeconds a = hmsToSeconds b -> a = b.
Proof.
  intros Ha Hb E. rewrite <- (secondsToHMS_inv a Ha), E.
  now apply secondsToHMS_inv.
Qed.

(** X26: [compareHMSTime] is 0 exactly for equal valid times, -1 exactly when the
    first has fewer seconds, and swapping the arguments negates it. *)
Theorem compareHMSTime_spec :
  forall a b, validHMS a -> validHMS b ->
    (compareHMSTime a b = 0%Z <-> a = b)
    /\ compareHMSTime a b = (- compareHMSTime b a)%Z
    /\ (compareHMSTime a b = (-1)%Z <-> (hmsToSeconds a < hmsToSeconds b)%Z).
Proof.
  intros a b Ha Hb. unfold compareHMSTime.
  destruct (hmsToSeconds a <? hmsToSeconds b)%Z eqn:E1;
    destruct (hmsToSeconds b <? hmsToSeconds a)%Z eqn:E2;
    try apply Z.ltb_lt in E1; try apply Z.ltb_lt in E2;
    try apply Z.ltb_ge in E1; try apply Z.ltb_ge in E2.
  - lia.
  - repeat split; try discriminate; try lia. intros ->. lia.
  - repeat split; try discriminate; try lia. intros ->. lia.
  - repeat split; try lia. intros _. apply hmsToSeconds_inj; auto. lia.
Qed.

Lemma compareHMSTime_spec_witness :
  compareHMSTime (mkHMS 1 0 0) (mkHMS 0 59 59) = (- compareHMSTime (mkHMS 0 59 59) (mkHMS 1 0 0))%Z.
Proof.
  refine (proj1 (proj2 (compareHMSTime_spec (mkHMS 1 0 0) (mkHMS 0 59 59) _ _)));
    unfold validHMS, hour, minute, second; simpl; lia.
Defined.

Lemma framesToMSF_ok n :
  (0 <= n)%Z -> timeOK (framesToMSF n) /\ msfToFrames (framesToMSF n) = n.
Proof.
  intros Hn.
  destruct (split_units n 60 75 Hn) as [E [H1 [H2 H3]]]; try lia.
  replace (75 * 60)%Z with (60 * 75)%Z in * by reflexivity.
  unfold timeOK, msfToFrames, framesToMSF. cbn [minutes seconds frames].
  replace (75 * 60)%Z with (60 * 75)%Z by reflexivity.
  repeat split; lia.
Qed.

Lemma framesToMSF_inv t : timeOK t -> framesToMSF (msfToFrames t) = t.
Proof.
  destruct t as [m s f]. intros [Hm [Hs Hf]]. cbn [minutes seconds frames] in *.
  destruct (join_units m s f 60 75 Hm Hs Hf) as [E1 [E2 E3]].
  unfold framesToMSF, msfToFrames. cbn [minutes seconds frames].
  replace (75 * 60)%Z with (60 * 75)%Z by reflexivity.
  replace (m * 60 * 75)%Z with (m * (60 * 75))%Z by lia.
  now rewrite E1, E2, E3.
Qed.

(** X27: [framesToMSF] and [msfToFrames] are inverse to each other on the valid
    times (seconds below 60, frames below 75) and the counts that are not
    negative. *)
Theorem msf_frames_round_trip :
  forall t n, timeOK t -> (0 <= n)%Z ->
    framesToMSF (msfToFrames t) = t
    /\ timeOK (framesToMSF n)
    /\ msfToFrames (framesToMSF n) = n.
Proof.
  intros t n Ht Hn. split; [now apply framesToMSF_inv|]. now apply framesToMSF_ok.
Qed.

Lemma msf_frames_round_trip_witness :
  framesToMSF (msfToFrames (mkTime 1 30 45)) = mkTime 1 30 45
  /\ timeOK (framesToMSF 6795)
  /\ msfToFrames (framesToMSF 6795) = 6795%Z.
Proof.
  apply msf_frames_round_trip; [|lia]. unfold timeOK; simpl. lia.
Defined.

(** X28: The sum of two valid times in frames is a valid time, of the sum of
    their frames; the order of the arguments does not matter. *)
Theorem addMSFTime_sum :
  forall a b, timeOK a -> timeOK b ->
    timeOK (addMSFTime a b)
    /\ msfToFrames (addMSFTime a b) = (msfToFrames a + msfToFrames b)%Z
    /\ addMSFTime a b = addMSFTime b a.
Proof.
  intros a b Ha Hb. pose proof (msfToFrames_nonneg a Ha). pose proof (msfToFrames_nonneg b Hb).
  unfold addMSFTime.
  destruct (framesToMSF_ok (msfToFrames a + msfToFrames b)) as [V E]; [lia|].
  split; [exact V|]. split; [exact E|]. now rewrite Z.add_comm.
Qed.

Lemma addMSFTime_sum_witness :
  addMSFTime (mkTime 0 59 74) (mkTime 0 0 1) = mkTime 1 0 0
  /\ timeOK (addMSFTime (mkTime 0 59 74) (mkTime 0 0 1)).
Proof.
  split; [reflexivity|]. apply addMSFTime_sum; unfold timeOK; simpl; lia.
Defined.

(** X29: [subtractMSFTime] throws exactly when the first time has fewer frames;
    otherwise its result is a valid time and adding the second time to it
    gives the first. *)
Theorem subtractMSFTime_spec :
  forall a b, timeOK a -> timeOK b ->
    ((msfToFrames a < msfToFrames b)%Z ->
       subtractMSFTime a b = Err (str "Cannot subtract: result would be negative"))
    /\ ((msfToFrames b <= msfToFrames a)%Z ->
          exists c, subtractMSFTime a b = Ret c /\ timeOK c
                    /\ msfToFrames c = (msfToFrames a - msfToFrames b)%Z
                    /\ addMSFTime c b = a).
Proof.
  intros a b Ha Hb. unfold subtractMSFTime. split; intros H.
  - apply Z.ltb_lt in H. now rewrite H.
  - replace (msfToFrames a <? msfToFrames b)%Z with false
      by (symmetry; apply Z.ltb_ge; lia).
    destruct (framesToMSF_ok (msfToFrames a - msfToFrames b)) as [V E]; [lia|].
    eexists. split; [reflexivity|]. split; [exact V|]. split; [exact E|].
    unfold addMSFTime. rewrite E.
    replace (msfToFrames a - msfToFrames b + msfToFrames b)%Z with (msfToFrames a) by lia.
    now apply framesToMSF_inv.
Qed.

Lemma subtractMSFTime_spec_witness :
  exists c, subtractMSFTime (mkTime 1 0 0) (mkTime 0 0 1) = Ret c /\ c = mkTime 0 59 74.
Proof.
  destruct (proj2 (subtractMSFTime_spec (mkTime 1 0 0) (mkTime 0 0 1)
                     ltac:(unfold timeOK; simpl; lia) ltac:(unfold timeOK; simpl; lia)))
    as [c [E _]]; [unfold msfToFrames; simpl; lia|].
  exists c. split; [exact E|]. vm_compute in E. now inversion E.
Defined.

Lemma msfToFrames_inj a b :
  timeOK a -> timeOK b -> msfToFrames a = msfToFrames b -> a = b.
Proof.
  intros Ha Hb E. rewrite <- (framesToMSF_inv a Ha), E.
  now apply framesToMSF_inv.
Qed.

(** X30: [compareMSFTime] is 0 exactly for equal valid times, -1 exactly when the
    first has fewer frames, and swapping the arguments negates it. *)
Theorem compareMSFTime_spec :
  forall a b, timeOK a -> timeOK b ->
    (compareMSFTime a b = 0%Z <-> a = b)
    /\ compareMSFTime a b = (- compareMSFTime b a)%Z
    /\ (compareMSFTime a b = (-1)%Z <-> (msfToFrames a < msfToFrames b)%Z).
Proof.
  intros a b Ha Hb. unfold compareMSFTime.
  destruct (msfToFrames a <? msfToFrames b)%Z eqn:E1;
    destruct (msfToFrames b <? msfToFrames a)%Z eqn:E2;
    try apply Z.ltb_lt in E1; try apply Z.ltb_lt in E2;
    try apply Z.ltb_ge in E1; try apply Z.ltb_ge in E2.
  - lia.
  - repeat split; try discriminate; try lia. intros ->. lia.
  - repeat split; try discriminate; try lia. intros ->. lia.
  - repeat split; try lia. intros _. apply msfToFrames_inj; auto. lia.
Qed.

Lemma compareMSFTime_spec_witness :
  compareMSFTime (mkTime 0 2 33) (mkTime 0 2 33) = 0%Z.
Proof.
  refine (proj2 (proj1 (compareMSFTime_spec (mkTime 0 2 33) (mkTime 0 2 33) _ _)) eq_refl);
    unfold timeOK; simpl; lia.
Defined.

(** ** Formatting a time and reading it back *)

Lemma digits_lack_colon s : forallb isDigit s = true -> lacks COLON s = true.
Proof. intros H. apply numChars_lacks; [reflexivity | now apply digits_numChars]. Qed.

Lemma digits_noWs s : forallb isDigit s = true -> noWs s = true.
Proof. intros H. now apply numChars_noWs, digits_numChars. Qed.

(** Three runs of digits between colons are read as their three values. *)
Lemma readsFields_digits a b c :
  a <> [] -> b <> [] -> c <> [] ->
  forallb isDigit a = true -> forallb isDigit b = true -> forallb isDigit c = true ->
  readsFields (a ++ [COLON] ++ b ++ [COLON] ++ c)
    (digitsVal 0 a) (digitsVal 0 b) (digitsVal 0 c).
Proof.
  intros Ha Hb Hc Da Db Dc. exists a, b, c.
  assert (W : noWs (a ++ [COLON] ++ b ++ [COLON] ++ c) = true).
  { rewrite !noWs_app, (digits_noWs a Da), (digits_noWs b Db), (digits_noWs c Dc).
    reflexivity. }
  rewrite (noWs_trim _ W). simpl app.
  rewrite (split_app_sep COLON a _ (digits_lack_colon a Da)).
  rewrite (split_app_sep COLON b _ (digits_lack_colon b Db)).
  rewrite (split_lacks COLON c (digits_lack_colon c Dc)).
  repeat split; try assumption; now apply parseInt_digits.
Qed.

(** The fields of a time whose numbers are not negative, written with or
    without padding, are read as those numbers. *)
Lemma readsFields_numbers (pad : bool) x y z :
  (0 <= x)%Z -> (0 <= y)%Z -> (0 <= z)%Z ->
  readsFields ((if pad then num x else toString x) ++ [COLON]
               ++ (if pad then num y else toString y) ++ [COLON]
               ++ (if pad then num z else toString z)) x y z.
Proof.
  intros Hx Hy Hz.
  assert (F : forall n, (0 <= n)%Z ->
            (if pad then num n else toString n) <> []
            /\ forallb isDigit (if pad then num n else toString n) = true
            /\ digitsVal 0 (if pad then num n else toString n) = n).
  { intros n Hn. destruct pad; [now apply num_nonneg | now apply toString_nonneg]. }
  destruct (F x Hx) as [A1 [A2 A3]], (F y Hy) as [B1 [B2 B3]], (F z Hz) as [C1 [C2 C3]].
  pose proof (readsFields_digits _ _ _ A1 B1 C1 A2 B2 C2) as R.
  now rewrite A3, B3, C3 in R.
Qed.

Lemma formatMSFTime_fields t zeroPad :
  formatMSFTime t zeroPad
  = (if zeroPad then num (minutes t) else toString (minutes t)) ++ [COLON]
    ++ (if zeroPad then num (seconds t) else toString (seconds t)) ++ [COLON]
    ++ (if zeroPad then num (frames t) else toString (frames t)).
Proof. destruct zeroPad; reflexivity. Qed.

Lemma formatHMSTimePad_fields t zeroPad :
  formatHMSTimePad t zeroPad
  = (if zeroPad then num (hour t) else toString (hour t)) ++ [COLON]
    ++ (if zeroPad then num (minute t) else toString (minute t)) ++ [COLON]
    ++ (if zeroPad then num (second t) else toString (second t)).
Proof. destruct zeroPad; reflexivity. Qed.

(** X20: [parseMSFTime] reads back what [formatMSFTime] writes for a valid time,
    padded or not. *)
Theorem parseMSFTime_formatMSFTime :
  forall t zeroPad, timeOK t -> parseMSFTime (formatMSFTime t zeroPad) = Ret t.
Proof.
  intros t zeroPad [Hm [Hs Hf]]. apply parseMSFTime_Ret.
  split; [|repeat split; lia].
  rewrite formatMSFTime_fields. apply readsFields_numbers; lia.
Qed.

Lemma parseMSFTime_formatMSFTime_witness :
  parseMSFTime (formatMSFTime (mkTime 1 30 45) false) = Ret (mkTime 1 30 45).
Proof. apply parseMSFTime_formatMSFTime. unfold timeOK; simpl. lia. Defined.

(** X21: [parseHMSTime] reads back what [formatHMSTime] writes for a valid time,
    padded or not. *)
Theorem parseHMSTime_formatHMSTime :
  forall t zeroPad, validHMS t -> parseHMSTime (formatHMSTimePad t zeroPad) = Ret t.
Proof.
  intros t zeroPad [Hh [Hm Hs]]. apply parseHMSTime_Ret.
  split; [|repeat split; lia].
  rewrite formatHMSTimePad_fields. apply readsFields_numbers; lia.
Qed.

Lemma parseHMSTime_formatHMSTime_witness :
  parseHMSTime (formatHMSTimePad (mkHMS 1 30 45) true) = Ret (mkHMS 1 30 45).
Proof.
  apply parseHMSTime_formatHMSTime. unfold validHMS, hour, minute, second; simpl. lia.
Defined.

(** X22: [formatCueTime] writes a valid time of hours, minutes and seconds as a
    CUE time that [parseMSFTime] accepts: the minutes are the hours times 60
    plus the minutes, the seconds are the seconds and the frames are 0.  The
    total of seconds is kept. *)
Theorem formatCueTime_parses :
  forall t, validHMS t ->
    exists m,
      parseMSFTime (formatCueTime t) = Ret m
      /\ m = mkTime (hour t * 60 + minute t) (second t) 0
      /\ timeOK m
      /\ (minutes m * 60 + seconds m)%Z = hmsToSeconds t.
Proof.
  intros t [Hh [Hm Hs]]. eexists. split; [|split; [reflexivity|]].
  - apply parseMSFTime_Ret. split.
    + cbn [minutes seconds frames]. unfold formatCueTime. cbv zeta.
      fold (num (hour t * 60 + minute t)) (num (second t)) (num 0).
      apply (readsFields_numbers true); lia.
    + cbn [minutes seconds frames]. lia.
  - unfold timeOK, hmsToSeconds. cbn [minutes seconds frames]. lia.
Qed.

Lemma formatCueTime_parses_witness :
  exists m, parseMSFTime (formatCueTime (mkHMS 1 30 45)) = Ret m /\ m = mkTime 90 45 0.
Proof.
  destruct (formatCueTime_parses (mkHMS 1 30 45)) as [m [E [V _]]].
  - unfold validHMS, hour, minute, second; simpl. lia.
  - exists m. split; [exact E | exact V].
Defined.

(** ** Where the diagnostics come from *)

Lemma handler_warnings c args n st :
  exists ws,
    warnings (outState (handler c args n st)) = warnings st ++ ws
    /\ length ws <= 1
    /\ Forall (fun e => e_line e = n) ws
    /\ (forall st' m, handler c args n st = Throw st' m -> ws = []).
Proof.
  destruct c; unfold_handlers; repeat case_match; simpl;
    first
      [ exists []; rewrite app_nil_r;
        (split; [reflexivity | split; [simpl; lia | split; [constructor | reflexivity]]])
      | eexists [_];
        (split; [reflexivity
                | split; [simpl; lia
                         | split; [repeat constructor | intros; discriminate]]]) ].
Qed.

Lemma parseLine_warnings l n st :
  exists ws,
    warnings (outState (parseLine l n st)) = warnings st ++ ws
    /\ length ws <= 1
    /\ Forall (fun e => e_line e = n) ws
    /\ (forall st' m, parseLine l n st = Throw st' m -> ws = []).
Proof.
  unfold parseLine.
  assert (Z0 : exists ws : list ParseError,
            warnings st = warnings st ++ ws /\ length ws <= 1
            /\ Forall (fun e => e_line e = n) ws
            /\ (forall st' m, Ok st = Throw st' m -> ws = [])).
  { exists []. rewrite app_nil_r. repeat split; [simpl; lia | constructor]. }
  destruct (isEmpty (trim l)); [exact Z0|].
  destruct (parseCommand (trim l)) as [command args].
  destruct (isEmpty command); [exact Z0|].
  destruct (lookupName keyword commands (toUpperCase command)).
  - apply handler_warnings.
  - eexists [_]. simpl. repeat split; [lia | repeat constructor | intros; discriminate].
Qed.

(** One line adds at most one diagnostic, an error or a warning; it carries
    the number of the line, and an error also carries its text. *)
Lemma step_diagnostics l n st :
  exists es ws,
    errors (step l n st) = errors st ++ es
    /\ warnings (step l n st) = warnings st ++ ws
    /\ length es + length ws <= 1
    /\ Forall (fun e => e_line e = n /\ e_rawLine e = l) es
    /\ Forall (fun e => e_line e = n) ws.
Proof.
  unfold step.
  destruct (parseLine_warnings l n st) as [ws [W [L [F T]]]].
  pose proof (parseLine_errors l n st) as E.
  destruct (parseLine l n st) as [st' | st' m]; simpl in *.
  - exists [], ws. rewrite app_nil_r. repeat split; auto.
  - rewrite (T st' m eq_refl) in *. exists [mkError n m l], [].
    rewrite E. repeat split; auto.
Qed.

Lemma Forall_lt_sorted n l :
  Forall (fun k => n < k) l -> StronglySorted lt l -> StronglySorted lt (n :: l).
Proof. intros H S. now constructor. Qed.

Lemma sorted_app_lt (a b : list nat) n :
  Forall (fun k => k = n) a -> length a <= 1 ->
  Forall (fun k => n < k) b -> StronglySorted lt b ->
  StronglySorted lt (a ++ b).
Proof.
  intros Ha La Hb Sb. destruct a as [|x [|y a]]; simpl in *; try lia; [exact Sb|].
  inversion Ha; subst. now constructor.
Qed.

(** The diagnostics that the lines [ls], read after the lines [pre], add. *)
Lemma parseLines_diagnostics ls : forall pre st,
  exists es ws,
    errors (parseLines ls (length pre) st) = errors st ++ es
    /\ warnings (parseLines ls (length pre) st) = warnings st ++ ws
    /\ Forall (fun e => length pre < e_line e /\ located (pre ++ ls) e) es
    /\ Forall (fun e => length pre < e_line e /\ inRange (pre ++ ls) e) ws
    /\ StronglySorted lt (map e_line es)
    /\ StronglySorted lt (map e_line ws)
    /\ NoDup (map e_line (es ++ ws)).
Proof.
  induction ls as [|l ls IH]; intros pre st.
  - exists [], []. simpl. rewrite !app_nil_r. repeat split; constructor.
  - cbn [parseLines].
    destruct (step_diagnostics l (length pre + 1) st) as [e1 [w1 [E1 [W1 [L1 [F1 G1]]]]]].
    specialize (IH (pre ++ [l]) (step l (length pre + 1) st)).
    replace (length (pre ++ [l])) with (S (length pre)) in IH
      by (rewrite length_app; simpl; lia).
    destruct IH as [e2 [w2 [E2 [W2 [F2 [G2 [S2 [T2 N2]]]]]]]].
    rewrite <- app_assoc in F2, G2. simpl app in F2, G2.
    exists (e1 ++ e2), (w1 ++ w2).
    rewrite E2, W2, E1, W1, <- !app_assoc.
    split; [reflexivity|]. split; [reflexivity|].
    assert (P1 : Forall (fun e => length pre < e_line e /\ located (pre ++ l :: ls) e) e1).
    { eapply Forall_impl; [|exact F1]. intros e [Hn Hr]. unfold located.
      rewrite Hn, Hr. split; [lia|]. split; [lia|].
      replace (length pre + 1 - 1) with (length pre) by lia.
      rewrite nth_error_app2 by lia. now rewrite Nat.sub_diag. }
    assert (Q1 : Forall (fun e => length pre < e_line e /\ inRange (pre ++ l :: ls) e) w1).
    { eapply Forall_impl; [|exact G1]. intros e Hn. unfold inRange.
      rewrite Hn, length_app. simpl. lia. }
    assert (P2 : Forall (fun e => length pre < e_line e /\ located (pre ++ l :: ls) e) e2).
    { eapply Forall_impl; [|exact F2]. intros e [Hn Hr]. split; [lia | exact Hr]. }
    assert (Q2 : Forall (fun e => length pre < e_line e /\ inRange (pre ++ l :: ls) e) w2).
    { eapply Forall_impl; [|exact G2]. intros e [Hn Hr]. split; [lia | exact Hr]. }
    assert (A1 : Forall (fun k => k = length pre + 1) (map e_line e1)).
    { apply Forall_map. eapply Forall_impl; [|exact F1]. now intros e [Hn _]. }
    assert (B1 : Forall (fun k => k = length pre + 1) (map e_line w1)).
    { apply Forall_map. exact G1. }
    assert (A2 : Forall (fun k => length pre + 1 < k) (map e_line e2)).
    { apply Forall_map. eapply Forall_impl; [|exact F2]. intros e [Hn _]. lia. }
    assert (B2 : Forall (fun k => length pre + 1 < k) (map e_line w2)).
    { apply Forall_map. eapply Forall_impl; [|exact G2]. intros e [Hn _]. lia. }
    split; [now apply Forall_app|]. split; [now apply Forall_app|].
    split; [rewrite map_app; eapply sorted_app_lt; eauto; rewrite length_map; lia|].
    split; [rewrite map_app; eapply sorted_app_lt; eauto; rewrite length_map; lia|].
    apply (Permutation_NoDup (l := map e_line ((e1 ++ w1) ++ (e2 ++ w2)))).
    { apply Permutation_map. rewrite <- !app_assoc. apply Permutation_app_head.
      rewrite !app_assoc. apply Permutation_app_tail. apply Permutation_app_comm. }
    rewrite map_app.
    assert (C2 : Forall (fun k => length pre + 1 < k) (map e_line (e2 ++ w2))).
    { rewrite map_app. now apply Forall_app. }
    assert (C1 : Forall (fun k => k = length pre + 1) (map e_line (e1 ++ w1))).
    { rewrite map_app. now apply Forall_app. }
    assert (LL : length (map e_line (e1 ++ w1)) <= 1)
      by (rewrite length_map, length_app; lia).
    destruct (map e_line (e1 ++ w1)) as [|x [|y r]]; simpl in LL; try lia; [exact N2|].
    simpl. constructor; [|exact N2].
    inversion C1; subst. intros Hin. rewrite Forall_forall in C2.
    specialize (C2 _ Hin). lia.
Qed.

(** X6: Every error of a result carries the number (counted from 1) and the text
    of the line of the input that caused it; every warning carries the
    number of a line of the input.  Errors and warnings are each in the
    order of the lines, and no line has more than one diagnostic. *)
Theorem diagnostics_located :
  forall this content,
    let r := snd (parse this content) in
    let ls := split LF content in
    Forall (located ls) (r_errors r)
    /\ Forall (inRange ls) (r_warnings r)
    /\ StronglySorted lt (map e_line (r_errors r))
    /\ StronglySorted lt (map e_line (r_warnings r))
    /\ NoDup (map e_line (r_errors r ++ r_warnings r)).
Proof.
  intros this content. cbv zeta. unfold parse, makeResult, run. cbn [snd r_errors r_warnings].
  set (st := parseLines (split LF content) 0 (reset this)).
  assert (Ef : errors (finalize st) = errors st) by (unfold finalize; destruct (currentTrack st); reflexivity).
  assert (Wf : warnings (finalize st) = warnings st) by (unfold finalize; destruct (currentTrack st); reflexivity).
  rewrite Ef, Wf.
  destruct (parseLines_diagnostics (split LF content) [] (reset this))
    as [es [ws [E [W [F [G [S [T N]]]]]]]].
  change (length (@nil jstring)) with 0 in *. fold st in E, W.
  simpl in E, W, F, G. rewrite E, W.
  split; [eapply Forall_impl; [|exact F]; now intros e [_ H]|].
  split; [eapply Forall_impl; [|exact G]; now intros e [_ H]|].
  auto.
Qed.

(** ** How a line is dispatched *)

(** X7: The keyword of a command is recognised in any letter case and after any
    indentation; the handler gets the rest of the line, trimmed. *)
Theorem parseLine_dispatch :
  forall c kw pre rest n st,
    forallb isWhiteSpace pre = true ->
    kw <> [] -> noWs kw = true ->
    toUpperCase kw = keyword c ->
    parseLine (pre ++ kw ++ SP :: rest) n st = handler c (trim rest) n st
    /\ commandOf (pre ++ kw ++ SP :: rest) = Some c.
Proof.
  intros c kw pre rest n st Hpre Hne Hws Hup.
  destruct (keyword_facts c) as [_ [_ [_ Hlk]]].
  destruct (parseCommand_keyword pre kw rest Hpre Hne Hws) as [H1 H2].
  unfold parseLine, commandOf. rewrite H1, H2.
  replace (isEmpty kw) with false by (destruct kw; [congruence | reflexivity]).
  rewrite Hup, Hlk. split; reflexivity.
Qed.

Lemma parseLine_dispatch_witness :
  parseLine (str "  track 01 audio") 1 newCueParser
  = handleTrack (str "01 audio") 1 newCueParser.
Proof.
  refine (proj1 (parseLine_dispatch TRACK (str "track") (str "  ") (str "01 audio") 1
                   newCueParser _ _ _ _)).
  - reflexivity.
  - discriminate.
  - reflexivity.
  - reflexivity.
Defined.

Lemma headNonWs_trimStart s : headNonWs (trimStart s) = true.
Proof.
  unfold trimStart. induction s as [|c s IH]; [reflexivity|].
  simpl. destruct (isWhiteSpace c) eqn:E; [exact IH|]. simpl. now rewrite E.
Qed.

Lemma trimEnd_head s :
  headNonWs s = true -> headNonWs (trimEnd s) = true.
Proof.
  destruct s as [|c s]; [reflexivity|]. cbn [trimEnd headNonWs]. intros H.
  apply negb_true_iff in H.
  destruct (trimEnd s); [rewrite H; simpl; now rewrite H|]. simpl. now rewrite H.
Qed.

Lemma headNonWs_trim s : headNonWs (trim s) = true.
Proof. apply trimEnd_head, headNonWs_trimStart. Qed.

Lemma indexFrom_ge c s : forall p k, indexFrom c s p = Some k -> p <= k.
Proof.
  induction s as [|x s IH]; intros p k I; [discriminate|].
  simpl in I. destruct (Ascii.eqb x c); [inversion I; lia|].
  specialize (IH _ _ I). lia.
Qed.

(** The first word of a line that is not blank is not empty. *)
Lemma parseCommand_nonempty s :
  s <> [] -> headNonWs s = true -> trim s = s -> fst (parseCommand s) <> [].
Proof.
  intros Hne Hh Ht. unfold parseCommand. rewrite Ht.
  destruct s as [|c s]; [congruence|].
  unfold indexOf. simpl skipn. cbn [indexFrom].
  simpl in Hh. apply negb_true_iff in Hh.
  destruct (Ascii.eqb c SP) eqn:E.
  - apply Ascii.eqb_eq in E. subst. discriminate.
  - destruct (indexFrom SP s 1) as [k|] eqn:I; [|discriminate].
    simpl fst. unfold substring. rewrite Nat.sub_0_r. simpl skipn.
    pose proof (indexFrom_ge SP s 1 k I) as K.
    destruct k; [lia|]. discriminate.
Qed.

(** X8: A line without a known command is either blank, and then ignored, or it
    adds one warning that names its first word; it never adds an error and
    changes nothing else. *)
Theorem line_without_command :
  forall l n st,
    commandOf l = None ->
    (trim l = [] /\ step l n st = st)
    \/ (exists cmd,
          cmd <> [] /\ fst (parseCommand (trim l)) = cmd
          /\ step l n st = pushWarning (mkError n (str "Unknown command: " ++ cmd) l) st).
Proof.
  intros l n st. unfold commandOf, step, parseLine.
  destruct (trim l) as [|c s] eqn:T; [left; split; reflexivity|].
  cbn [isEmpty]. intros H. right.
  assert (Hc : fst (parseCommand (c :: s)) <> []).
  { apply parseCommand_nonempty; [discriminate | |].
    - rewrite <- T. apply headNonWs_trim.
    - rewrite <- T. apply trim_idem. }
  destruct (parseCommand (c :: s)) as [command args]. simpl fst in *.
  destruct command as [|x command]; [congruence|]. cbn [isEmpty] in *.
  rewrite H. exists (x :: command). split; [discriminate|]. split; reflexivity.
Qed.

Lemma line_without_command_witness :
  exists cmd,
    step (str "FOO bar") 3 newCueParser
    = pushWarning (mkError 3 (str "Unknown command: " ++ cmd) (str "FOO bar")) newCueParser.
Proof.
  destruct (line_without_command (str "FOO bar") 3 newCueParser eq_refl)
    as [[H _] | [cmd [_ [_ H]]]].
  - vm_compute in H. discriminate.
  - exists cmd. exact H.
Defined.

(** ** What one line does to the state *)

(** The cases of [step]: a line without a command leaves the state or adds a
    warning; a line with a command runs its handler, and an exception adds
    an error to the state the handler left. *)
Lemma step_cases l n st :
  (commandOf l = None /\ (step l n st = st \/ exists e, step l n st = pushWarning e st))
  \/ (exists c args,
        commandOf l = Some c
        /\ step l n st = match handler c args n st with
                         | Ok st' => st'
                         | Throw st' m => pushError (mkError n m l) st'
                         end).
Proof.
  unfold commandOf, step, parseLine.
  destruct (isEmpty (trim l)); [left; split; [reflexivity | now left]|].
  destruct (parseCommand (trim l)) as [command args].
  destruct (isEmpty command); [left; split; [reflexivity | now left]|].
  destruct (lookupName keyword commands (toUpperCase command)) as [c|].
  - right. exists c, args. split; reflexivity.
  - left. split; [reflexivity|]. right. eexists. reflexivity.
Qed.

(** A property of the state that the diagnostics do not touch and that every
    handler keeps, for the commands allowed by [ok], is kept by the lines
    whose command is allowed. *)
Lemma parseLines_invariant (I : CueParser -> Prop) (ok : Command -> bool) :
  (forall e st, I st -> I (pushWarning e st)) ->
  (forall e st, I st -> I (pushError e st)) ->
  (forall c args n st, ok c = true -> I st -> I (outState (handler c args n st))) ->
  forall ls i st,
    Forall (fun l => match commandOf l with Some c => ok c = true | None => True end) ls ->
    I st -> I (parseLines ls i st).
Proof.
  intros HW HE HH. induction ls as [|l ls IH]; intros i st Hls Hst; [exact Hst|].
  inversion Hls as [|? ? Hl Hrest]; subst. cbn [parseLines]. apply IH; [exact Hrest|].
  destruct (step_cases l (i + 1) st) as [[_ [-> | [e ->]]] | [c [args [Hc ->]]]].
  - exact Hst.
  - now apply HW.
  - rewrite Hc in Hl. specialize (HH c args (i + 1) st Hl Hst).
    destruct (handler c args (i + 1) st); simpl in HH; [exact HH | now apply HE].
Qed.

Lemma length_updateAt r f l : length (updateAt r f l) = length l.
Proof.
  revert r. induction l as [|x l IH]; intros r; [destruct r; reflexivity|].
  destruct r; simpl; [reflexivity | now rewrite IH].
Qed.

Lemma Forall_updateAt_gen (P : Track MSFTime -> Prop) r f l :
  (forall t, P t -> P (f t)) -> Forall P l -> Forall P (updateAt r f l).
Proof.
  intros Hf H. revert r. induction H as [|x l Hx Hl IH]; intros r; [destruct r; constructor|].
  destruct r; simpl; constructor; auto.
Qed.

(** ** The number of tracks *)

Lemma handler_objs c args n st st' :
  handler c args n st = Ok st' ->
  length (objs st') = length (objs st) + match c with TRACK => 1 | _ => 0 end.
Proof.
  intros H. destruct c; unfold_handlers; repeat case_match; try discriminate;
    inversion H; subst; simpl; rewrite ?length_updateAt, ?length_app; simpl; lia.
Qed.

Lemma app_eq_self {A} (l es : list A) : l ++ es = l -> es = [].
Proof.
  intros H. apply (f_equal (@length A)) in H. rewrite length_app in H.
  destruct es; [reflexivity | simpl in H; lia].
Qed.

Lemma step_objs l n st :
  errors (step l n st) = errors st ->
  length (objs (step l n st))
  = length (objs st) + (if isTrackLine l then 1 else 0).
Proof.
  intros He. unfold isTrackLine.
  destruct (step_cases l n st) as [[Hc [E | [e E]]] | [c [args [Hc E]]]];
    rewrite Hc; rewrite E in *.
  - lia.
  - simpl. lia.
  - pose proof (handler_errors c args n st) as HE.
    destruct (handler c args n st) as [st' | st' m] eqn:Hh; simpl in HE.
    + rewrite (handler_objs c args n st st' Hh). destruct c; reflexivity.
    + simpl in He. rewrite HE in He. apply app_eq_self in He. discriminate.
Qed.

Lemma parseLines_objs ls : forall i st,
  errors (parseLines ls i st) = errors st ->
  length (objs (parseLines ls i st))
  = length (objs st) + length (filter isTrackLine ls).
Proof.
  induction ls as [|l ls IH]; intros i st He; cbn [parseLines filter] in *;
    [simpl; lia|].
  destruct (parseLines_errors_grow ls (S i) (step l (i + 1) st)) as [es2 E2].
  destruct (step_errors_grow l (i + 1) st) as [es1 E1].
  assert (N : es1 = [] /\ es2 = []).
  { rewrite E2, E1, <- app_assoc in He. apply app_eq_self in He.
    now apply app_eq_nil in He. }
  destruct N as [-> ->]. rewrite app_nil_r in E1, E2.
  rewrite IH by congruence. rewrite step_objs by exact E1.
  destruct (isTrackLine l); simpl; lia.
Qed.

(** X9: The document of a result has one track for each line of the input whose
    command is TRACK, in any letter case. *)
Theorem one_track_per_track_line :
  forall this content d,
    cueSheet (snd (parse this content)) = Some d ->
    length (cs_tracks d) = length (filter isTrackLine (split LF content)).
Proof.
  intros this content d H. unfold parse, run in H. cbn [snd] in H.
  set (st := parseLines (split LF content) 0 (reset this)) in *.
  assert (He : errors st = []).
  { unfold makeResult in H. cbn [cueSheet] in H.
    replace (errors (finalize st)) with (errors st) in H
      by (unfold finalize; destruct (currentTrack st); reflexivity).
    destruct (errors st); [reflexivity | discriminate]. }
  assert (Hs : shaped st).
  { apply parseLines_shaped; [apply (shaped_top emptyGlobal []) | exact He]. }
  rewrite (makeResult_shaped st Hs) in H. cbn [cueSheet] in H.
  inversion H; subst d. cbn [cs_tracks].
  unfold st. rewrite parseLines_objs; [reflexivity|]. fold st. rewrite He. reflexivity.
Qed.

Lemma one_track_per_track_line_witness :
  length (cs_tracks scenario1Doc) = length (filter isTrackLine (split LF scenario1)).
Proof.
  apply (one_track_per_track_line newCueParser scenario1 scenario1Doc).
  vm_compute. reflexivity.
Defined.

(** ** FILE commands *)





(** While no track is open, a FILE line stores nothing: it adds the warning
    about global FILE commands, or the error of its arguments, and leaves
    the global record, the tracks and the open track as they are. *)
Theorem file_command_outside_track :
  forall l n st,
    currentTrack st = None ->
    commandOf l = Some FILE ->
    ((exists args, step l n st = pushWarning (mkError n globalFileWarning (str "FILE " ++ args)) st)
     \/ (exists m, step l n st = pushError (mkError n m l) st))
    /\ global (step l n st) = global st
    /\ tracks (step l n st) = tracks st
    /\ objs (step l n st) = objs st
    /\ currentTrack (step l n st) = None.
Proof.
  intros l n st Hcur Hc.
  destruct (parseLine_commandOf l n st FILE Hc) as [args E].
  unfold step. rewrite E. unfold handler, handleFile. rewrite Hcur.
  destruct (parseFileArgs args) as [[fname fmt] | m].
  - split; [left; exists args; reflexivity|]. repeat split; assumption.
  - split; [right; exists m; reflexivity|]. repeat split; assumption.
Qed.

Lemma file_command_outside_track_witness :
  global (step (str "FILE a.wav WAVE") 1 newCueParser) = emptyGlobal
  /\ objs (step (str "FILE a.wav WAVE") 1 newCueParser) = [].
Proof.
  destruct (file_command_outside_track (str "FILE a.wav WAVE") 1 newCueParser eq_refl eq_refl)
    as [_ [G [_ [O _]]]].
  split; [exact G | exact O].
Defined.

(** Before the first TRACK line no track is open and no object exists. *)
Lemma handler_stays_top c args n st :
  c <> TRACK -> currentTrack st = None /\ objs st = [] ->
  currentTrack (outState (handler c args n st)) = None
  /\ objs (outState (handler c args n st)) = [].
Proof.
  intros Hc [H1 H2]. destruct c; try congruence; unfold_handlers; rewrite ?H1;
    repeat case_match; simpl; auto.
Qed.

Lemma handler_fileless c args n st :
  c <> FILE -> Forall fileless (objs st) ->
  Forall fileless (objs (outState (handler c args n st))).
Proof.
  intros Hc H. destruct c; try congruence; unfold_handlers; repeat case_match; simpl;
    try assumption;
    try (apply Forall_updateAt_gen; [intros t Ht; exact Ht | assumption]);
    try (apply Forall_app; split; [assumption | repeat constructor]).
Qed.

(** X11: A sheet whose FILE lines all come before its first TRACK line (the
    lines [a] hold no TRACK command, the lines [b] after them hold no FILE
    command) gives a document in which no track has a file. *)
Theorem files_before_first_track_are_dropped :
  forall this content a b d,
    split LF content = a ++ b ->
    Forall (notCommand TRACK) a ->
    Forall (notCommand FILE) b ->
    cueSheet (snd (parse this content)) = Some d ->
    Forall fileless (cs_tracks d).
Proof.
  intros this content a b d Hs Ha Hb H.
  unfold parse, run, makeResult in H. cbn [snd cueSheet] in H.
  rewrite Hs, parseLines_app in H.
  set (st1 := parseLines a 0 (reset this)) in *.
  set (st := parseLines b (0 + length a) st1) in *.
  assert (T : currentTrack st1 = None /\ objs st1 = []).
  { unfold st1.
    apply (parseLines_invariant (fun s => currentTrack s = None /\ objs s = [])
             (fun c => match c with TRACK => false | _ => true end)).
    - intros e s Hst. exact Hst.
    - intros e s Hst. exact Hst.
    - intros c args n s Hc Hst. apply handler_stays_top; [|exact Hst].
      intros ->. discriminate.
    - eapply Forall_impl; [|exact Ha]. intros l Hl. unfold notCommand in Hl.
      destruct (commandOf l) as [c|]; [|exact I].
      destruct c; try reflexivity. congruence.
    - split; reflexivity. }
  assert (B : Forall fileless (objs st)).
  { unfold st.
    apply (parseLines_invariant (fun s => Forall fileless (objs s))
             (fun c => match c with FILE => false | _ => true end)).
    - intros e s Hst. exact Hst.
    - intros e s Hst. exact Hst.
    - intros c args n s Hc Hst. apply handler_fileless; [|exact Hst].
      intros ->. discriminate.
    - eapply Forall_impl; [|exact Hb]. intros l Hl. unfold notCommand in Hl.
      destruct (commandOf l) as [c|]; [|exact I].
      destruct c; try reflexivity. congruence.
    - destruct T as [_ ->]. constructor. }
  assert (Bf : Forall fileless (objs (finalize st)))
    by (unfold finalize; destruct (currentTrack st); exact B).
  destruct (errors (finalize st)); [|discriminate].
  inversion H; subst d. cbn [cs_tracks].
  apply Forall_forall. intros t Ht. apply deref_In in Ht.
  rewrite Forall_forall in Bf. auto.
Qed.

Lemma files_before_first_track_are_dropped_witness :
  Forall fileless [set_indexes (Some [mkIndex 1 (mkTime 0 0 0)]) (newTrack 1 AUDIO)]
  /\ r_warnings (parseCueSheet fileFirstSheet)
     = [mkError 1 globalFileWarning (str "FILE a.wav WAVE")].
Proof.
  split; [|vm_compute; reflexivity].
  apply (files_before_first_track_are_dropped newCueParser fileFirstSheet
           [str "FILE a.wav WAVE"] [str "TRACK 01 AUDIO"; str "INDEX 01 00:00:00"]
           (mkSheet emptyGlobal
              [set_indexes (Some [mkIndex 1 (mkTime 0 0 0)]) (newTrack 1 AUDIO)])).
  - vm_compute. reflexivity.
  - repeat constructor. unfold notCommand. vm_compute. discriminate.
  - repeat constructor; unfold notCommand; vm_compute; discriminate.
  - vm_compute. reflexivity.
Defined.

(** ** The values of a document *)

(** X5: The document of a result holds values in range: track numbers from 1 to
    99, index numbers from 0 to 99, times with seconds below 60 and frames
    below 75 and no negative part, a catalog of 13 digits, and texts without
    line feed. *)
Theorem parsed_document_is_valid :
  forall this content d,
    cueSheet (snd (parse this content)) = Some d ->
    globalOK (cs_global d) /\ Forall trackOK (cs_tracks d).
Proof. intros this content d H. exact (parse_docOK this content d H). Qed.

Lemma parsed_document_is_valid_witness :
  globalOK (cs_global scenario1Doc) /\ Forall trackOK (cs_tracks scenario1Doc).
Proof.
  apply (parsed_document_is_valid newCueParser scenario1 scenario1Doc).
  vm_compute. reflexivity.
Defined.

(** ** The order of the index lines *)

Lemma insertIndex_In {T} (x y : TrackIndex T) l : In y (insertIndex x l) -> y = x \/ In y l.
Proof.
  intros H. apply (Permutation_in _ (insertIndex_perm x l)) in H.
  destruct H as [<- | H]; auto.
Qed.

Lemma insertIndex_sorted {T} (x : TrackIndex T) l :
  ascendingIndexes l -> ascendingIndexes (insertIndex x l).
Proof.
  unfold ascendingIndexes. intros H. induction H as [|y l Hl IH Hy]; simpl.
  - repeat constructor.
  - destruct (idx_number y <? idx_number x)%Z eqn:E.
    + apply Z.ltb_lt in E. constructor; [exact IH|].
      apply Forall_forall. intros z Hz. apply insertIndex_In in Hz.
      destruct Hz as [-> | Hz]; [lia|]. rewrite Forall_forall in Hy. auto.
    + apply Z.ltb_ge in E. constructor; [now constructor|].
      constructor; [exact E|]. eapply Forall_impl; [|exact Hy].
      intros z Hz. cbv beta in Hz. lia.
Qed.

Lemma insertIndex_withNumber {T} k (x : TrackIndex T) l :
  ascendingIndexes l ->
  withNumber k (insertIndex x l) = withNumber k (x :: l).
Proof.
  unfold ascendingIndexes, withNumber. intros H. induction H as [|y l Hl IH Hy]; [reflexivity|].
  cbn [insertIndex]. destruct (idx_number y <? idx_number x)%Z eqn:E; [|reflexivity].
  apply Z.ltb_lt in E. cbn [filter] in *. rewrite IH.
  destruct (idx_number x =? k)%Z eqn:Ex; [|reflexivity].
  apply Z.eqb_eq in Ex.
  replace (idx_number y =? k)%Z with false by (symmetry; apply Z.eqb_neq; lia).
  reflexivity.
Qed.

Lemma sortIndexes_ascending {T} (l : list (TrackIndex T)) : ascendingIndexes (sortIndexes l).
Proof.
  induction l as [|x l IH]; [constructor|]. simpl. now apply insertIndex_sorted.
Qed.

Lemma sortIndexes_withNumber {T} k (l : list (TrackIndex T)) :
  withNumber k (sortIndexes l) = withNumber k l.
Proof.
  induction l as [|x l IH]; [reflexivity|].
  cbn [sortIndexes]. rewrite insertIndex_withNumber by apply sortIndexes_ascending.
  unfold withNumber in *. cbn [filter]. now rewrite IH.
Qed.

Lemma sortIndexes_id {T} (l : list (TrackIndex T)) :
  ascendingIndexes l -> sortIndexes l = l.
Proof.
  unfold ascendingIndexes. intros H. induction H as [|x l Hl IH Hx]; [reflexivity|].
  cbn [sortIndexes]. rewrite IH. destruct l as [|y l]; [reflexivity|].
  cbn [insertIndex]. inversion Hx; subst.
  replace (idx_number y <? idx_number x)%Z with false by (symmetry; apply Z.ltb_ge; lia).
  reflexivity.
Qed.

Lemma startsWith_isPrefix p : forall s, startsWith p s = isPrefix p s.
Proof.
  unfold startsWith. induction p as [|a p IH]; intros s; [reflexivity|].
  destruct s as [|b s]; [reflexivity|]. cbn [length firstn jeqb isPrefix].
  rewrite IH. f_equal. apply Ascii.eqb_sym.
Qed.

Lemma isIndexLine_tabs3 rest : isIndexLine (tabs3 ++ rest) = isPrefix (str "INDEX ") rest.
Proof. unfold isIndexLine. rewrite startsWith_isPrefix. reflexivity. Qed.

Lemma isIndexLine_indexLine i : isIndexLine (indexLine i) = true.
Proof. unfold indexLine. rewrite isIndexLine_tabs3. reflexivity. Qed.

Lemma filter_indexLines l : filter isIndexLine (map indexLine l) = map indexLine l.
Proof.
  induction l as [|i l IH]; [reflexivity|].
  cbn [map filter]. now rewrite isIndexLine_indexLine, IH.
Qed.

Lemma filter_whenText p o f :
  (forall v, p (f v) = false) -> filter p (whenText o f) = [].
Proof.
  intros H. destruct o as [[|c s]|]; [reflexivity | | reflexivity].
  cbn [whenText filter]. now rewrite H.
Qed.

Lemma filter_remarkLines o : filter isIndexLine (remarkLines tabs3 o) = [].
Proof.
  destruct o as [l|]; [|reflexivity]. unfold remarkLines. cbn [whenSome].
  induction l as [|r l IH]; [reflexivity|].
  cbn [map filter]. rewrite isIndexLine_tabs3. exact IH.
Qed.

Lemma isIndexLine_fileLine f : isIndexLine (fileLine tabs3 f) = false.
Proof.
  unfold fileLine.
  destruct (includes [SP] (filename f) || includes [DQ] (filename f));
    now rewrite isIndexLine_tabs3.
Qed.

Lemma isIndexLine_trackLine t : isIndexLine (trackLine t) = false.
Proof. unfold isIndexLine. rewrite startsWith_isPrefix. reflexivity. Qed.

(** The INDEX lines of a track's content are the lines of its sorted index
    entries. *)
Lemma indexLines_content t :
  filter isIndexLine (serializeTrackContent t) = map indexLine (sortIndexes (indexList t)).
Proof.
  unfold serializeTrackContent, indexList. rewrite !filter_app.
  cbn [filter]. rewrite isIndexLine_trackLine.
  rewrite !filter_whenText
    by (intros v; unfold textLine; rewrite isIndexLine_tabs3; reflexivity).
  rewrite filter_remarkLines.
  assert (Ef : filter isIndexLine (whenSome (file t) (fun f => [fileLine tabs3 f])) = []).
  { destruct (file t) as [f|]; [|reflexivity]. cbn [whenSome filter].
    now rewrite isIndexLine_fileLine. }
  assert (Eg : filter isIndexLine (whenSome (flags t) flagsLine) = []).
  { destruct (flags t) as [[|f fl]|]; reflexivity. }
  assert (Ep : filter isIndexLine
                 (whenSome (pregap t) (fun p => [tabs3 ++ str "PREGAP " ++ formatHMSTime p]))
               = []).
  { destruct (pregap t) as [p|]; [|reflexivity]. cbn [whenSome filter].
    now rewrite isIndexLine_tabs3. }
  assert (Eq : filter isIndexLine
                 (whenSome (postgap t) (fun p => [tabs3 ++ str "POSTGAP " ++ formatHMSTime p]))
               = []).
  { destruct (postgap t) as [p|]; [|reflexivity]. cbn [whenSome filter].
    now rewrite isIndexLine_tabs3. }
  rewrite Ef, Eg, Ep, Eq. cbn [app]. rewrite app_nil_r.
  destruct (indexes t) as [l|]; [|reflexivity].
  cbn [whenSome]. apply filter_indexLines.
Qed.

(** X13: The INDEX lines that [serializeTrackContent] writes for a track are
    the lines of the track's index entries in ascending order of their
    numbers, whatever their order in the track: none is lost or added,
    entries with the same number keep their order, and entries that are in
    ascending order already are written in their order. *)
Theorem index_lines_are_sorted :
  forall t, exists l,
    filter isIndexLine (serializeTrackContent t) = map indexLine l
    /\ ascendingIndexes l
    /\ Permutation l (indexList t)
    /\ (forall k, withNumber k l = withNumber k (indexList t))
    /\ (ascendingIndexes (indexList t) -> l = indexList t).
Proof.
  intros t. exists (sortIndexes (indexList t)).
  split; [apply indexLines_content|].
  split; [apply sortIndexes_ascending|].
  split; [apply sortIndexes_perm|].
  split; [intros k; apply sortIndexes_withNumber | apply sortIndexes_id].
Qed.

Lemma index_lines_are_sorted_witness :
  (exists l,
     filter isIndexLine
       (serializeTrackContent
          (set_indexes (Some [mkIndex 1 (mkHMS 0 2 0); mkIndex 0 (mkHMS 0 0 0)])
             (set_title (Some (str "Intro")) (newTrack 1 AUDIO))))
     = map indexLine l
     /\ ascendingIndexes l)
  /\ filter isIndexLine
       (serializeTrackContent
          (set_indexes (Some [mkIndex 1 (mkHMS 0 2 0); mkIndex 0 (mkHMS 0 0 0)])
             (set_title (Some (str "Intro")) (newTrack 1 AUDIO))))
     = [tabs3 ++ str "INDEX 00 00:00:00"; tabs3 ++ str "INDEX 01 00:02:00"].
Proof.
  split; [|vm_compute; reflexivity].
  destruct (index_lines_are_sorted
              (set_indexes (Some [mkIndex 1 (mkHMS 0 2 0); mkIndex 0 (mkHMS 0 0 0)])
                 (set_title (Some (str "Intro")) (newTrack 1 AUDIO))))
    as [l [E [A _]]].
  exists l. split; [exact E | exact A].
Defined.

(** ** The FILE lines that are not indented *)

Lemma tabbed_not_startsFile l : tabbed l -> startsFile l = false.
Proof. intros [c [b [_ [-> | ->]]]]; reflexivity. Qed.

Lemma filter_none {A} (p : A -> bool) l :
  Forall (fun x => p x = false) l -> filter p l = [].
Proof.
  intros H. induction H as [|x l Hx Hl IH]; [reflexivity|]. simpl. now rewrite Hx.
Qed.

Lemma content_no_startsFile t : filter startsFile (serializeTrackContent t) = [].
Proof.
  apply filter_none. eapply Forall_impl; [|apply tabbed_serializeTrackContent].
  intros l. apply tabbed_not_startsFile.
Qed.

Lemma fileLine_startsFile f : startsFile (fileLine [] f) = true.
Proof. unfold fileLine. destruct (_ || _); reflexivity. Qed.

Lemma global_no_startsFile g : filter startsFile (serializeGlobal g) = [].
Proof.
  apply filter_none. unfold serializeGlobal, remarkLines.
  repeat apply Forall_app_intro;
    try (match goal with
         | |- Forall _ (whenText ?o _) =>
             destruct o as [[|c s]|]; cbn [whenText]; repeat constructor
         end).
  destruct (g_remarks g) as [l|]; cbn [whenSome]; [|constructor].
  apply Forall_forall. intros x Hx. apply in_map_iff in Hx. destruct Hx as [y [<- _]].
  reflexivity.
Qed.

Lemma fileNames_cons t ts :
  fileNames (t :: ts)
  = match file t with Some f => filename f :: fileNames ts | None => fileNames ts end.
Proof. unfold fileNames. cbn [flat_map]. destruct (file t); reflexivity. Qed.

Lemma countRuns_pos x l : 1 <= countRuns (x :: l).
Proof.
  revert x. induction l as [|y l IH]; intros x; cbn [countRuns]; [lia|].
  destruct (jeqb x y); [apply IH|]. lia.
Qed.

Lemma countRuns_cons x y l :
  countRuns (x :: y :: l) = if jeqb x y then countRuns (y :: l) else S (countRuns (y :: l)).
Proof. reflexivity. Qed.

Lemma optimized_file_lines ts : forall lastFile,
  length (filter startsFile (serializeTracksOptimized ts lastFile))
  = match lastFile with
    | None => countRuns (fileNames ts)
    | Some p => countRuns (p :: fileNames ts) - 1
    end.
Proof.
  induction ts as [|t ts IH]; intros lastFile.
  - destruct lastFile; reflexivity.
  - cbn [serializeTracksOptimized]. rewrite fileNames_cons. unfold fileChanged.
    destruct (file t) as [f|] eqn:Ef.
    + destruct lastFile as [p|].
      * destruct (jeqb (filename f) p) eqn:E.
        -- apply jeqb_eq in E. subst p.
           rewrite filter_app, content_no_startsFile. cbn [app]. rewrite IH.
           rewrite (countRuns_cons (filename f)), jeqb_refl. reflexivity.
        -- cbn [filter]. rewrite fileLine_startsFile.
           rewrite filter_app, content_no_startsFile. cbn [app length]. rewrite IH.
           rewrite (countRuns_cons p).
           assert (E' : jeqb p (filename f) = false).
           { destruct (jeqb p (filename f)) eqn:E2; [|reflexivity].
             apply jeqb_eq in E2. subst p. now rewrite jeqb_refl in E. }
           rewrite E'. pose proof (countRuns_pos (filename f) (fileNames ts)). lia.
      * cbn [filter]. rewrite fileLine_startsFile.
        rewrite filter_app, content_no_startsFile. cbn [app length]. rewrite IH.
        pose proof (countRuns_pos (filename f) (fileNames ts)). lia.
    + rewrite filter_app, content_no_startsFile. cbn [app]. apply IH.
Qed.

(** X14: Among the lines of a serialized sheet, the FILE lines that are not
    indented are one for each run of neighbouring equal names in the list of
    the file names of the tracks that have a file: a name is not repeated
    for the tracks that follow with the same file, and a track without file
    does not end a run. *)
Theorem unindented_file_lines_are_deduplicated :
  forall d,
    serializeCueSheet d = join [LF] (sheetLines d) ++ [LF]
    /\ length (filter startsFile (sheetLines d)) = countRuns (fileNames (cs_tracks d)).
Proof.
  intros d. split; [reflexivity|]. unfold sheetLines.
  rewrite filter_app, global_no_startsFile. cbn [app].
  apply (optimized_file_lines (cs_tracks d) None).
Qed.

(** ** Formatting with the default indentation *)

Lemma reindent_tab l : reindent [TAB] l = l.
Proof.
  unfold reindent.
  destruct (startsWith tabs3 l) eqn:E3.
  - unfold startsWith in E3. apply jeqb_eq in E3. cbn [length tabs3] in E3.
    rewrite <- (firstn_skipn 3 l) at 2. rewrite E3. reflexivity.
  - destruct (startsWith tabs2 l) eqn:E2; [|reflexivity].
    unfold startsWith in E2. apply jeqb_eq in E2. cbn [length tabs2] in E2.
    rewrite <- (firstn_skipn 2 l) at 2. rewrite E2. reflexivity.
Qed.

Lemma map_reindent_tab ls : map (reindent [TAB]) ls = ls.
Proof. induction ls as [|l ls IH]; [reflexivity|]. simpl. now rewrite reindent_tab, IH. Qed.

Lemma formatTracks_plain ts : forall index,
  formatTracks [TAB] false ts index = flat_map serializeTrackContent ts.
Proof.
  induction ts as [|t ts IH]; intros index; [reflexivity|].
  cbn [formatTracks flat_map]. rewrite andb_false_r, map_reindent_tab, IH. reflexivity.
Qed.

Lemma optimized_fileless ts lastFile :
  Forall fileless ts ->
  serializeTracksOptimized ts lastFile = flat_map serializeTrackContent ts.
Proof.
  intros H. induction H as [|t ts Ht Hts IH]; [reflexivity|].
  cbn [serializeTracksOptimized flat_map]. unfold fileChanged. rewrite Ht. now rewrite IH.
Qed.

(** X15: For a sheet in which no track has a file, [formatCueSheet] with the
    default indentation and without spacing between the tracks gives the
    text of [serializeCueSheet]. *)
Theorem formatCueSheet_plain_is_serializeCueSheet :
  forall d,
    Forall fileless (cs_tracks d) ->
    formatCueSheet d (mkOptions None (Some false)) = serializeCueSheet d.
Proof.
  intros d H. unfold formatCueSheet, serializeCueSheet.
  cbn [indentOf trackSpacingOf indent trackSpacing]. rewrite andb_false_r, app_nil_r.
  rewrite formatTracks_plain, optimized_fileless by exact H. reflexivity.
Qed.

Lemma formatCueSheet_plain_is_serializeCueSheet_witness :
  formatCueSheet scenario1Input (mkOptions None (Some false)) = serializeCueSheet scenario1Input.
Proof.
  apply formatCueSheet_plain_is_serializeCueSheet. repeat constructor.
Defined.

(** ** Quoted texts *)

Lemma escapeString_cons c s :
  escapeString (c :: s) = (if Ascii.eqb c DQ then [DQ; DQ] else [c]) ++ escapeString s.
Proof. reflexivity. Qed.

Lemma escapeString_nil_iff s : escapeString s = [] -> s = [].
Proof.
  destruct s as [|c s]; [reflexivity|]. rewrite escapeString_cons.
  destruct (Ascii.eqb c DQ); discriminate.
Qed.

Lemma unescape_escape s : unescapeString (escapeString s) = s.
Proof.
  induction s as [|c s IH]; [reflexivity|].
  rewrite escapeString_cons. destruct (Ascii.eqb c DQ) eqn:E.
  - apply Ascii.eqb_eq in E. subst c. cbn [app unescapeString].
    rewrite Ascii.eqb_refl. cbn [andb]. now rewrite IH.
  - cbn [app]. destruct (escapeString s) as [|c2 r] eqn:Es.
    + apply escapeString_nil_iff in Es. now subst.
    + cbn [unescapeString]. rewrite E. cbn [andb].
      f_equal. exact IH.
Qed.

Lemma length_escapeString s :
  lacks DQ s = false -> length s < length (escapeString s).
Proof.
  induction s as [|c s IH]; [discriminate|].
  rewrite escapeString_cons. cbn [lacks forallb]. fold (lacks DQ s).
  assert (L : length s <= length (escapeString s)).
  { clear. induction s as [|c s IH]; [simpl; lia|]. rewrite escapeString_cons, length_app.
    destruct (Ascii.eqb c DQ); simpl; lia. }
  destruct (Ascii.eqb c DQ); simpl; intros H; rewrite ?length_app; simpl; [lia|].
  specialize (IH H). lia.
Qed.

(** X12: A text written by the serializer between double quotes, with its double
    quotes doubled, is read back unchanged by the [parseQuotedString] of the
    web library.  The one of the parser class gives the text as it was
    written, the doubled quotes kept: it reads the text back unchanged
    exactly when the text holds no double quote. *)
Theorem quoted_text_read_back :
  forall s,
    webParseQuotedString (quoted (escapeString s)) = s
    /\ parseQuotedString (quoted (escapeString s)) = escapeString s
    /\ (parseQuotedString (quoted (escapeString s)) = s <-> lacks DQ s = true).
Proof.
  intros s. split; [|split].
  - unfold webParseQuotedString. rewrite trim_quoted.
    assert (H1 : startsWith [DQ] (quoted (escapeString s)) = true) by apply startsWith_cons.
    assert (H2 : endsWith [DQ] (quoted (escapeString s)) = true)
      by (change (quoted (escapeString s)) with ((DQ :: escapeString s) ++ [DQ]);
          apply endsWith_snoc).
    rewrite H1, H2. cbn [andb]. unfold slice1m1, quoted. cbn [tl].
    rewrite removelast_snoc. apply unescape_escape.
  - apply parseQuotedString_quoted.
  - rewrite parseQuotedString_quoted. split.
    + intros E. destruct (lacks DQ s) eqn:L; [reflexivity|].
      apply length_escapeString in L. rewrite E in L. lia.
    + apply escapeString_lacks.
Qed.

Lemma quoted_text_read_back_witness :
  parseQuotedString (quoted (escapeString (str "Abbey Road"))) = str "Abbey Road".
Proof.
  apply (proj2 (proj2 (proj2 (quoted_text_read_back (str "Abbey Road"))))).
  reflexivity.
Defined.

(** * The exact round trip *)

(** ** Lines that change the open track *)

Lemma trackSteps_nil : trackSteps [] (fun t => t).
Proof. intros i o c g w. exists w. reflexivity. Qed.

Lemma trackSteps_app a b fa fb :
  trackSteps a fa -> trackSteps b fb -> trackSteps (a ++ b) (fun t => fb (fa t)).
Proof.
  intros Ha Hb i o c g w. rewrite parseLines_app.
  destruct (Ha i o c g w) as [w1 E1]. rewrite E1. apply Hb.
Qed.

Lemma trackSteps_ext ls f f' :
  (forall t, f t = f' t) -> trackSteps ls f -> trackSteps ls f'.
Proof.
  intros E H i o c g w. destruct (H i o c g w) as [w' E1].
  exists w'. now rewrite <- E.
Qed.

Lemma trackSteps_handler pre c rest f :
  forallb isWhiteSpace pre = true ->
  (forall n o t g w,
     exists w',
       handler c (trim rest) n (inTrack o t g w)
       = Ok (updTrack (length o) f (inTrack o t g w'))) ->
  trackSteps [cmdLine pre c rest] f.
Proof.
  intros Hpre H i o t g w. simpl.
  rewrite step_cmdLine by exact Hpre.
  destruct (H (i + 1) o t g w) as [w' E]. rewrite E.
  exists w'. apply updTrack_inTrack.
Qed.

Lemma trackSteps_text pre c kw tset gset v :
  forallb isWhiteSpace pre = true ->
  str kw = keyword c ->
  (forall args n, handler c args n = setText tset gset (parseQuotedString args)) ->
  lacks DQ v = true ->
  trackSteps [textLine pre kw v] (tset (Some v)).
Proof.
  intros Hpre Hk Hh Hv. rewrite (textLine_cmdLine pre c) by exact Hk.
  apply trackSteps_handler; [exact Hpre|].
  intros n o t g w. rewrite Hh. unfold setText. cbn [currentTrack inTrack].
  rewrite trim_quoted, parseQuotedString_quoted, escapeString_lacks by exact Hv.
  exists w. reflexivity.
Qed.

Lemma trackSteps_whenText pre c kw tset gset (tget : Track MSFTime -> option jstring) o :
  forallb isWhiteSpace pre = true ->
  str kw = keyword c ->
  (forall args n, handler c args n = setText tset gset (parseQuotedString args)) ->
  (forall t, tset (tget t) t = t) ->
  plainText o = true ->
  trackSteps (whenText o (textLine pre kw)) (fun t => tset (orElse o (tget t)) t).
Proof.
  intros Hpre Hk Hh Hg Ho. destruct o as [[|x s]|]; try discriminate.
  - cbn [whenText orElse]. now apply (trackSteps_text pre c kw tset gset).
  - eapply trackSteps_ext; [|apply trackSteps_nil]. intros t. cbn [orElse]. now rewrite Hg.
Qed.

Lemma trackSteps_isrc pre v :
  forallb isWhiteSpace pre = true -> trimmed v ->
  trackSteps [pre ++ str "ISRC " ++ v] (set_isrc (Some v)).
Proof.
  intros Hpre Hv.
  change (pre ++ str "ISRC " ++ v) with (cmdLine pre ISRC v).
  apply trackSteps_handler; [exact Hpre|].
  intros n o t g w. unfold handler, handleIsrc. cbn [currentTrack inTrack].
  unfold trimmed in Hv. rewrite !Hv.
  destruct (negb (allUpperAlnum 12 v)).
  - eexists. rewrite pushWarning_inTrack. reflexivity.
  - exists w. reflexivity.
Qed.

Lemma parseFileArgs_plain_eq fn fmt :
  fn <> [] -> noWs fn = true -> lacks DQ fn = true ->
  parseFileArgs (trim (fn ++ formatSuffix fmt)) = Ret (fn, fmt).
Proof.
  intros Hne Hws Hdq. unfold parseFileArgs, formatSuffix. rewrite trim_idem.
  destruct fmt as [f|].
  - destruct (formatName_facts f) as [F1 [F2 F3]].
    destruct fn as [|x fn]; [congruence|].
    assert (E : trim ((x :: fn) ++ SP :: formatName f) = (x :: fn) ++ SP :: formatName f).
    { apply trim_id; [apply (noWs_head (x :: fn) Hws)|].
      rewrite last_app_cons. destruct f; reflexivity. }
    rewrite E.
    replace (startsWith [DQ] ((x :: fn) ++ SP :: formatName f)) with false.
    2:{ symmetry. pose proof (noWs_startsWith_DQ (x :: fn) Hdq) as S.
        unfold startsWith in *. simpl in *. exact S. }
    rewrite splitWs_app_sp by (try exact Hws; destruct f; reflexivity).
    rewrite splitWs_noWs by exact F2.
    replace (isEmpty (formatName f)) with false by (destruct f; reflexivity).
    rewrite F3. reflexivity.
  - rewrite app_nil_r. rewrite noWs_trim by exact Hws.
    rewrite noWs_startsWith_DQ by exact Hdq.
    rewrite splitWs_noWs by exact Hws. reflexivity.
Qed.

Lemma parseFileArgs_quoted_eq fn fmt :
  lacks DQ fn = true ->
  parseFileArgs (trim (quoted fn ++ formatSuffix fmt)) = Ret (fn, fmt).
Proof.
  intros Hdq. unfold parseFileArgs. rewrite trim_idem.
  set (fs := formatSuffix fmt).
  assert (E : trim (quoted fn ++ fs) = quoted fn ++ fs).
  { apply trim_id; [reflexivity|]. subst fs. destruct fmt as [f|]; unfold formatSuffix.
    - rewrite last_app_cons. destruct f; reflexivity.
    - rewrite app_nil_r. unfold quoted.
      change (DQ :: fn ++ [DQ]) with ((DQ :: fn) ++ [DQ]). now rewrite last_snoc. }
  rewrite E.
  assert (S1 : startsWith [DQ] (quoted fn ++ fs) = true) by apply startsWith_cons.
  rewrite S1.
  assert (I : indexOf DQ 1 (quoted fn ++ fs) = Some (1 + length fn)).
  { unfold indexOf, quoted. simpl skipn. rewrite <- app_assoc.
    rewrite indexFrom_app_lacks by exact Hdq. simpl. reflexivity. }
  rewrite I.
  assert (R : substringFrom (1 + length fn + 1) (quoted fn ++ fs) = fs).
  { unfold substringFrom, quoted. replace (1 + length fn + 1) with (S (length (fn ++ [DQ])))
      by (rewrite length_app; simpl; lia).
    simpl. rewrite skipn_length_app. reflexivity. }
  rewrite R.
  assert (N : substring 1 (1 + length fn) (quoted fn ++ fs) = fn).
  { unfold substring, quoted. replace (1 + length fn - 1) with (length fn) by lia.
    simpl skipn. rewrite <- app_assoc. apply firstn_length_app. }
  rewrite N. subst fs. destruct fmt as [f|]; unfold formatSuffix.
  - destruct (formatName_facts f) as [F1 [F2 F3]].
    assert (T : trim (SP :: formatName f) = formatName f).
    { unfold trim, trimStart. cbn [dropWhile]. change (isWhiteSpace SP) with true.
      cbv iota. now apply noWs_trim. }
    rewrite T. replace (isEmpty (formatName f)) with false by (destruct f; reflexivity).
    rewrite F3. reflexivity.
  - reflexivity.
Qed.

(** The FILE line of a file with a plain name is read as that name and
    format. *)
Lemma fileLine_args pre f :
  filename f <> [] -> plainName (filename f) = true ->
  exists rest,
    fileLine pre f = cmdLine pre FILE rest
    /\ parseFileArgs (trim rest) = Ret (filename f, format f).
Proof.
  intros Hne Hp. unfold fileLine, formatStr. fold (formatSuffix (format f)).
  assert (Hdq : lacks DQ (filename f) = true)
    by (unfold plainName in Hp; apply andb_true_iff in Hp; tauto).
  rewrite !includes_single, Hdq. simpl negb. rewrite orb_false_r.
  destruct (lacks SP (filename f)) eqn:Hsp; simpl negb; cbv iota.
  - eexists. split; [reflexivity|].
    apply parseFileArgs_plain_eq; [exact Hne | now apply plainName_noSp | exact Hdq].
  - rewrite escapeString_lacks by exact Hdq.
    eexists. split; [reflexivity|]. now apply parseFileArgs_quoted_eq.
Qed.

Lemma trackSteps_fileLine pre f :
  forallb isWhiteSpace pre = true ->
  filename f <> [] -> plainName (filename f) = true -> lacks SLASH (filename f) = true ->
  trackSteps [fileLine pre f] (set_file (Some f)).
Proof.
  intros Hpre Hne Hp Hs. destruct (fileLine_args pre f Hne Hp) as [rest [E P]].
  rewrite E. apply trackSteps_handler; [exact Hpre|].
  intros n o t g w. unfold handler, handleFile. rewrite P. cbn [currentTrack inTrack].
  rewrite (split_lacks SLASH (filename f) Hs). cbn [last].
  exists w. destruct f. reflexivity.
Qed.

Lemma globalSteps_fileLine f :
  filename f <> [] -> plainName (filename f) = true ->
  globalSteps [fileLine [] f] (fun g => g).
Proof.
  intros Hne Hp. destruct (fileLine_args [] f Hne Hp) as [rest [E P]].
  rewrite E. intros i g w. cbn [parseLines]. rewrite step_cmdLine by reflexivity.
  unfold handler, handleFile. rewrite P. cbn [currentTrack atTop].
  eexists. reflexivity.
Qed.

Lemma trackSteps_flagsLine pre fl :
  forallb isWhiteSpace pre = true -> fl <> [] ->
  trackSteps (flagsLineAt pre fl) (set_flags (Some fl)).
Proof.
  intros Hpre Hne. destruct fl as [|f fl]; [congruence|].
  unfold flagsLineAt.
  change (pre ++ str "FLAGS " ++ join [SP] (map flagName (f :: fl)))
    with (cmdLine pre FLAGS (join [SP] (map flagName (f :: fl)))).
  destruct (join_flags_shape f fl) as [J1 [J2 [J3 J4]]].
  apply trackSteps_handler; [exact Hpre|].
  intros n o t g w. unfold handler, handleFlags. cbn [currentTrack inTrack].
  rewrite trim_idem, trim_id by assumption.
  rewrite J4, parseFlags_names.
  exists w. reflexivity.
Qed.

Lemma trackSteps_pregap pre p :
  forallb isWhiteSpace pre = true -> timeOK (rereadTime p) ->
  trackSteps [pre ++ str "PREGAP " ++ formatHMSTime p] (set_pregap (Some (rereadTime p))).
Proof.
  intros Hpre Hp.
  change (pre ++ str "PREGAP " ++ formatHMSTime p) with (cmdLine pre PREGAP (formatHMSTime p)).
  apply trackSteps_handler; [exact Hpre|].
  intros n o t g w. unfold handler, handlePregap. cbn [currentTrack inTrack].
  rewrite !formatHMSTime_trim, parseMSFTime_format by assumption.
  exists w. reflexivity.
Qed.

Lemma trackSteps_postgap pre p :
  forallb isWhiteSpace pre = true -> timeOK (rereadTime p) ->
  trackSteps [pre ++ str "POSTGAP " ++ formatHMSTime p] (set_postgap (Some (rereadTime p))).
Proof.
  intros Hpre Hp.
  change (pre ++ str "POSTGAP " ++ formatHMSTime p)
    with (cmdLine pre POSTGAP (formatHMSTime p)).
  apply trackSteps_handler; [exact Hpre|].
  intros n o t g w. unfold handler, handlePostgap. cbn [currentTrack inTrack].
  rewrite !formatHMSTime_trim, parseMSFTime_format by assumption.
  exists w. reflexivity.
Qed.

Lemma trackSteps_indexLine pre i :
  forallb isWhiteSpace pre = true -> indexOK (rereadIndex i) ->
  trackSteps [indexLineAt pre i]
    (fun t => set_indexes (pushOpt (indexes t) (rereadIndex i)) t).
Proof.
  intros Hpre [Hn Ht]. cbn [rereadIndex idx_number idx_time] in Hn, Ht.
  change (indexLineAt pre i)
    with (cmdLine pre INDEX (num (idx_number i) ++ SP :: formatHMSTime (idx_time i))).
  apply trackSteps_handler; [exact Hpre|].
  intros n o t g w. unfold handler, handleIndex. cbn [currentTrack inTrack].
  rewrite trim_idem.
  rewrite num_sp_trim by (try apply formatHMSTime_noWs; apply formatHMSTime_nonempty).
  rewrite splitWs_app_sp by (try apply num_noWs; apply noWs_head, formatHMSTime_noWs).
  rewrite splitWs_noWs by apply formatHMSTime_noWs.
  rewrite parseInt_num by lia.
  replace (idx_number i <? 0)%Z with false by (symmetry; apply Z.ltb_ge; lia).
  replace (99 <? idx_number i)%Z with false by (symmetry; apply Z.ltb_ge; lia).
  cbn [orb]. rewrite parseMSFTime_format by assumption.
  exists w. reflexivity.
Qed.

Lemma trackSteps_remark pre r :
  forallb isWhiteSpace pre = true -> trimmed r ->
  trackSteps [pre ++ str "REM " ++ r] (fun t => set_remarks (pushOpt (remarks t) r) t).
Proof.
  intros Hpre Hr.
  change (pre ++ str "REM " ++ r) with (cmdLine pre REM r).
  apply trackSteps_handler; [exact Hpre|].
  intros n o t g w. unfold handler, handleRemark. cbn [currentTrack inTrack].
  unfold trimmed in Hr. rewrite Hr. exists w. reflexivity.
Qed.

(** ** Lists of index and remark lines *)

Lemma pushAll_cons {A} (o : option (list A)) x xs :
  pushAll (pushOpt o x) xs = pushAll o (x :: xs).
Proof.
  destruct o as [l|]; destruct xs as [|y xs]; cbn [pushAll pushOpt];
    rewrite <- ?app_assoc; reflexivity.
Qed.

Lemma trackSteps_indexLines pre l :
  forallb isWhiteSpace pre = true -> Forall indexOK (map rereadIndex l) ->
  trackSteps (map (indexLineAt pre) l)
    (fun t => set_indexes (pushAll (indexes t) (map rereadIndex l)) t).
Proof.
  intros Hpre. induction l as [|i l IH]; intros H.
  - eapply trackSteps_ext; [|apply trackSteps_nil]. intros []. reflexivity.
  - cbn [map] in H. inversion H as [|? ? Hi Hl]; subst.
    change (map (indexLineAt pre) (i :: l))
      with ([indexLineAt pre i] ++ map (indexLineAt pre) l).
    eapply trackSteps_ext;
      [|apply (trackSteps_app _ _ _ _ (trackSteps_indexLine pre i Hpre Hi) (IH Hl))].
    intros t. cbv beta. cbn [map]. rewrite <- pushAll_cons. destruct t. reflexivity.
Qed.

Lemma trackSteps_remarkLines pre l :
  forallb isWhiteSpace pre = true -> Forall trimmed l ->
  trackSteps (map (fun remark => pre ++ str "REM " ++ remark) l)
    (fun t => set_remarks (pushAll (remarks t) l) t).
Proof.
  intros Hpre H. induction H as [|r l Hr Hl IH].
  - eapply trackSteps_ext; [|apply trackSteps_nil]. intros []. reflexivity.
  - change (map (fun remark => pre ++ str "REM " ++ remark) (r :: l))
      with ([pre ++ str "REM " ++ r] ++ map (fun remark => pre ++ str "REM " ++ remark) l).
    eapply trackSteps_ext;
      [|apply (trackSteps_app _ _ _ _ (trackSteps_remark pre r Hpre Hr) IH)].
    intros t. cbv beta. rewrite <- pushAll_cons. destruct t. reflexivity.
Qed.

(** A step that sets an optional field when the sheet has its line. *)
Lemma trackSteps_whenSome {A} (o : option A) (P : A -> Prop) (line : A -> list jstring)
    (tset : option A -> Track MSFTime -> Track MSFTime) (tget : Track MSFTime -> option A) :
  (forall t, tset (tget t) t = t) ->
  (forall v, P v -> trackSteps (line v) (tset (Some v))) ->
  optOK P o ->
  trackSteps (whenSome o line) (fun t => tset (orElse o (tget t)) t).
Proof.
  intros Hg Hl Ho. destruct o as [v|]; cbn [whenSome orElse optOK] in *.
  - now apply Hl.
  - eapply trackSteps_ext; [|apply trackSteps_nil]. intros t. now rewrite Hg.
Qed.

(** The same for a time: the line is written for the time [v] of the
    serializer, and the field is set to the time that is read back. *)
Lemma trackSteps_whenTime (o : option HMSTime) (line : HMSTime -> list jstring)
    (tset : option MSFTime -> Track MSFTime -> Track MSFTime)
    (tget : Track MSFTime -> option MSFTime) :
  (forall t, tset (tget t) t = t) ->
  (forall v, timeOK (rereadTime v) -> trackSteps (line v) (tset (Some (rereadTime v)))) ->
  optOK timeOK (option_map rereadTime o) ->
  trackSteps (whenSome o line) (fun t => tset (orElse (option_map rereadTime o) (tget t)) t).
Proof.
  intros Hg Hl Ho. destruct o as [v|]; cbn [whenSome orElse optOK option_map] in *.
  - now apply Hl.
  - eapply trackSteps_ext; [|apply trackSteps_nil]. intros t. now rewrite Hg.
Qed.

Lemma trackSteps_isrcOpt pre o :
  forallb isWhiteSpace pre = true ->
  optOK (fun s => s <> [] /\ trimmed s) o ->
  trackSteps (whenText o (fun v => pre ++ str "ISRC " ++ v))
    (fun c => set_isrc (orElse o (isrc c)) c).
Proof.
  intros Hp H. destruct o as [[|x s]|]; cbn [whenText orElse optOK] in *.
  - destruct H as [H _]. congruence.
  - apply trackSteps_isrc; [exact Hp | apply H].
  - eapply trackSteps_ext; [|apply trackSteps_nil]. intros []. reflexivity.
Qed.

Lemma trackSteps_indexesOpt pre o :
  forallb isWhiteSpace pre = true ->
  optOK (Forall indexOK) (option_map (map rereadIndex) o) ->
  optOK (fun l => l <> [] /\ ascendingIndexes l) o ->
  trackSteps (whenSome o (fun l => map (indexLineAt pre) (sortIndexes l)))
    (fun c => set_indexes (pushAllOpt (option_map (map rereadIndex) o) (indexes c)) c).
Proof.
  intros Hp H' H. destruct o as [l|]; cbn [whenSome pushAllOpt optOK option_map] in *.
  - destruct H as [_ H]. rewrite (sortIndexes_id l H).
    now apply trackSteps_indexLines.
  - eapply trackSteps_ext; [|apply trackSteps_nil]. intros []. reflexivity.
Qed.

Lemma trackSteps_remarksOpt pre o :
  forallb isWhiteSpace pre = true ->
  someItems trimmed o ->
  trackSteps (remarkLines pre o) (fun c => set_remarks (pushAllOpt o (remarks c)) c).
Proof.
  intros Hp H. unfold remarkLines, someItems in *.
  destruct o as [l|]; cbn [whenSome pushAllOpt optOK] in *.
  - destruct H as [_ H]. now apply trackSteps_remarkLines.
  - eapply trackSteps_ext; [|apply trackSteps_nil]. intros []. reflexivity.
Qed.

(** ** The lines of one track *)

Lemma trackSteps_contentAt p3 t :
  forallb isWhiteSpace p3 = true -> canonicalTrack t ->
  trackSteps (contentAt p3 t) (readInto t).
Proof.
  intros Hp C. pose proof (ct_ok t C) as OK. unfold contentAt.
  eapply trackSteps_ext; cycle 1.
  - apply trackSteps_app.
    { apply (trackSteps_whenText p3 TITLE "TITLE" set_title gset_title title);
        [exact Hp | reflexivity | reflexivity | intros []; reflexivity | apply (ct_title t C)]. }
    apply trackSteps_app.
    { apply (trackSteps_whenText p3 PERFORMER "PERFORMER" set_performer gset_performer performer);
        [exact Hp | reflexivity | reflexivity | intros []; reflexivity
        | apply (ct_performer t C)]. }
    apply trackSteps_app.
    { apply (trackSteps_whenText p3 SONGWRITER "SONGWRITER" set_songwriter gset_songwriter
               songwriter);
        [exact Hp | reflexivity | reflexivity | intros []; reflexivity
        | apply (ct_songwriter t C)]. }
    apply trackSteps_app.
    { apply (trackSteps_whenText p3 COMPOSER "COMPOSER" set_composer gset_composer composer);
        [exact Hp | reflexivity | reflexivity | intros []; reflexivity
        | apply (ct_composer t C)]. }
    apply trackSteps_app.
    { apply (trackSteps_whenText p3 ARRANGER "ARRANGER" set_arranger gset_arranger arranger);
        [exact Hp | reflexivity | reflexivity | intros []; reflexivity
        | apply (ct_arranger t C)]. }
    apply trackSteps_app.
    { apply (trackSteps_whenText p3 MESSAGE "MESSAGE" set_message gset_message message);
        [exact Hp | reflexivity | reflexivity | intros []; reflexivity
        | apply (ct_message t C)]. }
    apply trackSteps_app.
    { apply trackSteps_isrcOpt; [exact Hp | apply (ct_isrc t C)]. }
    apply trackSteps_app.
    { apply (trackSteps_whenSome (file t)
               (fun f => filename f <> [] /\ plainName (filename f) = true
                         /\ lacks SLASH (filename f) = true)
               (fun f => [fileLine p3 f]) set_file file);
        [intros []; reflexivity | | apply (ct_file t C)].
      intros f [H1 [H2 H3]]. now apply trackSteps_fileLine. }
    apply trackSteps_app.
    { apply (trackSteps_whenSome (flags t) (fun fl => fl <> []) (flagsLineAt p3)
               set_flags flags);
        [intros []; reflexivity | intros fl Hfl; now apply trackSteps_flagsLine|].
      pose proof (ct_flags t C) as H. destruct (flags t) as [fl|]; cbn [optOK]; [|exact I].
      congruence. }
    apply trackSteps_app.
    { apply (trackSteps_whenTime (pregap t)
               (fun p => [p3 ++ str "PREGAP " ++ formatHMSTime p]) set_pregap pregap);
        [intros []; reflexivity | intros p Hpp; now apply trackSteps_pregap
        | apply (ok_pregap _ OK)]. }
    apply trackSteps_app.
    { apply trackSteps_indexesOpt;
        [exact Hp | apply (ok_indexes _ OK) | apply (ct_indexes t C)]. }
    apply trackSteps_app.
    { apply (trackSteps_whenTime (postgap t)
               (fun p => [p3 ++ str "POSTGAP " ++ formatHMSTime p]) set_postgap postgap);
        [intros []; reflexivity | intros p Hpp; now apply trackSteps_postgap
        | apply (ok_postgap _ OK)]. }
    apply trackSteps_remarksOpt; [exact Hp | apply (ct_remarks t C)].
  - intros c. reflexivity.
Qed.

Lemma orElse_None {A} (o : option A) : orElse o None = o.
Proof. destruct o; reflexivity. Qed.

(** Read after its TRACK line, the content of a canonical track gives the
    track, with its times as the parser holds them. *)
Lemma readInto_newTrack t :
  canonicalTrack t -> readInto t (newTrack (number t) (mode t)) = rereadTrack t.
Proof.
  intros C. pose proof (ct_indexes t C) as Hi. pose proof (ct_remarks t C) as Hr.
  unfold someItems in Hr.
  destruct t as [n m fi ti pe so co ar me isr fl ix pr po re].
  cbn [indexes remarks optOK] in Hi, Hr.
  unfold readInto, newTrack, rereadTrack.
  cbn [set_title set_performer set_songwriter set_composer set_arranger set_message
       set_isrc set_file set_flags set_pregap set_indexes set_postgap set_remarks
       number mode file title performer songwriter composer arranger message isrc
       flags indexes pregap postgap remarks].
  rewrite !orElse_None.
  assert (Ei : pushAllOpt (option_map (map rereadIndex) ix) None
               = option_map (map rereadIndex) ix).
  { destruct ix as [[|x l]|]; cbn [option_map map pushAllOpt pushAll app]; try reflexivity.
    destruct Hi as [Hi _]. congruence. }
  assert (Er : pushAllOpt re None = re).
  { destruct re as [[|x l]|]; cbn [pushAllOpt pushAll app]; try reflexivity.
    destruct Hr as [Hr _]. congruence. }
  rewrite Ei, Er. reflexivity.
Qed.

Lemma step_trackLineAt p2 t ln st :
  forallb isWhiteSpace p2 = true -> (1 <= number t <= 99)%Z -> shaped st ->
  step (trackLineAt p2 t) ln st
  = inTrack (objs st) (newTrack (number t) (mode t)) (global st) (warnings st).
Proof.
  intros Hp Hn Hs.
  change (trackLineAt p2 t)
    with (cmdLine p2 TRACK (num (number t) ++ SP :: modeName (mode t))).
  rewrite step_cmdLine by exact Hp.
  unfold handler. rewrite (handleTrack_line (number t) (mode t)) by (auto; lia).
  destruct Hs as [g w | o c g w].
  - reflexivity.
  - cbn [currentTrack inTrack]. apply openTrack_inTrack.
Qed.

(** The lines of one canonical track, read in any state without error: the
    open track, if any, is committed, and the track is the open one. *)
Lemma read_trackContentAt p2 p3 t i st :
  forallb isWhiteSpace p2 = true -> forallb isWhiteSpace p3 = true ->
  shaped st -> canonicalTrack t ->
  exists w',
    parseLines (trackContentAt p2 p3 t) i st
    = inTrack (objs st) (rereadTrack t) (global st) w'.
Proof.
  intros H2 H3 Hs C. unfold trackContentAt. cbn [parseLines].
  rewrite step_trackLineAt; [|exact H2 | apply (ok_number _ (ct_ok t C)) | exact Hs].
  destruct (trackSteps_contentAt p3 t H3 C (S i) (objs st)
              (newTrack (number t) (mode t)) (global st) (warnings st)) as [w' E].
  exists w'. rewrite E. now rewrite readInto_newTrack.
Qed.

Lemma serializeTrackContent_At t :
  serializeTrackContent t = trackContentAt tabs2 tabs3 t.
Proof. reflexivity. Qed.

(** ** The lines of the tracks *)

Lemma optimized_blocks ts lastFile :
  serializeTracksOptimized ts lastFile
  = optFileLine (headFile ts lastFile) ++ blocks ts lastFile.
Proof.
  revert lastFile. induction ts as [|t ts IH]; intros lastFile; [reflexivity|].
  cbn [serializeTracksOptimized blocks headFile]. unfold lastFileAfter.
  destruct (fileChanged t lastFile) as [f|]; cbn [optFileLine whenSome app];
    rewrite IH; reflexivity.
Qed.

Lemma headFile_canonical ts lastFile f :
  Forall canonicalTrack ts -> headFile ts lastFile = Some f ->
  filename f <> [] /\ plainName (filename f) = true /\ lacks SLASH (filename f) = true.
Proof.
  intros H E. destruct ts as [|t ts]; [discriminate|]. cbn [headFile] in E.
  inversion H as [|? ? Ht _]; subst. pose proof (ct_file t Ht) as Hf.
  rewrite (fileChanged_file _ _ _ E) in Hf. exact Hf.
Qed.

Lemma read_optFileLine o i os c g w :
  optOK (fun f => filename f <> [] /\ plainName (filename f) = true
                  /\ lacks SLASH (filename f) = true) o ->
  exists w',
    parseLines (optFileLine o) i (inTrack os c g w) = inTrack os (putOpt set_file o c) g w'.
Proof.
  intros H. destruct o as [f|]; cbn [optFileLine whenSome putOpt optOK] in *.
  - destruct H as [H1 [H2 H3]].
    apply (trackSteps_fileLine [] f eq_refl H1 H2 H3).
  - exists w. reflexivity.
Qed.

Lemma rereadTrack_putOpt o t :
  rereadTrack (putOpt set_file o t) = putOpt set_file o (rereadTrack t).
Proof. destruct o; reflexivity. Qed.

Lemma read_blocks ts : forall lastFile i st,
  shaped st -> Forall canonicalTrack ts ->
  shaped (parseLines (blocks ts lastFile) i st)
  /\ global (parseLines (blocks ts lastFile) i st) = global st
  /\ objs (parseLines (blocks ts lastFile) i st)
     = objs st ++ map rereadTrack (readBackFiles ts lastFile).
Proof.
  induction ts as [|t ts IH]; intros lastFile i st Hs H.
  - cbn [blocks parseLines readBackFiles map]. rewrite app_nil_r. auto.
  - inversion H as [|? ? Ht Hts]; subst.
    cbn [blocks readBackFiles map]. rewrite !parseLines_app.
    rewrite serializeTrackContent_At.
    destruct (read_trackContentAt tabs2 tabs3 t i st eq_refl eq_refl Hs Ht) as [w1 E1].
    rewrite E1.
    set (lf := lastFileAfter t lastFile).
    assert (Hf : optOK (fun f => filename f <> [] /\ plainName (filename f) = true
                                 /\ lacks SLASH (filename f) = true) (headFile ts lf)).
    { destruct (headFile ts lf) as [f|] eqn:E; cbn [optOK]; [|exact I].
      now apply (headFile_canonical ts lf). }
    destruct (read_optFileLine (headFile ts lf) (i + length (trackContentAt tabs2 tabs3 t))
                (objs st) (rereadTrack t) (global st) w1 Hf) as [w2 E2].
    rewrite E2.
    destruct (IH lf (i + length (trackContentAt tabs2 tabs3 t)
                     + length (optFileLine (headFile ts lf)))
                (inTrack (objs st) (putOpt set_file (headFile ts lf) (rereadTrack t))
                   (global st) w2)
                (shaped_track _ _ _ _) Hts) as [S [G O]].
    split; [exact S|]. split; [exact G|].
    rewrite O. cbn [objs inTrack]. now rewrite <- app_assoc, rereadTrack_putOpt.
Qed.

(** When the tracks that have a file share its name with the first track,
    no FILE line is written between the tracks, and the tracks are read
    back as they are. *)
Lemma fileChanged_same t lastFile f :
  optOK (fun f' => filename f' = filename f) (file t) -> lastFile = Some (filename f) ->
  fileChanged t lastFile = None.
Proof.
  intros H ->. unfold fileChanged. destruct (file t) as [f'|]; [|reflexivity].
  cbn [optOK] in H. rewrite H, jeqb_refl. reflexivity.
Qed.

Lemma readBackFiles_same ts : forall lf f,
  lf = Some (filename f) ->
  Forall (fun t' => optOK (fun f' => filename f' = filename f) (file t')) ts ->
  readBackFiles ts lf = ts.
Proof.
  induction ts as [|t ts IH]; intros lf f Hlf H; [reflexivity|].
  inversion H as [|? ? Ht Hts]; subst. cbn [readBackFiles].
  assert (L : lastFileAfter t (Some (filename f)) = Some (filename f)).
  { unfold lastFileAfter. now rewrite (fileChanged_same t _ f Ht eq_refl). }
  rewrite L, (IH _ f eq_refl Hts). f_equal.
  destruct ts as [|t2 ts]; [reflexivity|]. cbn [headFile].
  inversion Hts; subst. now rewrite (fileChanged_same t2 _ f). 
Qed.

Lemma readBackFiles_fileless ts :
  Forall fileless ts -> readBackFiles ts None = ts.
Proof.
  intros H. induction H as [|t ts Ht Hts IH]; [reflexivity|].
  cbn [readBackFiles].
  assert (L : lastFileAfter t None = None).
  { unfold lastFileAfter, fileChanged. now rewrite Ht. }
  rewrite L, IH. f_equal.
  destruct ts as [|t2 ts]; [reflexivity|]. cbn [headFile].
  inversion Hts; subst. unfold fileChanged.
  match goal with H : fileless t2 |- _ => rewrite H end. reflexivity.
Qed.

Lemma readBackFiles_oneFileName ts :
  oneFileName ts -> readBackFiles ts None = ts.
Proof.
  destruct ts as [|t ts]; [reflexivity|]. cbn [oneFileName]. intros H.
  destruct (file t) as [f|] eqn:Ef.
  - cbn [readBackFiles].
    assert (L : lastFileAfter t None = Some (filename f)).
    { unfold lastFileAfter, fileChanged. now rewrite Ef. }
    assert (H' : Forall (fun t' => optOK (fun f' => filename f' = filename f) (file t')) ts).
    { eapply Forall_impl; [|exact H]. intros t' Ht'. cbv beta in Ht'.
      destruct (file t') as [f'|]; cbn [optOK] in *; [|exact I].
      destruct Ht' as [f0 [E0 E1]]. inversion E0; subst. exact E1. }
    rewrite L, (readBackFiles_same ts _ f eq_refl H'). f_equal.
    destruct ts as [|t2 ts]; [reflexivity|]. cbn [headFile].
    inversion H'; subst. now rewrite (fileChanged_same t2 _ f).
  - apply readBackFiles_fileless. constructor; [exact Ef|].
    eapply Forall_impl; [|exact H]. intros t' Ht'. cbv beta in Ht'. unfold fileless.
    destruct (file t') as [f'|]; [|reflexivity].
    cbn [optOK] in Ht'. destruct Ht' as [f0 [E0 _]]. discriminate.
Qed.

(** ** The global lines *)

Lemma globalSteps_nil : globalSteps [] (fun g => g).
Proof. intros i g w. exists w. reflexivity. Qed.

Lemma globalSteps_app a b fa fb :
  globalSteps a fa -> globalSteps b fb -> globalSteps (a ++ b) (fun g => fb (fa g)).
Proof.
  intros Ha Hb i g w. rewrite parseLines_app.
  destruct (Ha i g w) as [w1 E1]. rewrite E1. apply Hb.
Qed.

Lemma globalSteps_ext ls f f' :
  (forall g, f g = f' g) -> globalSteps ls f -> globalSteps ls f'.
Proof.
  intros E H i g w. destruct (H i g w) as [w' E1]. exists w'. now rewrite <- E.
Qed.

Lemma globalSteps_handler c rest f :
  (forall n g w, handler c (trim rest) n (atTop g w) = Ok (atTop (f g) w)) ->
  globalSteps [cmdLine [] c rest] f.
Proof.
  intros H i g w. cbn [parseLines]. rewrite step_cmdLine by reflexivity.
  rewrite H. exists w. reflexivity.
Qed.

Lemma globalSteps_whenText c kw gset (gget : CueGlobal -> option jstring) o :
  str kw = keyword c ->
  (forall args n g w,
     handler c args n (atTop g w) = Ok (atTop (gset (Some (parseQuotedString args)) g) w)) ->
  (forall g, gset (gget g) g = g) ->
  plainText o = true ->
  globalSteps (whenText o (textLine [] kw)) (fun g => gset (orElse o (gget g)) g).
Proof.
  intros Hk Hh Hg Ho. destruct o as [[|x s]|]; try discriminate.
  - cbn [whenText orElse]. rewrite (textLine_cmdLine [] c) by exact Hk.
    apply globalSteps_handler. intros n g w. rewrite Hh.
    rewrite trim_quoted, parseQuotedString_quoted, escapeString_lacks by exact Ho.
    reflexivity.
  - eapply globalSteps_ext; [|apply globalSteps_nil]. intros g. cbn [orElse]. now rewrite Hg.
Qed.

Lemma globalSteps_remarkLines l :
  Forall trimmed l ->
  globalSteps (map (fun remark => [] ++ str "REM " ++ remark) l)
    (fun g => gset_remarks (pushAll (g_remarks g) l) g).
Proof.
  intros H. induction H as [|r l Hr Hl IH].
  - eapply globalSteps_ext; [|apply globalSteps_nil]. intros []. reflexivity.
  - change (map (fun remark => [] ++ str "REM " ++ remark) (r :: l))
      with ([cmdLine [] REM r] ++ map (fun remark => [] ++ str "REM " ++ remark) l).
    assert (S1 : globalSteps [cmdLine [] REM r]
                   (fun g => gset_remarks (pushOpt (g_remarks g) r) g)).
    { apply globalSteps_handler. intros n g w. unfold handler, handleRemark.
      unfold trimmed in Hr. rewrite Hr. reflexivity. }
    eapply globalSteps_ext; [|apply (globalSteps_app _ _ _ _ S1 IH)].
    intros g. cbv beta. rewrite <- pushAll_cons. destruct g. reflexivity.
Qed.

Lemma globalSteps_remarksOpt o :
  someItems trimmed o ->
  globalSteps (remarkLines [] o) (fun g => gset_remarks (pushAllOpt o (g_remarks g)) g).
Proof.
  intros H. unfold remarkLines, someItems in *.
  destruct o as [l|]; cbn [whenSome pushAllOpt optOK] in *.
  - destruct H as [_ H]. now apply globalSteps_remarkLines.
  - eapply globalSteps_ext; [|apply globalSteps_nil]. intros []. reflexivity.
Qed.

Lemma globalSteps_catalog o :
  optOK (fun s => allDigits 13 s = true) o ->
  globalSteps (whenText o (fun v => str "CATALOG " ++ v))
    (fun g => gset_catalog (orElse o (g_catalog g)) g).
Proof.
  destruct o as [[|x s]|]; cbn [whenText orElse optOK]; intros H.
  - discriminate.
  - apply (globalSteps_handler CATALOG (x :: s)).
    intros n g w. unfold handler, handleCatalog.
    assert (T : trim (x :: s) = x :: s).
    { apply noWs_trim, numChars_noWs, digits_numChars. now apply (allDigits_digits 13). }
    rewrite !T, H. reflexivity.
  - eapply globalSteps_ext; [|apply globalSteps_nil]. intros []. reflexivity.
Qed.

Lemma globalSteps_cdTextFile o :
  optOK (fun s => s <> []) o ->
  globalSteps (whenText o (fun v => str "CDTEXTFILE " ++ quoted v))
    (fun g => gset_cdTextFile (orElse o (g_cdTextFile g)) g).
Proof.
  destruct o as [[|x s]|]; cbn [whenText orElse optOK]; intros H.
  - congruence.
  - apply (globalSteps_handler CDTEXTFILE (quoted (x :: s))).
    intros n g w. unfold handler, handleCdTextFile.
    rewrite trim_quoted, parseQuotedString_quoted. reflexivity.
  - eapply globalSteps_ext; [|apply globalSteps_nil]. intros []. reflexivity.
Qed.

Lemma globalSteps_serializeGlobal g0 :
  canonicalGlobal g0 -> globalSteps (serializeGlobal g0) (readGlobalInto g0).
Proof.
  intros C. pose proof (cg_ok g0 C) as OK. unfold serializeGlobal.
  eapply globalSteps_ext; cycle 1.
  - apply globalSteps_app; [apply globalSteps_remarksOpt, (cg_remarks g0 C)|].
    apply globalSteps_app; [apply globalSteps_catalog, (ok_g_catalog g0 OK)|].
    apply globalSteps_app; [apply globalSteps_cdTextFile, (cg_cdTextFile g0 C)|].
    apply globalSteps_app.
    { apply (globalSteps_whenText TITLE "TITLE" gset_title g_title);
        [reflexivity | reflexivity | intros []; reflexivity | apply (cg_title g0 C)]. }
    apply globalSteps_app.
    { apply (globalSteps_whenText PERFORMER "PERFORMER" gset_performer g_performer);
        [reflexivity | reflexivity | intros []; reflexivity | apply (cg_performer g0 C)]. }
    apply globalSteps_app.
    { apply (globalSteps_whenText SONGWRITER "SONGWRITER" gset_songwriter g_songwriter);
        [reflexivity | reflexivity | intros []; reflexivity | apply (cg_songwriter g0 C)]. }
    apply globalSteps_app.
    { apply (globalSteps_whenText COMPOSER "COMPOSER" gset_composer g_composer);
        [reflexivity | reflexivity | intros []; reflexivity | apply (cg_composer g0 C)]. }
    apply globalSteps_app.
    { apply (globalSteps_whenText ARRANGER "ARRANGER" gset_arranger g_arranger);
        [reflexivity | reflexivity | intros []; reflexivity | apply (cg_arranger g0 C)]. }
    apply globalSteps_app.
    { apply (globalSteps_whenText MESSAGE "MESSAGE" gset_message g_message);
        [reflexivity | reflexivity | intros []; reflexivity | apply (cg_message g0 C)]. }
    apply globalSteps_app.
    { apply (globalSteps_whenText DISC_ID "DISC_ID" gset_discId g_discId);
        [reflexivity | reflexivity | intros []; reflexivity | apply (cg_discId g0 C)]. }
    apply globalSteps_app.
    { apply (globalSteps_whenText GENRE "GENRE" gset_genre g_genre);
        [reflexivity | reflexivity | intros []; reflexivity | apply (cg_genre g0 C)]. }
    apply (globalSteps_whenText UPC_EAN "UPC_EAN" gset_upcEan g_upcEan);
      [reflexivity | reflexivity | intros []; reflexivity | apply (cg_upcEan g0 C)].
  - intros g. reflexivity.
Qed.

Lemma readGlobalInto_empty g : canonicalGlobal g -> readGlobalInto g emptyGlobal = g.
Proof.
  intros C. pose proof (cg_remarks g C) as Hr. unfold someItems in Hr.
  destruct g as [ca cd ti pe so co ar me di ge up re].
  cbn [g_remarks optOK] in Hr.
  unfold readGlobalInto, emptyGlobal.
  cbn [gset_catalog gset_cdTextFile gset_title gset_performer gset_songwriter
       gset_composer gset_arranger gset_message gset_discId gset_genre gset_upcEan
       gset_remarks g_catalog g_cdTextFile g_title g_performer g_songwriter g_composer
       g_arranger g_message g_discId g_genre g_upcEan g_remarks].
  rewrite !orElse_None.
  assert (Er : pushAllOpt re None = re).
  { destruct re as [[|x l]|]; cbn [pushAllOpt pushAll app]; try reflexivity.
    destruct Hr as [Hr _]. congruence. }
  rewrite Er. reflexivity.
Qed.

(** ** The sheet *)

Lemma canonical_docOK d : canonical d -> docOK (rereadSheet d).
Proof.
  intros [G T]. split; [apply (cg_ok _ G)|].
  cbn [rereadSheet cs_tracks]. apply Forall_map.
  eapply Forall_impl; [|exact T]. intros t. apply ct_ok.
Qed.

Lemma parse_of_lines L :
  Forall (fun l => lacks LF l = true) L ->
  parseCueSheet (join [LF] L ++ [LF])
  = makeResult (finalize (parseLines L 0 (atTop emptyGlobal []))).
Proof.
  intros HL. unfold parseCueSheet, parse, run. cbn [snd].
  rewrite (split_join_lines L HL). f_equal. f_equal.
  rewrite parseLines_app. cbn [parseLines]. rewrite step_empty_line.
  destruct L; reflexivity.
Qed.

(** What the parser reads of the text that [serializeCueSheet] writes for a
    canonical document. *)
Lemma reparse_canonical d :
  canonical d ->
  exists ws,
    parseCueSheet (serializeCueSheet d)
    = mkResult
        (Some (rereadSheet (mkSheet (cs_global d) (readBackFiles (cs_tracks d) None))))
        [] ws.
Proof.
  intros C. pose proof (canonical_docOK d C) as [OKg OKt].
  cbn [rereadSheet cs_global cs_tracks] in OKg, OKt. destruct C as [Cg Ct].
  unfold serializeCueSheet.
  rewrite parse_of_lines
    by (apply Forall_app_intro; [now apply lacks_serializeGlobal
                                | now apply lacks_serializeTracksOptimized]).
  rewrite parseLines_app.
  destruct (globalSteps_serializeGlobal _ Cg 0 emptyGlobal []) as [w1 E1].
  rewrite E1, readGlobalInto_empty by exact Cg.
  rewrite optimized_blocks, parseLines_app.
  set (i1 := 0 + length (serializeGlobal (cs_global d))).
  assert (E2 : exists w2,
             parseLines (optFileLine (headFile (cs_tracks d) None)) i1
               (atTop (cs_global d) w1) = atTop (cs_global d) w2).
  { destruct (headFile (cs_tracks d) None) as [f|] eqn:E; cbn [optFileLine whenSome].
    - destruct (headFile_canonical _ _ _ Ct E) as [H1 [H2 _]].
      apply (globalSteps_fileLine f H1 H2).
    - exists w1. reflexivity. }
  destruct E2 as [w2 E2]. rewrite E2.
  destruct (read_blocks (cs_tracks d) None
              (i1 + length (optFileLine (headFile (cs_tracks d) None)))
              (atTop (cs_global d) w2) (shaped_top _ _) Ct) as [S [G O]].
  rewrite (makeResult_shaped _ S), G, O. cbn [global objs atTop app].
  eexists. reflexivity.
Qed.

(** X1: Parsing the text that [serializeCueSheet] writes for a canonical
    document whose tracks with a file all have the file name of the first
    track gives no error and the document back, field by field; of each
    time the three numbers come back in their order, in a time object with
    the field names of the parser ([rereadSheet]). *)
Theorem serialize_parse_exact_round_trip :
  forall d,
    canonical d -> oneFileName (cs_tracks d) ->
    exists ws,
      parseCueSheet (serializeCueSheet d) = mkResult (Some (rereadSheet d)) [] ws.
Proof.
  intros d C F. destruct (reparse_canonical d C) as [ws E].
  exists ws. rewrite E, (readBackFiles_oneFileName _ F). destruct d. reflexivity.
Qed.

Ltac canonical_fields :=
  repeat match goal with
         | |- _ /\ _ => split
         | |- Forall _ [] => constructor
         | |- Forall _ (_ :: _) => constructor
         | |- StronglySorted _ [] => constructor
         | |- StronglySorted _ (_ :: _) => constructor
         | |- _ <> _ => discriminate
         | |- True => exact I
         | |- (_ <= _)%Z => vm_compute; discriminate
         | |- (_ < _)%Z => vm_compute; reflexivity
         | |- _ = _ => vm_compute; reflexivity
         end.

Lemma albumTrack1_canonical : canonicalTrack albumTrack1.
Proof.
  split; [split|..]; cbn [albumTrack1 rereadTrack rereadIndex rereadTime option_map map
    optOK someItems number file title performer songwriter composer arranger message
    isrc flags indexes pregap postgap remarks];
    unfold textOK, indexOK, timeOK, ascendingIndexes, trimmed;
    cbn [rereadIndex rereadTime idx_number idx_time minutes seconds frames hour minute second];
    canonical_fields.
Qed.

Lemma albumTrack2_canonical : canonicalTrack albumTrack2.
Proof.
  split; [split|..]; cbn [albumTrack2 rereadTrack rereadIndex rereadTime option_map map
    optOK someItems number file title performer songwriter composer arranger message
    isrc flags indexes pregap postgap remarks];
    unfold textOK, indexOK, timeOK, ascendingIndexes, trimmed;
    cbn [rereadIndex rereadTime idx_number idx_time minutes seconds frames hour minute second];
    canonical_fields.
Qed.

Lemma albumDoc_canonical : canonical albumDoc.
Proof.
  split.
  - split; [split|..]; cbn [albumDoc cs_global albumGlobal optOK someItems g_catalog
      g_cdTextFile g_title g_performer g_songwriter g_composer g_arranger g_message
      g_discId g_genre g_upcEan g_remarks];
      unfold textOK, trimmed; canonical_fields.
  - constructor; [apply albumTrack1_canonical|].
    constructor; [apply albumTrack2_canonical | constructor].
Qed.

Lemma serialize_parse_exact_round_trip_witness :
  exists ws,
    parseCueSheet (serializeCueSheet albumDoc) = mkResult (Some (rereadSheet albumDoc)) [] ws.
Proof.
  apply serialize_parse_exact_round_trip; [apply albumDoc_canonical|].
  cbn [oneFileName albumDoc cs_tracks]. constructor; [|constructor].
  cbn [optOK file albumTrack2]. exists albumFile. split; reflexivity.
Defined.

(** X2: When two tracks that follow each other have files with different
    names, the text of [serializeCueSheet] is read back with the file of
    the second track in the first: the FILE line written before the second
    TRACK line is read while the first track is still open.  The times come
    back as the parser holds them ([rereadSheet]). *)
Theorem file_of_next_track_replaces_file :
  forall g t1 t2 f1 f2,
    canonicalGlobal g -> canonicalTrack t1 -> canonicalTrack t2 ->
    file t1 = Some f1 -> file t2 = Some f2 ->
    filename f1 <> filename f2 ->
    exists ws,
      parseCueSheet (serializeCueSheet (mkSheet g [t1; t2]))
      = mkResult (Some (rereadSheet (mkSheet g [set_file (Some f2) t1; t2]))) [] ws.
Proof.
  intros g t1 t2 f1 f2 Cg C1 C2 E1 E2 Hne.
  destruct (reparse_canonical (mkSheet g [t1; t2])) as [ws E].
  { split; [exact Cg|]. cbn [cs_tracks].
    constructor; [exact C1|]. constructor; [exact C2 | constructor]. }
  exists ws. rewrite E. cbn [cs_global cs_tracks readBackFiles headFile].
  assert (L1 : lastFileAfter t1 None = Some (filename f1)).
  { unfold lastFileAfter, fileChanged. now rewrite E1. }
  assert (L2 : fileChanged t2 (Some (filename f1)) = Some f2).
  { unfold fileChanged. rewrite E2.
    destruct (jeqb (filename f2) (filename f1)) eqn:J; [|reflexivity].
    apply jeqb_eq in J. congruence. }
  rewrite L1, L2. reflexivity.
Qed.

Lemma file_of_next_track_replaces_file_witness :
  exists ws,
    parseCueSheet (serializeCueSheet twoFilesDoc)
    = mkResult
        (Some (mkSheet emptyGlobal
                 [set_file (Some sideB) (newTrack 1 AUDIO);
                  set_file (Some sideB) (newTrack 2 AUDIO)])) [] ws.
Proof.
  apply (file_of_next_track_replaces_file emptyGlobal
           (set_file (Some sideA) (newTrack 1 AUDIO))
           (set_file (Some sideB) (newTrack 2 AUDIO)) sideA sideB).
  - split; [split|..]; cbn [emptyGlobal optOK someItems g_catalog g_cdTextFile g_title
      g_performer g_songwriter g_composer g_arranger g_message g_discId g_genre
      g_upcEan g_remarks]; canonical_fields.
  - split; [split|..]; cbn [set_file newTrack rereadTrack option_map map optOK someItems
      number file title performer songwriter composer arranger message isrc flags
      indexes pregap postgap remarks];
      unfold textOK; canonical_fields.
  - split; [split|..]; cbn [set_file newTrack rereadTrack option_map map optOK someItems
      number file title performer songwriter composer arranger message isrc flags
      indexes pregap postgap remarks];
      unfold textOK; canonical_fields.
  - reflexivity.
  - reflexivity.
  - vm_compute. discriminate.
Defined.

(** ** The formatted sheet *)

Lemma reindent_tabs3 ind x : reindent ind (tabs3 ++ x) = (ind ++ ind ++ ind) ++ x.
Proof.
  unfold reindent.
  assert (S3 : startsWith tabs3 (tabs3 ++ x) = true).
  { unfold startsWith, tabs3. cbn [length firstn app jeqb]. now rewrite !Ascii.eqb_refl. }
  rewrite S3. change (skipn 3 (tabs3 ++ x)) with x. now rewrite <- !app_assoc.
Qed.

Lemma reindent_tabs2 ind c x :
  Ascii.eqb c TAB = false -> reindent ind (tabs2 ++ c :: x) = (ind ++ ind) ++ c :: x.
Proof.
  intros Hc. unfold reindent.
  assert (S3 : startsWith tabs3 (tabs2 ++ c :: x) = false).
  { unfold startsWith, tabs3, tabs2. cbn [length firstn app jeqb].
    rewrite Hc. now rewrite !Ascii.eqb_refl. }
  assert (S2 : startsWith tabs2 (tabs2 ++ c :: x) = true).
  { unfold startsWith, tabs2. cbn [length firstn app jeqb]. now rewrite !Ascii.eqb_refl. }
  rewrite S3, S2. change (skipn 2 (tabs2 ++ c :: x)) with (c :: x). now rewrite <- app_assoc.
Qed.

Lemma map_whenText (h : jstring -> jstring) o f f' :
  (forall v, h (f v) = f' v) -> map h (whenText o f) = whenText o f'.
Proof. intros E. destruct o as [[|x s]|]; cbn [whenText map]; now rewrite ?E. Qed.

Lemma map_whenSome {A} (h : jstring -> jstring) (o : option A) f f' :
  (forall v, map h (f v) = f' v) -> map h (whenSome o f) = whenSome o f'.
Proof. intros E. destruct o as [v|]; cbn [whenSome]; [apply E | reflexivity]. Qed.

Lemma app_cong {A} (a a' b b' : list A) : a = a' -> b = b' -> a ++ b = a' ++ b'.
Proof. now intros -> ->. Qed.

Lemma reindent_textLine ind kw v :
  reindent ind (textLine tabs3 kw v) = textLine (ind ++ ind ++ ind) kw v.
Proof. unfold textLine. apply reindent_tabs3. Qed.

(** The lines of a track, re-indented, are its lines with the indentation
    of the caller. *)
Lemma map_reindent_trackContent ind t :
  map (reindent ind) (serializeTrackContent t)
  = trackContentAt (ind ++ ind) (ind ++ ind ++ ind) t.
Proof.
  rewrite serializeTrackContent_At. unfold trackContentAt, contentAt. cbn [map].
  f_equal; [apply (reindent_tabs2 ind "T"%char); reflexivity|].
  rewrite !map_app.
  repeat (apply app_cong;
          [first [ apply map_whenText; intros v; apply reindent_textLine
                 | apply map_whenText; intros v; apply reindent_tabs3
                 | apply map_whenSome; intros v; cbn [map]; f_equal; apply reindent_tabs3
                 | idtac ]|]).
  - apply map_whenSome. intros f. cbn [map]. f_equal.
    unfold fileLine. destruct (_ || _); apply reindent_tabs3.
  - apply map_whenSome. intros fl. destruct fl as [|f fl]; [reflexivity|].
    cbn [flagsLineAt map]. f_equal. apply reindent_tabs3.
  - apply map_whenSome. intros l. rewrite map_map. apply map_ext.
    intros i. apply reindent_tabs3.
  - unfold remarkLines. apply map_whenSome. intros l. rewrite map_map. apply map_ext.
    intros r. apply reindent_tabs3.
Qed.

Lemma lacks_skipn c n s : lacks c s = true -> lacks c (skipn n s) = true.
Proof.
  intros H. apply (lacks_incl c (skipn n s) s); [|exact H].
  intros x Hx. rewrite <- (firstn_skipn n s). apply in_or_app. now right.
Qed.

Lemma lacks_reindent ind l :
  lacks LF ind = true -> lacks LF l = true -> lacks LF (reindent ind l) = true.
Proof.
  intros Hi Hl. unfold reindent.
  destruct (startsWith tabs3 l); [|destruct (startsWith tabs2 l)];
    rewrite ?lacks_app, ?Hi, ?lacks_skipn by exact Hl; auto.
Qed.

Lemma lacks_formatTracks ind spacing ts : forall index,
  lacks LF ind = true -> Forall trackOK (map rereadTrack ts) ->
  Forall (fun l => lacks LF l = true) (formatTracks ind spacing ts index).
Proof.
  induction ts as [|t ts IH]; intros index Hi H; [constructor|].
  cbn [map] in H. inversion H as [|? ? Ht Hts]; subst. cbn [formatTracks].
  apply Forall_app_intro; [destruct (_ && _); repeat constructor|].
  apply Forall_app_intro; [|now apply IH].
  apply Forall_forall. intros l Hl. apply in_map_iff in Hl. destruct Hl as [l0 [<- Hl0]].
  apply lacks_reindent; [exact Hi|].
  pose proof (lacks_serializeTrackContent t Ht) as L. rewrite Forall_forall in L. auto.
Qed.

Lemma parseLines_blank (b : bool) i st :
  parseLines (if b then [[]] else []) i st = st.
Proof. destruct b; reflexivity. Qed.

Lemma read_formatTracks ind spacing ts : forall index i st,
  forallb isWhiteSpace ind = true ->
  shaped st -> Forall canonicalTrack ts ->
  shaped (parseLines (formatTracks ind spacing ts index) i st)
  /\ global (parseLines (formatTracks ind spacing ts index) i st) = global st
  /\ objs (parseLines (formatTracks ind spacing ts index) i st)
     = objs st ++ map rereadTrack ts.
Proof.
  induction ts as [|t ts IH]; intros index i st Hi Hs H.
  - cbn [formatTracks parseLines map]. rewrite app_nil_r. auto.
  - inversion H as [|? ? Ht Hts]; subst.
    cbn [formatTracks]. rewrite !parseLines_app, parseLines_blank.
    rewrite map_reindent_trackContent.
    assert (H2 : forallb isWhiteSpace (ind ++ ind) = true)
      by (rewrite forallb_app, Hi; reflexivity).
    assert (H3 : forallb isWhiteSpace (ind ++ ind ++ ind) = true)
      by (rewrite !forallb_app, Hi; reflexivity).
    match goal with
    | |- context [parseLines (trackContentAt _ _ t) ?i1 st] =>
        destruct (read_trackContentAt (ind ++ ind) (ind ++ ind ++ ind) t i1 st H2 H3 Hs Ht)
          as [w1 E1]
    end.
    rewrite E1.
    match goal with
    | |- context [parseLines (formatTracks ind spacing ts (S index)) ?i2 _] =>
        destruct (IH (S index) i2 (inTrack (objs st) (rereadTrack t) (global st) w1) Hi
                    (shaped_track _ _ _ _) Hts) as [S [G O]]
    end.
    split; [exact S|]. split; [exact G|].
    rewrite O. cbn [objs inTrack map]. now rewrite <- app_assoc.
Qed.

(** X3: Parsing the text that [formatCueSheet] writes for a canonical document,
    with an indentation of white space, gives no error and the document
    back, field by field, whatever the files of its tracks and the spacing;
    of each time the three numbers come back in their order, in a time
    object with the field names of the parser ([rereadSheet]). *)
Theorem format_parse_exact_round_trip :
  forall d options,
    canonical d -> blankIndent (indentOf options) = true ->
    exists ws,
      parseCueSheet (formatCueSheet d options) = mkResult (Some (rereadSheet d)) [] ws.
Proof.
  intros d options C B. pose proof (canonical_docOK d C) as [OKg OKt].
  cbn [rereadSheet cs_global cs_tracks] in OKg, OKt.
  destruct C as [Cg Ct]. unfold blankIndent in B. apply andb_true_iff in B.
  destruct B as [Bw Bl]. unfold formatCueSheet. cbv zeta.
  rewrite parse_of_lines.
  2:{ apply Forall_app_intro; [apply Forall_app_intro|].
      - now apply lacks_serializeGlobal.
      - destruct (_ && _); repeat constructor.
      - now apply lacks_formatTracks. }
  rewrite !parseLines_app.
  destruct (globalSteps_serializeGlobal _ Cg 0 emptyGlobal []) as [w1 E1].
  rewrite E1, readGlobalInto_empty by exact Cg.
  rewrite parseLines_blank.
  match goal with
  | |- context [parseLines (formatTracks ?ind ?s ?ts ?k) ?i ?st] =>
      destruct (read_formatTracks ind s ts k i st Bw (shaped_top _ _) Ct) as [S [G O]]
  end.
  rewrite (makeResult_shaped _ S), G, O. cbn [global objs atTop app].
  eexists. destruct d. reflexivity.
Qed.

Lemma format_parse_exact_round_trip_witness :
  exists ws,
    parseCueSheet (formatCueSheet albumDoc noOptions)
    = mkResult (Some (rereadSheet albumDoc)) [] ws.
Proof.
  apply format_parse_exact_round_trip; [apply albumDoc_canonical | reflexivity].
Defined.
